(** * elb-logs-to-cloudwatch: a shallow embedding and its properties

    The development follows the Go sources file by file: the helpers of the
    [strings] package the program calls, [fields.go] (the field schema and the
    field selection), [config.go] ([ParseS3URL]), [counter.go], [cloudwatch.go]
    (the sink), [processor.go] (record parsing, the batch accumulator and the
    object pipeline) and [handler.go] (the fan-out scheduler).

    Conventions.  A Go [string] is a sequence of bytes, here a [string] of
    8-bit [ascii].  A Go [int] is a [Z]: every integer of the program is a
    length, an index or a sum of at most 10,000 message lengths, far from the
    64-bit bounds.  A Go [error] is the sentinel [io.EOF] or its message; the
    [nil] error is [None].  A function returning [(T, error)] returns a
    pair.  A Go map is a [gmap]. *)

From Stdlib Require Import ZArith String Ascii List Lia Bool.
From Stdlib Require Import DecimalString.
From Stdlib Require Import Sorting.Permutation Sorting.Sorted.
From stdpp Require Import base gmap strings list fin_maps.

Import ListNotations.
Local Open Scope Z_scope.

(** ** Errors, panics and formatting *)

(** An error value: the sentinel [io.EOF], which the program tests by
    identity, or a value made by [errors.New] or [fmt.Errorf], which is
    its message.  The nil error is [None]. *)
Inductive error : Type :=
| io_EOF
| errorString (msg : string).

(** [err.Error()], which is also what [%v] and [%w] print. *)
Definition Error (e : error) : string :=
  match e with
  | io_EOF => "EOF"
  | errorString msg => msg
  end.

(** A call either returns or panics (a run-time error such as a nil pointer
    dereference unwinds the goroutine). *)
Inductive outcome (A : Type) : Type :=
| Ret (a : A)
| Panic (msg : string).
Arguments Ret {A} a.
Arguments Panic {A} msg.

Global Instance outcome_ret : MRet outcome := fun A a => Ret a.
Global Instance outcome_bind : MBind outcome := fun A B k m =>
  match m with
  | Ret a => k a
  | Panic msg => Panic msg
  end.

Global Instance outcome_fmap : FMap outcome := fun A B f m =>
  match m with
  | Ret a => Ret (f a)
  | Panic msg => Panic msg
  end.

Definition nilDereference : string :=
  "runtime error: invalid memory address or nil pointer dereference".

(** [%d] of [fmt]: the decimal rendering of an integer. *)
Definition itoa (n : Z) : string := NilZero.string_of_int (Z.to_int n).

(** [len] of a string and of a slice. *)
Definition len (s : string) : Z := Z.of_nat (String.length s).
Definition llen {A : Type} (l : list A) : Z := Z.of_nat (List.length l).

(** ** The functions of package [strings] the program calls *)

Module strings.

(** [strings.HasPrefix(s, prefix)]. *)
Fixpoint HasPrefix (s prefix : string) {struct prefix} : bool :=
  match prefix, s with
  | EmptyString, _ => true
  | String p prefix', String c s' => if Ascii.eqb c p then HasPrefix s' prefix' else false
  | String _ _, EmptyString => false
  end.

(** [s[n:]] for [0 <= n <= len(s)]. *)
Fixpoint drop (n : nat) (s : string) : string :=
  match n, s with
  | O, _ => s
  | S n', String _ s' => drop n' s'
  | S _, EmptyString => EmptyString
  end.

(** [s[:n]] for [0 <= n <= len(s)]. *)
Fixpoint take (n : nat) (s : string) : string :=
  match n, s with
  | O, _ => EmptyString
  | S n', String c s' => String c (take n' s')
  | S _, EmptyString => EmptyString
  end.

(** [strings.TrimPrefix(s, prefix)]. *)
Definition TrimPrefix (s prefix : string) : string :=
  if HasPrefix s prefix then drop (String.length prefix) s else s.

(** [strings.Index(s, substr)]: the index of the first instance of [substr]
    in [s], or [-1]. *)
Fixpoint Index (s substr : string) : Z :=
  if HasPrefix s substr then 0
  else match s with
       | EmptyString => -1
       | String _ s' => let i := Index s' substr in if i <? 0 then -1 else i + 1
       end.

(** [strings.Split(s, sep)] for a separator of one byte, as the program
    calls it: the substrings between the separators, [n + 1] of them for
    [n] separators. *)
Fixpoint Split (s : string) (sep : ascii) : list string :=
  match s with
  | EmptyString => [EmptyString]
  | String c s' =>
      if Ascii.eqb c sep then EmptyString :: Split s' sep
      else match Split s' sep with
           | t :: ts => String c t :: ts
           | [] => [String c EmptyString]
           end
  end.

(** The six ASCII bytes of [asciiSpace]. *)
Definition asciiSpace (c : ascii) : bool :=
  match c with
  | "009" | "010" | "011" | "012" | "013" | " " => true
  | _ => false
  end%char.

(** [unicode.IsSpace] on UTF-8: the width in bytes of the white-space rune
    the bytes start with, [0] when they start with none.  Beyond ASCII the
    white-space runes are U+0085, U+00A0, U+1680, U+2000 to U+200A, U+2028,
    U+2029, U+202F, U+205F and U+3000. *)
Definition spaceWidth (bs : list ascii) : nat :=
  match bs with
  | c :: rest =>
      if asciiSpace c then 1%nat
      else match Z.of_N (N_of_ascii c), map (fun b => Z.of_N (N_of_ascii b)) (firstn 2 rest) with
           | 194, b1 :: _ => if (b1 =? 133) || (b1 =? 160) then 2%nat else 0%nat
           | 225, [154; 128] => 3%nat
           | 226, [128; b2] =>
               if ((128 <=? b2) && (b2 <=? 138)) || (b2 =? 168) || (b2 =? 169) || (b2 =? 175)
               then 3%nat else 0%nat
           | 226, [129; 159] => 3%nat
           | 227, [128; 128] => 3%nat
           | _, _ => 0%nat
           end
  | [] => 0%nat
  end.

(** The same test at the end of the bytes, which arrive reversed: a rune
    ends there when its encoding, read backwards, starts the list. *)
Definition spaceWidthLast (rbs : list ascii) : nat :=
  match rbs with
  | c :: _ =>
      if asciiSpace c then 1%nat
      else if (spaceWidth (rev (firstn 2 rbs)) =? 2)%nat then 2%nat
      else if (spaceWidth (rev (firstn 3 rbs)) =? 3)%nat then 3%nat
      else 0%nat
  | [] => 0%nat
  end.

Fixpoint trimStart (width : list ascii -> nat) (fuel : nat) (bs : list ascii) : list ascii :=
  match fuel with
  | O => bs
  | S fuel' =>
      match width bs with
      | O => bs
      | w => trimStart width fuel' (skipn w bs)
      end
  end.

(** [strings.TrimSpace(s)]: [s] without its leading and trailing white
    space, as defined by Unicode. *)
Definition TrimSpace (s : string) : string :=
  let bs := list_ascii_of_string s in
  let l := trimStart spaceWidth (List.length bs) bs in
  let r := trimStart spaceWidthLast (List.length l) (rev l) in
  string_of_list_ascii (rev r).

End strings.

(** The byte [c] occurs in [s]. *)
Definition occurs (c : ascii) (s : string) : Prop := In c (list_ascii_of_string s).

(** ** fields.go: the schema and the field selection *)

Definition fieldNames : list string :=
  [ "type"; "time"; "elb"; "client:port"; "target:port";
    "request_processing_time"; "target_processing_time";
    "response_processing_time"; "elb_status_code"; "target_status_code";
    "received_bytes"; "sent_bytes"; "request"; "user_agent";
    "ssl_cipher"; "ssl_protocol"; "target_group_arn"; "trace_id";
    "domain_name"; "chosen_cert_arn"; "matched_rule_priority";
    "request_creation_time"; "actions_executed"; "redirect_url";
    "error_reason"; "target:port_list"; "target_status_code_list";
    "classification"; "classification_reason"; "conn_trace_id" ].

Record IncludedFields : Type := mkIncludedFields {
  includedFieldsMap : gmap string bool
}.

(** A value of interface [Fields] holds a [*IncludedFields], which may be the
    nil pointer: [None]. *)
Definition Fields : Type := option IncludedFields.

(** [for _, field := range fieldNames { validFieldMap[field] = true }] *)
Definition validFieldMap : gmap string bool :=
  fold_left (fun m field => <[field := true]> m) fieldNames ∅.

(** The loop over the tokens of the configuration: the first token that is no
    key of [validFieldMap] ends it with an error, and the map built so far is
    dropped with the pointer. *)
Fixpoint includeConfigured (fields : list string) (included : gmap string bool)
  : option IncludedFields * option error :=
  match fields with
  | [] => (Some (mkIncludedFields included), None)
  | field :: rest =>
      let field := strings.TrimSpace field in
      match validFieldMap !! field with
      | None => (None, Some (errorString ("invalid field name '" +:+ field +:+ "' provided")))
      | Some _ => includeConfigured rest (<[field := true]> included)
      end
  end.

Definition NewFields (fieldsConfig : string) : option IncludedFields * option error :=
  if String.eqb fieldsConfig "" then
    (Some (mkIncludedFields
             (map_fold (fun field _ m => <[field := true]> m) ∅ validFieldMap)),
     None)
  else includeConfigured (strings.Split fieldsConfig ",") ∅.

(** The names a configuration lists: its tokens between commas, trimmed. *)
Definition configuredNames (fieldsConfig : string) : list string :=
  strings.TrimSpace <$> strings.Split fieldsConfig ",".

(** A string of ASCII white space only. *)
Definition blank (s : string) : Prop :=
  Forall (fun c => strings.asciiSpace c = true) (list_ascii_of_string s).

(** [fieldNames[index]] for an index in range. *)
Definition fieldNameAt (index : Z) : string :=
  nth (Z.to_nat index) fieldNames "".

(** The receiver is not dereferenced: the method also answers on nil. *)
Definition GetFieldNameByIndex (fs : Fields) (index : Z) : string * option error :=
  if (index <? 0) || (index >=? llen fieldNames)
  then ("", Some (errorString ("invalid field index " +:+ itoa index)))
  else (fieldNameAt index, None).

(** Reading [fs.includedFieldsMap] dereferences the receiver, after the
    range check; a missing key reads as [false]. *)
Definition IncludeField (fs : Fields) (index : Z) : outcome bool :=
  if (index <? 0) || (index >=? llen fieldNames) then Ret false
  else
    let fieldName := fieldNameAt index in
    match fs with
    | None => Panic nilDereference
    | Some fs => Ret (default false (includedFieldsMap fs !! fieldName))
    end.

(** The selection [IncludeField] reads from [fs] covers the whole schema. *)
Definition includesAll (fs : IncludedFields) : Prop :=
  forall index : Z, 0 <= index < llen fieldNames -> IncludeField (Some fs) index = Ret true.

(** ** config.go *)

Record Config : Type := mkConfig {
  cfgLogGroupName : string;
  cfgLogStreamName : string;
  cfgFields : string
}.

Definition ParseS3URL (url : string) : string * string * option error :=
  if negb (strings.HasPrefix url "s3://") then
    ("", "", Some (errorString "invalid S3 URL, missing 's3://' prefix"))
  else
    let trimmedS3URL := strings.TrimPrefix url "s3://" in
    let splitPos := strings.Index trimmedS3URL "/" in
    if splitPos =? -1 then
      ("", "", Some (errorString "invalid S3 URL, no '/' found after bucket name"))
    else
      let bucket := strings.take (Z.to_nat splitPos) trimmedS3URL in
      let prefix := strings.drop (Z.to_nat (splitPos + 1)) trimmedS3URL in
      (bucket, prefix, None).

(** The two errors of [ParseS3URL]. *)
Definition errMissingPrefix : error :=
  errorString "invalid S3 URL, missing 's3://' prefix".
Definition errNoSlash : error :=
  errorString "invalid S3 URL, no '/' found after bucket name".

(** ** counter.go *)

(** The mutex orders the increments of the accumulator goroutine and the
    final read; the value is all that is left of it in a sequential run. *)
Record SafeCounter : Type := mkSafeCounter { v : Z }.

Definition Increment (c : SafeCounter) (value : Z) : SafeCounter :=
  mkSafeCounter (v c + value).

Definition Value (c : SafeCounter) : Z := v c.

(** ** The library functions the pipeline is parametric in *)

(** [time.Time], as far as the program reads it. *)
Record Time : Type := mkTime { unixSec : Z; nsec : Z }.

(** [t.UnixMilli()] *)
Definition UnixMilli (t : Time) : Z := unixSec t * 1000 + nsec t / 1000000.

(** The zero [time.Time]: January 1, year 1, 00:00:00 UTC. *)
Definition zeroTime : Time := mkTime (-62135596800) 0.

(** [time.Parse], [json.Marshal] and [sort.Slice] are taken with their
    contracts.  [sort.Slice] is not stable: all that is known of its result
    is that it is a rearrangement of the slice in which no element is
    [less] than an earlier one; the contract is stated for a [less] that
    compares an integer key, which is how the program calls it. *)
Class GoLibrary : Type := {
  time_Parse : string -> string -> Time * option error;
  json_Marshal : gmap string string -> string * option error;
  sort_Slice : forall {A : Type}, (A -> A -> bool) -> list A -> list A;
  sort_Slice_perm : forall (A : Type) (less : A -> A -> bool) (x : list A),
    Permutation (sort_Slice less x) x;
  sort_Slice_sorted : forall (A : Type) (key : A -> Z) (x : list A),
    StronglySorted (fun a b => key a <= key b)
                   (sort_Slice (fun a b => key a <? key b) x)
}.

Definition RFC3339 : string := "2006-01-02T15:04:05Z07:00".

(** ** cloudwatch.go: the sink *)

Record InputLogEvent : Type := mkInputLogEvent {
  Message : string;
  Timestamp : Z
}.

Record PutLogEventsInput : Type := mkPutLogEventsInput {
  LogEvents : list InputLogEvent;
  LogGroupName : string;
  LogStreamName : string
}.

(** The client of the log service.  The service has a state of its own, so
    the answer to [PutLogEvents] may depend on the requests it has received
    before, which are passed first. *)
Record CloudWatchLogsAPI : Type := mkCloudWatchLogsAPI {
  PutLogEvents : list PutLogEventsInput -> PutLogEventsInput -> option error;
  CreateLogGroup : string -> option error;
  CreateLogStream : string -> string -> option error;
  DescribeLogGroups : list string * option error;
  DescribeLogStreams : string -> list string * option error
}.

Record LogConfig : Type := mkLogConfig {
  lcLogGroupName : string;
  lcLogStreamName : string
}.

Record S3ObjectInfo : Type := mkS3ObjectInfo {
  Bucket : string;
  Key : string
}.

(** What a run leaves behind: the objects requested from the store, the
    requests sent to the log service with their answers, and the lines
    written by [log.Printf], by the goroutine that runs [ProcessLogs] and by
    its accumulator goroutine.  The last two run concurrently, so their lines
    are kept apart: only the order within each is determined. *)
Record World : Type := mkWorld {
  s3Requests : list S3ObjectInfo;
  cwRequests : list (PutLogEventsInput * option error);
  logged : list string;
  printedMain : list string;
  printedAcc : list string
}.

Definition emptyWorld : World := mkWorld [] [] [] [] [].

Definition recordGetObject (o : S3ObjectInfo) (w : World) : World :=
  mkWorld (s3Requests w ++ [o]) (cwRequests w) (logged w) (printedMain w) (printedAcc w).
Definition recordPut (i : PutLogEventsInput) (r : option error) (w : World) : World :=
  mkWorld (s3Requests w) (cwRequests w ++ [(i, r)]) (logged w) (printedMain w) (printedAcc w).
Definition logPrintf (line : string) (w : World) : World :=
  mkWorld (s3Requests w) (cwRequests w) (logged w ++ [line]) (printedMain w) (printedAcc w).
Definition printMain (line : string) (w : World) : World :=
  mkWorld (s3Requests w) (cwRequests w) (logged w) (printedMain w ++ [line]) (printedAcc w).
Definition printAcc (line : string) (w : World) : World :=
  mkWorld (s3Requests w) (cwRequests w) (logged w) (printedMain w) (printedAcc w ++ [line]).

Definition ensureLogGroupExists (client : CloudWatchLogsAPI) (name : string) (w : World)
  : option error * World :=
  match DescribeLogGroups client with
  | (_, Some err) => (Some err, w)
  | (logGroups, None) =>
      if existsb (fun g => String.eqb g name) logGroups then (None, w)
      else (CreateLogGroup client name, logPrintf ("creating log group " +:+ name) w)
  end.

Definition ensureLogStreamExists (client : CloudWatchLogsAPI) (logGroupName logStreamName : string)
  (w : World) : option error * World :=
  match DescribeLogStreams client logGroupName with
  | (_, Some err) => (Some err, w)
  | (logStreams, None) =>
      if existsb (fun g => String.eqb g logStreamName) logStreams then (None, w)
      else (CreateLogStream client logGroupName logStreamName,
            logPrintf ("creating log stream " +:+ logStreamName +:+ " in log group " +:+ logGroupName) w)
  end.

Definition EnsureLogGroupAndLogStreamExists (client : CloudWatchLogsAPI) (logConfig : LogConfig)
  (w : World) : option error * World :=
  match ensureLogGroupExists client (lcLogGroupName logConfig) w with
  | (Some err, w) => (Some err, w)
  | (None, w) => ensureLogStreamExists client (lcLogGroupName logConfig) (lcLogStreamName logConfig) w
  end.

(** The [less] of the call of [sort.Slice]. *)
Definition byTimestamp (a b : InputLogEvent) : bool := Timestamp a <? Timestamp b.

(** The slice is sorted in place and then sent; the caller never reads its
    elements again, only its length. *)
Definition SendEventsToCloudWatch `{GoLibrary} (client : CloudWatchLogsAPI) (logConfig : LogConfig)
  (events : list InputLogEvent) (w : World) : option error * World :=
  let events := sort_Slice byTimestamp events in
  let input := mkPutLogEventsInput events (lcLogGroupName logConfig) (lcLogStreamName logConfig) in
  let err := PutLogEvents client (map fst (cwRequests w)) input in
  (err, recordPut input err w).

Definition EstimateEventSize (event : InputLogEvent) : Z := len (Message event) + 26.

(** ** encoding/csv: the reader, record by record *)

(** The bytes of an object reach the parser through the gzip reader, the
    pipe and the lexer of [encoding/csv] (with [Comma = ' ']).  What the
    lexer makes of them is taken as given: for each record in turn the line
    it starts at, its fields, and the error met while reading it, if any (a
    quoting error, or an error of the decompression which the pipe hands to
    the reader). *)
Record rawRecord : Type := mkRawRecord {
  rawLine : Z;
  rawFields : list string;
  rawErr : option error
}.

Record csvReader : Type := mkCsvReader {
  Comma : ascii;
  FieldsPerRecord : Z;
  pending : list rawRecord
}.

(** [csv.NewReader] leaves [FieldsPerRecord] at 0. *)
Definition csv_NewReader (body : list rawRecord) : csvReader :=
  mkCsvReader "," 0 body.

Definition setComma (r : csvReader) (c : ascii) : csvReader :=
  mkCsvReader c (FieldsPerRecord r) (pending r).

Definition ErrFieldCount : error := errorString "wrong number of fields".

(** The [Error] method of a [ParseError] that carries [ErrFieldCount]. *)
Definition ParseError (line : Z) (err : error) : error :=
  errorString ("record on line " +:+ itoa line +:+ ": " +:+ Error err).

(** The [Read] method of the reader.  Its documentation: "If FieldsPerRecord is positive,
    Read requires each record to have the given number of fields.  If
    FieldsPerRecord is 0, Read sets it to the number of fields in the first
    record, so that future records must have the same field count."  A
    record with another count is returned together with [ErrFieldCount]. *)
Definition Read (r : csvReader) : (list string * option error) * csvReader :=
  match pending r with
  | [] => (([], Some io_EOF), r)
  | raw :: rest =>
      let dst := rawFields raw in
      let err := rawErr raw in
      if FieldsPerRecord r >? 0 then
        let err :=
          if negb (llen dst =? FieldsPerRecord r) && negb (bool_decide (is_Some err))
          then Some (ParseError (rawLine raw) ErrFieldCount)
          else err in
        ((dst, err), mkCsvReader (Comma r) (FieldsPerRecord r) rest)
      else if FieldsPerRecord r =? 0 then
        ((dst, err), mkCsvReader (Comma r) (llen dst) rest)
      else ((dst, err), mkCsvReader (Comma r) (FieldsPerRecord r) rest)
  end.

(** ** processor.go *)

Record LogEntry : Type := mkLogEntry {
  Data : gmap string string;
  EntryTimestamp : Time
}.

(** [LogEntry{}] *)
Definition zeroLogEntry : LogEntry := mkLogEntry ∅ zeroTime.

Record S3Api : Type := mkS3Api {
  GetObject : S3ObjectInfo -> list rawRecord * option error
}.

Record CloudWatchLogProcessor : Type := mkCloudWatchLogProcessor {
  s3Client : S3Api;
  cwClient : CloudWatchLogsAPI;
  fieldStore : Fields;
  logConfig : LogConfig
}.

Definition maxBatchSize : Z := 1048576.
Definition maxBatchCount : Z := 10000.

(** [for i, value := range record { if fieldStore.IncludeField(i) { ... } }] *)
Fixpoint projectRecord (fieldStore : Fields) (i : Z) (record : list string)
  (entryMap : gmap string string) : outcome (gmap string string) :=
  match record with
  | [] => Ret entryMap
  | value :: rest =>
      include ← IncludeField fieldStore i;
      if (include : bool) then
        let fieldName := (GetFieldNameByIndex fieldStore i).1 in
        projectRecord fieldStore (i + 1) rest (<[fieldName := value]> entryMap)
      else projectRecord fieldStore (i + 1) rest entryMap
  end.

Definition recordToLogEntry `{GoLibrary} (record : list string) (fieldStore : Fields)
  : outcome (LogEntry * option error) :=
  if negb (llen record =? llen fieldNames) then
    Ret (zeroLogEntry,
         Some (errorString ("invalid log format: expected " +:+ itoa (llen fieldNames)
                            +:+ " fields, got " +:+ itoa (llen record))))
  else
    match time_Parse RFC3339 (nth 1 record "") with
    | (_, Some err) =>
        Ret (zeroLogEntry, Some (errorString ("error parsing timestamp: " +:+ Error err)))
    | (timestamp, None) =>
        entryMap ← projectRecord fieldStore 0 record ∅;
        Ret (mkLogEntry entryMap timestamp, None)
    end.

(** The state of [processRecords] when it stops: what it returns (or that
    it panicked), the entries it has sent on the channel, in order, and the
    reader, which tells how far the stream was consumed. *)
Record Parsed : Type := mkParsed {
  parseResult : outcome (option error);
  entryChan : list LogEntry;
  readerAfter : csvReader
}.

(** The [for] loop of [processRecords]; each round reads one record, so the
    number of pending records plus one bounds the rounds. *)
Fixpoint processRecordsLoop `{GoLibrary} (rounds : nat) (csvReader : csvReader)
  (entryChan : list LogEntry) (fieldStore : Fields) : option Parsed :=
  match rounds with
  | O => None
  | S rounds' =>
      let '((record, err), csvReader) := Read csvReader in
      match err with
      | Some io_EOF => Some (mkParsed (Ret None) entryChan csvReader)
      | Some err =>
          Some (mkParsed (Ret (Some (errorString ("error reading a record: " +:+ Error err))))
                         entryChan csvReader)
      | None =>
          match recordToLogEntry record fieldStore with
          | Panic msg => Some (mkParsed (Panic msg) entryChan csvReader)
          | Ret (_, Some err) => Some (mkParsed (Ret (Some err)) entryChan csvReader)
          | Ret (entry, None) =>
              processRecordsLoop rounds' csvReader (entryChan ++ [entry]) fieldStore
          end
      end
  end.

Definition processRecords `{GoLibrary} (csvReader : csvReader) (entryChan : list LogEntry)
  (fieldStore : Fields) : option Parsed :=
  processRecordsLoop (S (List.length (pending csvReader))) csvReader entryChan fieldStore.

(** The accumulator goroutine: its local variables and the counter it
    shares with [ProcessLogs]. *)
Record Accumulator : Type := mkAccumulator {
  events : list InputLogEvent;
  currentBatchSize : Z;
  counter : SafeCounter
}.

(** The state the accumulator goroutine starts in. *)
Definition newAccumulator : Accumulator := mkAccumulator [] 0 (mkSafeCounter 0).

(** The body of [for entry := range entryChan]. *)
Definition accumulate `{GoLibrary} (lp : CloudWatchLogProcessor) (st : Accumulator * World)
  (entry : LogEntry) : Accumulator * World :=
  let '(acc, w) := st in
  let '(jsonData, err) := json_Marshal (Data entry) in
  let w := match err with
           | Some err => printAcc ("error marshaling log entry to JSON: " +:+ Error err) w
           | None => w
           end in
  let event := mkInputLogEvent jsonData (UnixMilli (EntryTimestamp entry)) in
  let eventSize := EstimateEventSize event in
  let '(acc, w) :=
    if (llen (events acc) >? 0)
       && ((currentBatchSize acc + eventSize >? maxBatchSize)
           || (llen (events acc) >=? maxBatchCount))
    then
      let '(err, w) := SendEventsToCloudWatch (cwClient lp) (logConfig lp) (events acc) w in
      let w := match err with
               | Some err => printAcc ("error sending events to CloudWatch: " +:+ Error err) w
               | None => w
               end in
      (mkAccumulator [] 0 (Increment (counter acc) (llen (events acc))), w)
    else (acc, w) in
  (mkAccumulator (events acc ++ [event]) (currentBatchSize acc + eventSize) (counter acc), w).

(** After the loop: [if len(events) > 0 { ... }]. *)
Definition flushRemaining `{GoLibrary} (lp : CloudWatchLogProcessor) (st : Accumulator * World)
  : Accumulator * World :=
  let '(acc, w) := st in
  if llen (events acc) >? 0 then
    let '(err, w) := SendEventsToCloudWatch (cwClient lp) (logConfig lp) (events acc) w in
    let w := match err with
             | Some err => printAcc ("error sending events to CloudWatch: " +:+ Error err) w
             | None => w
             end in
    (mkAccumulator (events acc) (currentBatchSize acc) (Increment (counter acc) (llen (events acc))), w)
  else (acc, w).

(** The accumulator goroutine on the entries the channel delivers until it
    is closed.  The channel is first-in first-out with one sender and one
    receiver, so the goroutine sees the entries in the order they were sent,
    whatever the interleaving. *)
Definition accumulator `{GoLibrary} (lp : CloudWatchLogProcessor) (entries : list LogEntry)
  (w : World) : Accumulator * World :=
  flushRemaining lp (fold_left (accumulate lp) entries (newAccumulator, w)).

(** [ProcessLogs].  The parser runs in the calling goroutine and the
    accumulator beside it; the model runs the parser first and hands the
    accumulator the entries sent on the channel.  When the parser panics the
    program dies; the parser has queued nothing by then (lemma
    [processRecords_panic_queued_nothing]), so the accumulator has had
    nothing to do.  [processRecords] always has rounds enough (lemma
    [processRecords_total]); the branch without a result is there for the
    types only. *)
Definition ProcessLogs `{GoLibrary} (lp : CloudWatchLogProcessor) (s3Object : S3ObjectInfo)
  (w : World) : outcome (option error) * World :=
  let w := logPrintf ("processing logs from s3://" +:+ Bucket s3Object +:+ "/" +:+ Key s3Object) w in
  let '(body, err) := GetObject (s3Client lp) s3Object in
  let w := recordGetObject s3Object w in
  match err with
  | Some err => (Ret (Some (errorString ("failed to get object: " +:+ Error err))), w)
  | None =>
      match processRecords (setComma (csv_NewReader body) " ") [] (fieldStore lp) with
      | None => (Panic "unreachable", w)
      | Some parsed =>
          match parseResult parsed with
          | Panic msg => (Panic msg, w)
          | Ret err =>
              let w := match err with
                       | Some err => printMain ("error processing records " +:+ Error err) w
                       | None => w
                       end in
              let '(acc, w) := accumulator lp (entryChan parsed) w in
              let w := printMain ("processed " +:+ itoa (Value (counter acc)) +:+ " log entries") w in
              (Ret None, w)
          end
      end
  end.

(** The AWS session: the clients [s3.New] and [cloudwatchlogs.New] return. *)
Record Session : Type := mkSession {
  sessS3 : S3Api;
  sessCloudWatch : CloudWatchLogsAPI
}.

Definition NewLogProcessor (sess : Session) (config : Config) (w : World)
  : option CloudWatchLogProcessor * option error * World :=
  let '(fieldStore, _) := NewFields (cfgFields config) in
  let logConfig := mkLogConfig (cfgLogGroupName config) (cfgLogStreamName config) in
  let cwClient := sessCloudWatch sess in
  match EnsureLogGroupAndLogStreamExists cwClient logConfig w with
  | (Some err, w) =>
      (None, Some (errorString ("error creating log group and stream: " +:+ Error err)), w)
  | (None, w) =>
      (Some (mkCloudWatchLogProcessor (sessS3 sess) cwClient fieldStore logConfig), None, w)
  end.

(** ** handler.go: the fan-out scheduler *)

(** The handler calls its processor through interface [LogProcessor]; the
    scheduler is studied for any behaviour of it, as the tests do with a
    mock: for each object, the error [ProcessLogs] returns. *)
Definition LogProcessor : Type := S3ObjectInfo -> option error.

Definition concurrency : Z := 10.

(** [processS3Objects] runs the calling goroutine, one goroutine per object
    and the goroutine that closes [errs] when the wait group is at zero.
    They are modelled as a transition system over the program points at
    which a goroutine touches shared state. *)

(** The calling goroutine. *)
Inductive MainPC : Type :=
| MRangeObjects (rest : list S3ObjectInfo)
    (* at the head of [for _, s3obj := range s3Objects] *)
| MAcquire (s3obj : S3ObjectInfo) (rest : list S3ObjectInfo)
    (* after [wg.Add(1)], at [concurrent <- 1] *)
| MGo (s3obj : S3ObjectInfo) (rest : list S3ObjectInfo)
    (* holding a permit, at [go func(s3obj S3ObjectInfo) {...}(s3obj)] *)
| MGoCloser
    (* after the loop, at [go func() { wg.Wait(); close(errs) }()] *)
| MRangeErrs
    (* at [for err := range errs] *)
| MReturned (err : option error).

(** The goroutine of one object. *)
Inductive TaskPC : Type :=
| TProcessLogs          (* at [err := h.lp.ProcessLogs(s3obj)] *)
| TSend (err : error)   (* at [errs <- fmt.Errorf(...)] *)
| TWgDone               (* deferred: at [wg.Done()] *)
| TRelease              (* deferred: at [<-concurrent] *)
| TExited.

(** The closing goroutine. *)
Inductive CloserPC : Type :=
| CNotStarted
| CWait                 (* at [wg.Wait()] *)
| CClose                (* at [close(errs)] *)
| CExited.

Record Sched : Type := mkSched {
  mainPC : MainPC;
  tasks : list (S3ObjectInfo * TaskPC);
  closer : CloserPC;
  wg : Z;                 (* the counter of the wait group *)
  concurrent : Z;         (* the number of values in the buffered channel *)
  errsClosed : bool
}.

Definition initSched (s3Objects : list S3ObjectInfo) : Sched :=
  mkSched (MRangeObjects s3Objects) [] CNotStarted 0 0 false.

(** What the scheduler of the run time picks next: a goroutine that can move
    on its own, or the meeting of the send of task [i] on the unbuffered
    [errs] with the receive of the calling goroutine. *)
Inductive Action : Type :=
| StepMain
| StepTask (i : nat)
| StepCloser
| Handoff (i : nat).

Definition taskError (s3obj : S3ObjectInfo) (err : error) : error :=
  errorString ("error processing logs for s3://" +:+ Bucket s3obj +:+ "/" +:+ Key s3obj
               +:+ ": " +:+ Error err).

Definition setTask (i : nat) (pc : TaskPC) (s : Sched) : list (S3ObjectInfo * TaskPC) :=
  match tasks s !! i with
  | Some (o, _) => <[i := (o, pc)]> (tasks s)
  | None => tasks s
  end.

(** One move; [None] when the chosen goroutine is blocked or has ended. *)
Definition step (lp : LogProcessor) (a : Action) (s : Sched) : option Sched :=
  match a with
  | StepMain =>
      match mainPC s with
      | MRangeObjects (s3obj :: rest) =>
          Some (mkSched (MAcquire s3obj rest) (tasks s) (closer s) (wg s + 1)
                        (concurrent s) (errsClosed s))
      | MRangeObjects [] =>
          Some (mkSched MGoCloser (tasks s) (closer s) (wg s) (concurrent s) (errsClosed s))
      | MAcquire s3obj rest =>
          if concurrent s <? concurrency then
            Some (mkSched (MGo s3obj rest) (tasks s) (closer s) (wg s)
                          (concurrent s + 1) (errsClosed s))
          else None
      | MGo s3obj rest =>
          Some (mkSched (MRangeObjects rest) (tasks s ++ [(s3obj, TProcessLogs)]) (closer s)
                        (wg s) (concurrent s) (errsClosed s))
      | MGoCloser =>
          Some (mkSched MRangeErrs (tasks s) CWait (wg s) (concurrent s) (errsClosed s))
      | MRangeErrs =>
          if errsClosed s then
            Some (mkSched (MReturned None) (tasks s) (closer s) (wg s) (concurrent s)
                          (errsClosed s))
          else None
      | MReturned _ => None
      end
  | StepTask i =>
      match tasks s !! i with
      | Some (s3obj, TProcessLogs) =>
          let pc := match lp s3obj with
                    | Some err => TSend (taskError s3obj err)
                    | None => TWgDone
                    end in
          Some (mkSched (mainPC s) (setTask i pc s) (closer s) (wg s) (concurrent s)
                        (errsClosed s))
      | Some (_, TWgDone) =>
          Some (mkSched (mainPC s) (setTask i TRelease s) (closer s) (wg s - 1)
                        (concurrent s) (errsClosed s))
      | Some (_, TRelease) =>
          if concurrent s >? 0 then
            Some (mkSched (mainPC s) (setTask i TExited s) (closer s) (wg s)
                          (concurrent s - 1) (errsClosed s))
          else None
      | Some (_, TSend _) | Some (_, TExited) | None => None
      end
  | StepCloser =>
      match closer s with
      | CWait =>
          if wg s =? 0 then
            Some (mkSched (mainPC s) (tasks s) CClose (wg s) (concurrent s) (errsClosed s))
          else None
      | CClose =>
          Some (mkSched (mainPC s) (tasks s) CExited (wg s) (concurrent s) true)
      | CNotStarted | CExited => None
      end
  | Handoff i =>
      match mainPC s, tasks s !! i with
      | MRangeErrs, Some (_, TSend err) =>
          if errsClosed s then None
          else
            (* [if err != nil { return err }]: the value sent is never nil *)
            Some (mkSched (MReturned (Some err)) (setTask i TWgDone s) (closer s) (wg s)
                          (concurrent s) (errsClosed s))
      | _, _ => None
      end
  end.

(** A run under a schedule; [None] when the schedule picks a move that is
    not possible. *)
Fixpoint run (lp : LogProcessor) (schedule : list Action) (s : Sched) : option Sched :=
  match schedule with
  | [] => Some s
  | a :: schedule' =>
      match step lp a s with
      | Some s' => run lp schedule' s'
      | None => None
      end
  end.

(** The goroutine of object [i] has run to its end. *)
Definition taskCompleted (i : nat) (s : Sched) : bool :=
  match tasks s !! i with
  | Some (_, TExited) => true
  | _ => false
  end.

(** The goroutine of object [i] is at its send on [errs]. *)
Definition taskSending (i : nat) (s : Sched) : bool :=
  match tasks s !! i with
  | Some (_, TSend _) => true
  | _ => false
  end.

(** [processS3Objects] has returned to its caller. *)
Definition returned (s : Sched) : option (option error) :=
  match mainPC s with
  | MReturned err => Some err
  | _ => None
  end.

(** ** Notions the properties are stated with *)

(** The event the accumulator makes of an entry. *)
Definition toEvent `{GoLibrary} (entry : LogEntry) : InputLogEvent :=
  mkInputLogEvent (json_Marshal (Data entry)).1 (UnixMilli (EntryTimestamp entry)).

(** The request that carries a batch, and the answer of the service to it
    in world [w]. *)
Definition request `{GoLibrary} (lp : CloudWatchLogProcessor) (batch : list InputLogEvent)
  : PutLogEventsInput :=
  mkPutLogEventsInput (sort_Slice byTimestamp batch)
    (lcLogGroupName (logConfig lp)) (lcLogStreamName (logConfig lp)).

Definition answer `{GoLibrary} (lp : CloudWatchLogProcessor) (w : World)
  (batch : list InputLogEvent) : option error :=
  PutLogEvents (cwClient lp) (map fst (cwRequests w)) (request lp batch).

(** The sum of the size estimates of a batch. *)
Definition sumSizes (batch : list InputLogEvent) : Z :=
  fold_right (fun e total => EstimateEventSize e + total) 0 batch.

(** The requests the log service received between [w] and [w'], with its
    answers. *)
Definition newRequests (w w' : World) : list (PutLogEventsInput * option error) :=
  skipn (List.length (cwRequests w)) (cwRequests w').

(** The batches sent between [w] and [w']. *)
Definition emitted (w w' : World) : list (list InputLogEvent) :=
  (fun r => LogEvents r.1) <$> newRequests w w'.

(** The number of events in the requests, and in those that were
    accepted. *)
Definition attemptedTotal (requests : list (PutLogEventsInput * option error)) : Z :=
  fold_right (fun r total => llen (LogEvents r.1) + total) 0 requests.

Definition succeededTotal (requests : list (PutLogEventsInput * option error)) : Z :=
  fold_right (fun r total =>
                match r.2 with
                | None => llen (LogEvents r.1) + total
                | Some _ => total
                end) 0 requests.

(** The timestamps of a batch never decrease. *)
Definition chronological (batch : list InputLogEvent) : Prop :=
  StronglySorted (fun a b => Timestamp a <= Timestamp b) batch.

(** The three bounds of the claim on a batch. *)
Definition withinLimits (batch : list InputLogEvent) : Prop :=
  sumSizes batch <= maxBatchSize /\ llen batch <= maxBatchCount /\ chronological batch.

(** The bounds the accumulator keeps: the size bound may fail for a batch
    of one event. *)
Definition withinLimitsOrAlone (batch : list InputLogEvent) : Prop :=
  (sumSizes batch <= maxBatchSize \/ llen batch = 1)
  /\ llen batch <= maxBatchCount /\ chronological batch.

(** The bounds on a batch before it is sorted. *)
Definition boundedOrAlone (batch : list InputLogEvent) : Prop :=
  (sumSizes batch <= maxBatchSize \/ llen batch = 1) /\ llen batch <= maxBatchCount.

(** The loop of the accumulator goroutine, before the last flush. *)
Definition accumulatorLoop `{GoLibrary} (lp : CloudWatchLogProcessor) (entries : list LogEntry)
  (st : Accumulator * World) : Accumulator * World :=
  fold_left (accumulate lp) entries st.

(** [if err != nil { fmt.Println(text, err) }] in the accumulator
    goroutine. *)
Definition printlnAcc (text : string) (err : option error) (w : World) : World :=
  match err with
  | Some err => printAcc (text +:+ Error err) w
  | None => w
  end.

(** The lines that report the refused requests, in order. *)
Definition sendErrorLines (requests : list (PutLogEventsInput * option error)) : list string :=
  (fun err => "error sending events to CloudWatch: " +:+ Error err) <$> omap snd requests.

(** World [w'] is [w] with more requests to the log service and more lines
    of the accumulator goroutine, and nothing else. *)
Definition extends (w w' : World) (new : list (PutLogEventsInput * option error))
  (lines : list string) : Prop :=
  s3Requests w' = s3Requests w /\ logged w' = logged w /\ printedMain w' = printedMain w
  /\ cwRequests w' = cwRequests w ++ new /\ printedAcc w' = printedAcc w ++ lines.

(** The test that opens the [if] of the accumulator loop. *)
Definition flushNeeded (acc : Accumulator) (eventSize : Z) : bool :=
  (llen (events acc) >? 0)
  && ((currentBatchSize acc + eventSize >? maxBatchSize)
      || (llen (events acc) >=? maxBatchCount)).

(** The batches the loop cuts a sequence of events into, from a pending
    batch and its size, before they are sorted. *)
Fixpoint batches (pendingEvents : list InputLogEvent) (size : Z) (evs : list InputLogEvent)
  : list (list InputLogEvent) :=
  match evs with
  | [] => if llen pendingEvents >? 0 then [pendingEvents] else []
  | e :: rest =>
      if (llen pendingEvents >? 0)
         && ((size + EstimateEventSize e >? maxBatchSize)
             || (llen pendingEvents >=? maxBatchCount))
      then pendingEvents :: batches [e] (EstimateEventSize e) rest
      else batches (pendingEvents ++ [e]) (size + EstimateEventSize e) rest
  end.

(** A record the reader hands over without error and that
    [recordToLogEntry] turns into [entry]. *)
Definition parsesTo `{GoLibrary} (fieldStore : Fields) (raw : rawRecord) (entry : LogEntry)
  : Prop :=
  rawErr raw = None /\ recordToLogEntry (rawFields raw) fieldStore = Ret (entry, None).

(** ** A library to run the examples with *)

(** An instance of [GoLibrary] for the closed examples: an insertion sort
    for [sort.Slice], a [json.Marshal] for keys and values that need no
    escaping, and a [time.Parse] for the UTC form of RFC 3339,
    [2006-01-02T15:04:05Z] with an optional fraction of the second. *)

Fixpoint insertSorted {A : Type} (less : A -> A -> bool) (x : A) (l : list A) : list A :=
  match l with
  | [] => [x]
  | y :: l' => if less y x then y :: insertSorted less x l' else x :: l
  end.

Definition insertionSort {A : Type} (less : A -> A -> bool) (l : list A) : list A :=
  fold_right (insertSorted less) [] l.

Definition quote : string := String "034" "".

Definition plainMember (kv : string * string) : string :=
  quote +:+ kv.1 +:+ quote +:+ ":" +:+ quote +:+ kv.2 +:+ quote.

Definition plainMarshal (m : gmap string string) : string * option error :=
  ("{" +:+ String.concat "," (plainMember <$> map_to_list m) +:+ "}", None).

(** [n] decimal digits at the head of the bytes. *)
Fixpoint digits (n : nat) (value : Z) (bs : list ascii) : option (Z * list ascii) :=
  match n with
  | O => Some (value, bs)
  | S n' =>
      match bs with
      | c :: rest =>
          match Ascii.is_nat c with
          | Some d => digits n' (10 * value + Z.of_nat d) rest
          | None => None
          end
      | [] => None
      end
  end.

Definition expect (c : ascii) (bs : list ascii) : option (list ascii) :=
  match bs with
  | d :: rest => if Ascii.eqb c d then Some rest else None
  | [] => None
  end.

(** The fraction of a second, in nanoseconds: the digits that follow the
    point, of which the first nine count. *)
Fixpoint fraction (weight : Z) (bs : list ascii) : option (Z * list ascii) :=
  match bs with
  | c :: rest =>
      match Ascii.is_nat c with
      | Some d =>
          match fraction (weight / 10) rest with
          | Some (ns, rest') => Some (Z.of_nat d * weight + ns, rest')
          | None => None
          end
      | None => Some (0, bs)
      end
  | [] => Some (0, [])
  end.

(** Days from 1970-01-01 to a date of the proleptic Gregorian calendar. *)
Definition daysFromCivil (y m d : Z) : Z :=
  let y := if m <=? 2 then y - 1 else y in
  let era := y / 400 in
  let yoe := y - era * 400 in
  let doy := (153 * (if m >? 2 then m - 3 else m + 9) + 2) / 5 + d - 1 in
  let doe := yoe * 365 + yoe / 4 - yoe / 100 + doy in
  era * 146097 + doe - 719468.

Definition parseUTC (value : string) : option Time :=
  '(year, bs) ← digits 4 0 (list_ascii_of_string value);
  bs ← expect "-" bs;
  '(month, bs) ← digits 2 0 bs;
  bs ← expect "-" bs;
  '(day, bs) ← digits 2 0 bs;
  bs ← expect "T" bs;
  '(hour, bs) ← digits 2 0 bs;
  bs ← expect ":" bs;
  '(minute, bs) ← digits 2 0 bs;
  bs ← expect ":" bs;
  '(second, bs) ← digits 2 0 bs;
  '(ns, bs) ← match bs with
               | "."%char :: (c :: _) as rest =>
                   if bool_decide (is_Some (Ascii.is_nat c)) then fraction 100000000 rest else None
               | _ => Some (0, bs)
               end;
  match bs with
  | ["Z"%char] =>
      if (1 <=? month) && (month <=? 12) && (1 <=? day) && (day <=? 31)
         && (hour <? 24) && (minute <? 60) && (second <? 60)
      then Some (mkTime (daysFromCivil year month day * 86400
                         + hour * 3600 + minute * 60 + second) ns)
      else None
  | _ => None
  end.

Definition plainParse (layout value : string) : Time * option error :=
  match parseUTC value with
  | Some t => (t, None)
  | None => (zeroTime, Some (errorString ("parsing time " +:+ quote +:+ value +:+ quote)))
  end.

(** A string of [n] bytes. *)
Definition longString (n : positive) : string := Pos.iter (String "a") "" n.

(** A store with no object, a log service that accepts every request, and
    one that refuses every request. *)
Definition noObjects : S3Api :=
  mkS3Api (fun _ => ([], Some (errorString "NoSuchKey: The specified key does not exist."))).

Definition acceptingService : CloudWatchLogsAPI :=
  mkCloudWatchLogsAPI (fun _ _ => None) (fun _ => None) (fun _ _ => None)
    ([], None) (fun _ => ([], None)).

Definition refusingService : CloudWatchLogsAPI :=
  mkCloudWatchLogsAPI (fun _ _ => Some (errorString "ThrottlingException: Rate exceeded"))
    (fun _ => None) (fun _ _ => None) ([], None) (fun _ => ([], None)).

Definition testLogConfig : LogConfig := mkLogConfig "test-log-group" "test-log-stream".

Definition processorWith (s3 : S3Api) (cw : CloudWatchLogsAPI) : CloudWatchLogProcessor :=
  mkCloudWatchLogProcessor s3 cw (NewFields "").1 testLogConfig.

(** The record of the tests of the repository, the same without its last
    field, and the lines of a stream that carry them. *)
Definition sampleRecord : list string :=
  [ "https"; "2024-03-21T16:10:26.071854Z"; "app/example-prod-lb/xxxxxxx4";
    "192.0.2.104:36217"; "10.0.0.24:3003"; "0.004"; "0.024"; "0.003"; "203"; "203";
    "1694"; "10783";
    "PUT https://example.com:443/api/modify?user_ids=xxxxx4&ref_date= HTTP/1.1";
    "axios/1.6.5"; "ECDHE-RSA-AES256-GCM-SHA384"; "TLSv1.3";
    "arn:aws:elasticloadbalancing:xx-west-1:987654321098:targetgroup/example-prod-tg/xxxxxxxx4";
    "Root=1-xxxxxx4-xxxxxxxxxxxxxxxxxxxxxxxx"; "example.com";
    "arn:aws:acm:xx-west-1:987654321098:certificate/aaaaaaaa-aaaa-aaaa-aaaa-aaaaaaaaaaaa";
    "203"; "2024-03-21T16:10:26.061854Z"; "cache"; "-"; "-"; "10.0.0.24:3003"; "203";
    "-"; "-"; "TID_a1b2c3d4e5f67890abcdef1234567890" ].

Definition sampleLine (line : Z) : rawRecord := mkRawRecord line sampleRecord None.

Definition shortLine (line : Z) : rawRecord :=
  mkRawRecord line (removelast sampleRecord) None.

(** A store whose every object is the given stream of records. *)
Definition storeOf (body : list rawRecord) : S3Api := mkS3Api (fun _ => (body, None)).

(** A log service on which the group and the stream of the tests exist. *)
Definition readyService : CloudWatchLogsAPI :=
  mkCloudWatchLogsAPI (fun _ _ => None) (fun _ => None) (fun _ _ => None)
    (["test-log-group"], None) (fun _ => (["test-log-stream"], None)).

Definition testObject : S3ObjectInfo := mkS3ObjectInfo "test-bucket" "test-key".

(** A processor that fails on every object, two objects, and a schedule of
    [processS3Objects] on them: the caller launches both goroutines and the
    closing one, both goroutines get their error and reach their send, and
    the caller receives from the first. *)
Definition failingProcessor : LogProcessor :=
  fun _ => Some (errorString "failed to get object: NoSuchKey").

Definition object1 : S3ObjectInfo := mkS3ObjectInfo "test-bucket" "key1".
Definition object2 : S3ObjectInfo := mkS3ObjectInfo "test-bucket" "key2".

Definition firstErrorSchedule : list Action :=
  [ StepMain; StepMain; StepMain; StepMain; StepMain; StepMain; StepMain; StepMain;
    StepTask 0; StepTask 1; Handoff 0 ].

(** Eleven objects, and the schedule on which the caller launches ten
    goroutines and asks for an eleventh permit while each of the ten gets its
    error and reaches its send. *)
Definition elevenObjects : list S3ObjectInfo := replicate 11 object1.

Definition elevenSchedule : list Action :=
  replicate 31 StepMain ++ (StepTask <$> seq 0 10).

(** The error is the one [processS3Objects] makes of the failure of
    [ProcessLogs] on one of the objects; its text names the object. *)
Definition namesObject (lp : LogProcessor) (s3Objects : list S3ObjectInfo) (e : error)
  : Prop :=
  exists s3obj err,
    s3obj ∈ s3Objects /\ lp s3obj = Some err
    /\ e = errorString ("error processing logs for s3://" +:+ Bucket s3obj +:+ "/"
                        +:+ Key s3obj +:+ ": " +:+ Error err).

(** What holds of every state of a run on [s3Objects]: the objects the
    goroutines work on are among them, and an error that is being sent or
    has been returned names one of them. *)
Definition taskInv (lp : LogProcessor) (s3Objects : list S3ObjectInfo)
  (task : S3ObjectInfo * TaskPC) : Prop :=
  task.1 ∈ s3Objects
  /\ match task.2 with
     | TSend e => namesObject lp s3Objects e
     | _ => True
     end.

Definition schedInv (lp : LogProcessor) (s3Objects : list S3ObjectInfo) (s : Sched) : Prop :=
  Forall (taskInv lp s3Objects) (tasks s)
  /\ match mainPC s with
     | MRangeObjects rest => rest ⊆ s3Objects
     | MAcquire s3obj rest | MGo s3obj rest => s3obj ∈ s3Objects /\ rest ⊆ s3Objects
     | MReturned (Some e) => namesObject lp s3Objects e
     | _ => True
     end.

(** No goroutine can move. *)
Definition deadlocked (lp : LogProcessor) (s : Sched) : Prop :=
  forall a, step lp a s = None.

(** The entry of the record of the tests under the selection of all the
    columns. *)
Definition sampleEntry : LogEntry :=
  mkLogEntry (list_to_map (zip fieldNames sampleRecord)) (mkTime 1711037426 71854000).

(** An entry whose one value has [n] bytes, and a small entry. *)
Definition entryOfSize (n : positive) : LogEntry :=
  mkLogEntry {[ "request" := longString n ]} (mkTime 1711037426 71854000).

Definition smallEntry : LogEntry :=
  mkLogEntry {[ "type" := "https" ]} (mkTime 1711037426 71854000).

(** ** More of the sources *)

(** fields_test.go: the index of a column name, [-1] when there is none. *)
Fixpoint getFieldIndexFrom (i : Z) (names : list string) (fieldName : string) : Z :=
  match names with
  | [] => -1
  | name :: rest =>
      if String.eqb name fieldName then i else getFieldIndexFrom (i + 1) rest fieldName
  end.

Definition getFieldIndex (fieldName : string) : Z :=
  getFieldIndexFrom 0 fieldNames fieldName.

(** config.go: the environment is a map; [os.Getenv] reads a variable that
    is not set as the empty string. *)
Definition Getenv (env : gmap string string) (key : string) : string :=
  default "" (env !! key).

Definition LoadConfigFromEnv (env : gmap string string) : Config * option error :=
  let logGroupName := Getenv env "LOG_GROUP_NAME" in
  if String.eqb logGroupName "" then
    (mkConfig "" "" "", Some (errorString "environment variable LOG_GROUP_NAME is required"))
  else
    let logStreamName := Getenv env "LOG_STREAM_NAME" in
    if String.eqb logStreamName "" then
      (mkConfig "" "" "", Some (errorString "environment variable LOG_STREAM_NAME is required"))
    else
      let fields := Getenv env "FIELDS" in
      (mkConfig logGroupName logStreamName fields, None).

(** handler.go: the listing of [HandleS3URL].  A page of [ListObjectsV2]:
    the keys of its [Contents], [IsTruncated] (a pointer, [None] when nil)
    and the token of the next page. *)
Record ListObjectsV2Input : Type := mkListObjectsV2Input {
  liBucket : string;
  liPrefix : string;
  liContinuationToken : option string
}.

Record ListObjectsV2Output : Type := mkListObjectsV2Output {
  Contents : list string;
  IsTruncated : option bool;
  NextContinuationToken : option string
}.

(** [ListObjectsV2] of the client of the handler. *)
Definition ListObjectsV2API : Type :=
  ListObjectsV2Input -> ListObjectsV2Output * option error.

(** The [for] loop of [HandleS3URL]: one request per round, until a page
    that is not truncated or an error.  Nothing in the code bounds the
    rounds; [None] is a listing still truncated after [pages] pages. *)
Fixpoint listObjects (pages : nat) (ListObjectsV2 : ListObjectsV2API)
  (bucket prefix : string) (continuationToken : option string)
  (s3Objects : list S3ObjectInfo) : option (list S3ObjectInfo * option error) :=
  match pages with
  | O => None
  | S pages' =>
      match ListObjectsV2 (mkListObjectsV2Input bucket prefix continuationToken) with
      | (_, Some err) =>
          Some ([], Some (errorString ("failed to list objects: " +:+ Error err)))
      | (resp, None) =>
          let s3Objects := s3Objects ++ (mkS3ObjectInfo bucket <$> Contents resp) in
          match IsTruncated resp with
          | Some true =>
              listObjects pages' ListObjectsV2 bucket prefix (NextContinuationToken resp)
                s3Objects
          | Some false | None => Some (s3Objects, None)
          end
      end
  end.

(** [HandleS3URL] up to its last line: the error it returns before any
    processing, or the objects it hands to [processS3Objects]. *)
Definition HandleS3URL (pages : nat) (ListObjectsV2 : ListObjectsV2API) (url : string)
  : option (list S3ObjectInfo * option error) :=
  match ParseS3URL url with
  | (_, _, Some err) =>
      Some ([], Some (errorString ("failed to parse S3 URL: " +:+ Error err)))
  | (bucket, prefix, None) => listObjects pages ListObjectsV2 bucket prefix None []
  end.

(** The service serves [pages] from [token] on: each page but the last is
    truncated and gives the token of the next. *)
Inductive serves (ListObjectsV2 : ListObjectsV2API) (bucket prefix : string)
  : option string -> list ListObjectsV2Output -> Prop :=
| serves_last (token : option string) (resp : ListObjectsV2Output) :
    ListObjectsV2 (mkListObjectsV2Input bucket prefix token) = (resp, None) ->
    IsTruncated resp <> Some true ->
    serves ListObjectsV2 bucket prefix token [resp]
| serves_more (token : option string) (resp : ListObjectsV2Output)
    (rest : list ListObjectsV2Output) :
    ListObjectsV2 (mkListObjectsV2Input bucket prefix token) = (resp, None) ->
    IsTruncated resp = Some true ->
    serves ListObjectsV2 bucket prefix (NextContinuationToken resp) rest ->
    serves ListObjectsV2 bucket prefix token (resp :: rest).

(** The service serves [pages], all truncated, from [token] on, and then
    fails with [err]. *)
Inductive failsAfter (ListObjectsV2 : ListObjectsV2API) (bucket prefix : string)
  : option string -> list ListObjectsV2Output -> error -> Prop :=
| failsAfter_now (token : option string) (resp : ListObjectsV2Output) (err : error) :
    ListObjectsV2 (mkListObjectsV2Input bucket prefix token) = (resp, Some err) ->
    failsAfter ListObjectsV2 bucket prefix token [] err
| failsAfter_more (token : option string) (resp : ListObjectsV2Output)
    (rest : list ListObjectsV2Output) (err : error) :
    ListObjectsV2 (mkListObjectsV2Input bucket prefix token) = (resp, None) ->
    IsTruncated resp = Some true ->
    failsAfter ListObjectsV2 bucket prefix (NextContinuationToken resp) rest err ->
    failsAfter ListObjectsV2 bucket prefix token (resp :: rest) err.

(** The objects of the pages, in order. *)
Definition objectsOf (bucket : string) (pages : list ListObjectsV2Output)
  : list S3ObjectInfo :=
  pages ≫= (fun resp => mkS3ObjectInfo bucket <$> Contents resp).

(** A service of two pages for the examples. *)
Definition twoPages : ListObjectsV2API :=
  fun input =>
    match liContinuationToken input with
    | None => (mkListObjectsV2Output ["logs/a.gz"; "logs/b.gz"] (Some true) (Some "t1"), None)
    | Some _ => (mkListObjectsV2Output ["logs/c.gz"] None None, None)
    end.

(** The moves of [step], one by one: the state after a move, given what
    the move needs of the state before. *)
Inductive Move (lp : LogProcessor) (s : Sched) : Sched -> Prop :=
| Move_add (s3obj : S3ObjectInfo) (rest : list S3ObjectInfo) :
    mainPC s = MRangeObjects (s3obj :: rest) ->
    Move lp s (mkSched (MAcquire s3obj rest) (tasks s) (closer s) (wg s + 1)
                 (concurrent s) (errsClosed s))
| Move_end_of_loop :
    mainPC s = MRangeObjects [] ->
    Move lp s (mkSched MGoCloser (tasks s) (closer s) (wg s) (concurrent s) (errsClosed s))
| Move_acquire (s3obj : S3ObjectInfo) (rest : list S3ObjectInfo) :
    mainPC s = MAcquire s3obj rest -> concurrent s < concurrency ->
    Move lp s (mkSched (MGo s3obj rest) (tasks s) (closer s) (wg s) (concurrent s + 1)
                 (errsClosed s))
| Move_go (s3obj : S3ObjectInfo) (rest : list S3ObjectInfo) :
    mainPC s = MGo s3obj rest ->
    Move lp s (mkSched (MRangeObjects rest) (tasks s ++ [(s3obj, TProcessLogs)]) (closer s)
                 (wg s) (concurrent s) (errsClosed s))
| Move_go_closer :
    mainPC s = MGoCloser ->
    Move lp s (mkSched MRangeErrs (tasks s) CWait (wg s) (concurrent s) (errsClosed s))
| Move_return_nil :
    mainPC s = MRangeErrs -> errsClosed s = true ->
    Move lp s (mkSched (MReturned None) (tasks s) (closer s) (wg s) (concurrent s)
                 (errsClosed s))
| Move_process (i : nat) (s3obj : S3ObjectInfo) :
    tasks s !! i = Some (s3obj, TProcessLogs) ->
    Move lp s (mkSched (mainPC s)
                 (<[i := (s3obj, match lp s3obj with
                                 | Some err => TSend (taskError s3obj err)
                                 | None => TWgDone
                                 end)]> (tasks s))
                 (closer s) (wg s) (concurrent s) (errsClosed s))
| Move_wg_done (i : nat) (s3obj : S3ObjectInfo) :
    tasks s !! i = Some (s3obj, TWgDone) ->
    Move lp s (mkSched (mainPC s) (<[i := (s3obj, TRelease)]> (tasks s)) (closer s)
                 (wg s - 1) (concurrent s) (errsClosed s))
| Move_release (i : nat) (s3obj : S3ObjectInfo) :
    tasks s !! i = Some (s3obj, TRelease) -> concurrent s > 0 ->
    Move lp s (mkSched (mainPC s) (<[i := (s3obj, TExited)]> (tasks s)) (closer s)
                 (wg s) (concurrent s - 1) (errsClosed s))
| Move_waited :
    closer s = CWait -> wg s = 0 ->
    Move lp s (mkSched (mainPC s) (tasks s) CClose (wg s) (concurrent s) (errsClosed s))
| Move_close :
    closer s = CClose ->
    Move lp s (mkSched (mainPC s) (tasks s) CExited (wg s) (concurrent s) true)
| Move_handoff (i : nat) (s3obj : S3ObjectInfo) (err : error) :
    mainPC s = MRangeErrs -> tasks s !! i = Some (s3obj, TSend err) ->
    errsClosed s = false ->
    Move lp s (mkSched (MReturned (Some err)) (<[i := (s3obj, TWgDone)]> (tasks s))
                 (closer s) (wg s) (concurrent s) (errsClosed s)).

(** Sums over the goroutines of the objects. *)
Definition sumTasks (f : TaskPC -> Z) (l : list (S3ObjectInfo * TaskPC)) : Z :=
  fold_right (fun t n => f t.2 + n) 0 l.

Definition countTasks (P : TaskPC -> bool) (l : list (S3ObjectInfo * TaskPC)) : Z :=
  sumTasks (fun pc => if P pc then 1 else 0) l.

(** The goroutine holds a permit: it was launched and has not received from
    [concurrent] yet. *)
Definition holdsPermit (pc : TaskPC) : bool :=
  match pc with
  | TExited => false
  | _ => true
  end.

(** The goroutine has not called [wg.Done] yet. *)
Definition owesDone (pc : TaskPC) : bool :=
  match pc with
  | TProcessLogs | TSend _ | TWgDone => true
  | _ => false
  end.

(** The goroutine has not returned from [ProcessLogs] yet. *)
Definition inProcessLogs (pc : TaskPC) : bool :=
  match pc with
  | TProcessLogs => true
  | _ => false
  end.

(** The goroutine is past its [ProcessLogs] and its send, if it had one. *)
Definition pastSend (pc : TaskPC) : bool :=
  match pc with
  | TWgDone | TRelease | TExited => true
  | _ => false
  end.

(** What the caller has taken for the goroutine it is about to launch: a
    permit, a unit of the wait group. *)
Definition mainHolds (pc : MainPC) : Z :=
  match pc with
  | MGo _ _ => 1
  | _ => 0
  end.

Definition mainAdded (pc : MainPC) : Z :=
  match pc with
  | MAcquire _ _ | MGo _ _ => 1
  | _ => 0
  end.

(** The objects the caller has still to launch. *)
Definition mainRest (pc : MainPC) : list S3ObjectInfo :=
  match pc with
  | MRangeObjects rest => rest
  | MAcquire s3obj rest | MGo s3obj rest => s3obj :: rest
  | _ => []
  end.

(** The caller is still before [for err := range errs]. *)
Definition mainLaunching (pc : MainPC) : bool :=
  match pc with
  | MRangeObjects _ | MAcquire _ _ | MGo _ _ | MGoCloser => true
  | _ => false
  end.

(** The moves a goroutine, the caller and the closing goroutine have left at
    most, and those of a state. *)
Definition taskRank (pc : TaskPC) : Z :=
  match pc with
  | TProcessLogs => 4
  | TSend _ => 3
  | TWgDone => 2
  | TRelease => 1
  | TExited => 0
  end.

Definition mainRank (pc : MainPC) : Z :=
  match pc with
  | MRangeObjects rest => 7 * llen rest + 5
  | MAcquire _ rest => 7 * llen rest + 11
  | MGo _ rest => 7 * llen rest + 10
  | MGoCloser => 4
  | MRangeErrs => 1
  | MReturned _ => 0
  end.

Definition closerRank (pc : CloserPC) : Z :=
  match pc with
  | CNotStarted | CWait => 2
  | CClose => 1
  | CExited => 0
  end.

Definition movesLeft (s : Sched) : Z :=
  mainRank (mainPC s) + sumTasks taskRank (tasks s) + closerRank (closer s).

(** What the counters of a state of a run stand for. *)
Definition countInv (s : Sched) : Prop :=
  concurrent s = countTasks holdsPermit (tasks s) + mainHolds (mainPC s)
  /\ wg s = countTasks owesDone (tasks s) + mainAdded (mainPC s)
  /\ concurrent s <= concurrency.

(** How the closing goroutine, the caller and [errs] stand to each other in
    a state of a run. *)
Definition closerInv (s : Sched) : Prop :=
  (closer s = CNotStarted <-> mainLaunching (mainPC s) = true)
  /\ (errsClosed s = true <-> closer s = CExited)
  /\ (closer s = CClose \/ closer s = CExited -> wg s = 0)
  /\ (mainPC s = MReturned None -> errsClosed s = true).

(** The goroutines launched and the objects left make up the objects of the
    call, in order; and a goroutine is past its send only if [ProcessLogs]
    returned nil for its object or the caller received its error. *)
Definition objectsInv (lp : LogProcessor) (s3Objects : list S3ObjectInfo) (s : Sched)
  : Prop :=
  (fst <$> tasks s) ++ mainRest (mainPC s) = s3Objects
  /\ Forall (fun t => pastSend t.2 = true ->
                      lp t.1 = None \/ exists e, mainPC s = MReturned (Some e))
       (tasks s).

(** The lengths of the batches of [n] events when only the count closes a
    batch: full batches, and the rest if there is one. *)
Definition chunkLengths (n : Z) : list Z :=
  replicate (Z.to_nat (n / maxBatchCount)) maxBatchCount
  ++ (if n mod maxBatchCount =? 0 then [] else [n mod maxBatchCount]).

(** An estimate so small that 10,000 events of it fit in a batch. *)
Definition smallSize : Z := maxBatchSize / maxBatchCount.

(** Batch [b] was closed for a reason: it was full by count, or an event of
    the batch [b'] that follows would have taken it over the size limit. *)
Definition closedBy (b b' : list InputLogEvent) : Prop :=
  llen b = maxBatchCount
  \/ exists e, e ∈ b' /\ sumSizes b + EstimateEventSize e > maxBatchSize.

(** The same before the batches are sorted: the event is the first of
    [b']. *)
Definition cutBy (b b' : list InputLogEvent) : Prop :=
  exists e rest,
    b' = e :: rest
    /\ (sumSizes b + EstimateEventSize e > maxBatchSize \/ llen b >= maxBatchCount).

(** Every two neighbours of a list are related. *)
Fixpoint chained {A : Type} (R : A -> A -> Prop) (l : list A) : Prop :=
  match l with
  | x :: (y :: _) as rest => R x y /\ chained R rest
  | _ => True
  end.

(** A line whose second field is no RFC 3339 timestamp, and a line at which
    the decompression ends before the stream does. *)
Definition undatedLine (line : Z) : rawRecord :=
  mkRawRecord line (<[1%nat := "21/Mar/2024:16:10:26 +0000"]> sampleRecord) None.

Definition truncatedLine (line : Z) : rawRecord :=
  mkRawRecord line [] (Some (errorString "unexpected EOF")).

(** A service whose second page fails. *)
Definition secondPageFails : ListObjectsV2API :=
  fun input =>
    match liContinuationToken input with
    | None => (mkListObjectsV2Output ["logs/a.gz"; "logs/b.gz"] (Some true) (Some "t1"), None)
    | Some _ => (mkListObjectsV2Output [] None None, Some (errorString "SlowDown"))
    end.

(** Schedules used as examples: one object served to the end, and ten
    goroutines launched out of eleven objects. *)
Definition servingProcessor : LogProcessor := fun _ => None.

Definition oneObjectSchedule : list Action :=
  [ StepMain; StepMain; StepMain; StepMain; StepMain;
    StepTask 0; StepTask 0; StepTask 0; StepCloser; StepCloser; StepMain ].

Definition tenLaunched : list Action := replicate 30 StepMain.

(** * Properties *)

(** ** Sanity checks of the string helpers *)

Example TrimSpace_tabs : strings.TrimSpace "  time	 " = "time".
Proof. reflexivity. Qed.

Example TrimSpace_nbsp :
  strings.TrimSpace (String "194" (String "160" "elb")) = "elb"
  /\ strings.TrimSpace (String "e" (String "226" (String "128" (String "131" "")))) = "e".
Proof. split; reflexivity. Qed.

Example Split_commas : strings.Split "type, time,,elb" "," = ["type"; " time"; ""; "elb"].
Proof. reflexivity. Qed.

Example Index_first : strings.Index "mybucket/my/key" "/" = 8 /\ strings.Index "mybucket" "/" = -1.
Proof. split; reflexivity. Qed.

Example itoa_decimal : itoa 30 = "30" /\ itoa (-1) = "-1" /\ itoa 0 = "0".
Proof. repeat split; reflexivity. Qed.

(** ** Facts about the string helpers *)

Section StringFacts.

Implicit Types s p r : string.

Lemma append_cons c p r : String c p +:+ r = String c (p +:+ r).
Proof. reflexivity. Qed.

Lemma HasPrefix_app p r : strings.HasPrefix (p +:+ r) p = true.
Proof.
  induction p as [|c p IH]; simpl; [done|].
  by rewrite Ascii.eqb_refl.
Qed.

Lemma drop_app p r : strings.drop (String.length p) (p +:+ r) = r.
Proof. induction p as [|c p IH]; simpl; [by destruct r|done]. Qed.

Lemma HasPrefix_split s p :
  strings.HasPrefix s p = true -> s = p +:+ strings.drop (String.length p) s.
Proof.
  revert s. induction p as [|c p IH]; intros s Hp; simpl in *.
  - by destruct s.
  - destruct s as [|d s]; [done|].
    destruct (Ascii.eqb_spec d c) as [->|]; [|done].
    simpl. rewrite append_cons. f_equal. by apply IH.
Qed.

Lemma TrimPrefix_app p r : strings.TrimPrefix (p +:+ r) p = r.
Proof. unfold strings.TrimPrefix. by rewrite HasPrefix_app, drop_app. Qed.

Lemma Index_byte_ge c s : -1 <= strings.Index s (String c "").
Proof.
  induction s as [|d s IH]; simpl; [lia|].
  destruct (Ascii.eqb d c); [lia|].
  destruct (Z.ltb_spec (strings.Index s (String c "")) 0); lia.
Qed.

Lemma Index_byte_absent c s :
  strings.Index s (String c "") = -1 <-> ~ occurs c s.
Proof.
  unfold occurs. induction s as [|d s IH]; simpl.
  - split; [intros _ []|done].
  - destruct (Ascii.eqb_spec d c) as [->|Hne].
    + split; [lia|]. intros H. destruct H. by left.
    + pose proof (Index_byte_ge c s).
      destruct (Z.ltb_spec (strings.Index s (String c "")) 0) as [Hlt|Hge].
      * split; [|done]. intros _ [?|Hin]; [done|].
        apply IH; [lia|done].
      * split; [lia|]. intros Hno. exfalso.
        assert (strings.Index s (String c "") = -1); [|lia].
        apply IH. intros Hin. apply Hno. by right.
Qed.

Lemma Index_byte_found c s k :
  0 <= k -> strings.Index s (String c "") = k ->
  s = strings.take (Z.to_nat k) s +:+ String c (strings.drop (Z.to_nat (k + 1)) s)
  /\ ~ occurs c (strings.take (Z.to_nat k) s).
Proof.
  unfold occurs. revert k. induction s as [|d s IH]; intros k Hk; simpl.
  - lia.
  - destruct (Ascii.eqb_spec d c) as [->|Hne].
    + intros <-. split; [reflexivity|simpl; tauto].
    + destruct (Z.ltb_spec (strings.Index s (String c "")) 0) as [Hlt|Hge]; [lia|].
      intros Hi.
      destruct (IH (k - 1)) as [Heq Hno]; [lia|lia|].
      replace (Z.to_nat k) with (S (Z.to_nat (k - 1))) by lia.
      replace (Z.to_nat (k + 1)) with (S (Z.to_nat (k - 1 + 1))) by lia.
      simpl. rewrite append_cons. split; [by f_equal|].
      intros [?|Hin]; [done|by apply Hno].
Qed.

Lemma Index_byte_first c b r :
  ~ occurs c b -> strings.Index (b +:+ String c r) (String c "") = len b.
Proof.
  unfold occurs, len. induction b as [|d b IH]; intros Hno;
    [change ("" +:+ String c r) with (String c r)|rewrite append_cons]; simpl.
  - by rewrite Ascii.eqb_refl.
  - destruct (Ascii.eqb_spec d c) as [->|Hne].
    + destruct Hno. by left.
    + rewrite IH; [|intros Hin; apply Hno; by right].
      destruct (Z.ltb_spec (Z.of_nat (String.length b)) 0); lia.
Qed.

Lemma take_app b r : strings.take (String.length b) (b +:+ r) = b.
Proof.
  induction b as [|d b IH]; [by destruct r|].
  rewrite append_cons. simpl. by f_equal.
Qed.

End StringFacts.

(** ** config.go: [ParseS3URL] *)

Section ParseS3URLFacts.

Lemma ParseS3URL_unprefixed url :
  strings.HasPrefix url "s3://" = false ->
  ParseS3URL url = ("", "", Some errMissingPrefix).
Proof. intros Hp. unfold ParseS3URL. by rewrite Hp. Qed.

Lemma ParseS3URL_prefixed rest :
  ParseS3URL ("s3://" +:+ rest) =
  let splitPos := strings.Index rest "/" in
  if splitPos =? -1 then ("", "", Some errNoSlash)
  else (strings.take (Z.to_nat splitPos) rest,
        strings.drop (Z.to_nat (splitPos + 1)) rest, None).
Proof.
  unfold ParseS3URL. by rewrite HasPrefix_app, TrimPrefix_app.
Qed.

Lemma ParseS3URL_ok_shape bucket prefix :
  ~ occurs "/" bucket ->
  ParseS3URL ("s3://" +:+ bucket +:+ "/" +:+ prefix) = (bucket, prefix, None).
Proof.
  intros Hno. rewrite ParseS3URL_prefixed. cbv zeta.
  change ("/" +:+ prefix) with (String "/" prefix).
  rewrite (Index_byte_first "/" bucket prefix Hno).
  unfold len. destruct (Z.eqb_spec (Z.of_nat (String.length bucket)) (-1)); [lia|].
  rewrite Nat2Z.id, take_app.
  replace (Z.to_nat (Z.of_nat (String.length bucket) + 1))
    with (String.length (bucket +:+ "/")).
  - change (String "/" prefix) with ("/" +:+ prefix).
    replace (bucket +:+ "/" +:+ prefix) with ((bucket +:+ "/") +:+ prefix).
    + by rewrite drop_app.
    + clear. induction bucket as [|c b IH]; [done|]. rewrite !append_cons. by f_equal.
  - clear. induction bucket as [|c b IH]; [done|].
    rewrite append_cons. simpl String.length. lia.
Qed.

Lemma ParseS3URL_ok_inv url bucket prefix :
  ParseS3URL url = (bucket, prefix, None) ->
  url = "s3://" +:+ bucket +:+ "/" +:+ prefix /\ ~ occurs "/" bucket.
Proof.
  destruct (strings.HasPrefix url "s3://") eqn:Hp.
  - apply HasPrefix_split in Hp. rewrite Hp at 1. rewrite ParseS3URL_prefixed. cbv zeta.
    set (rest := strings.drop _ url) in *.
    destruct (Z.eqb_spec (strings.Index rest "/") (-1)) as [|Hne]; [done|].
    intros [= <- <-].
    pose proof (Index_byte_ge "/" rest).
    destruct (Index_byte_found "/" rest (strings.Index rest "/")) as [Heq Hno]; [lia|done|].
    split; [|done]. rewrite Hp. f_equal. exact Heq.
  - by rewrite ParseS3URL_unprefixed.
Qed.

End ParseS3URLFacts.

(** C10.  [ParseS3URL] succeeds exactly on the inputs ["s3://" ++ rest] with
    a ['/'] in [rest]; it then returns as bucket what stands before the
    first ['/'] of [rest] and as prefix everything after it, which may be
    empty; an input without the scheme fails with the message about the
    missing prefix, and one with the scheme and no ['/'] after it with the
    message about the missing ['/']. *)
Theorem ParseS3URL_spec (url : string) :
  ((exists bucket prefix, ParseS3URL url = (bucket, prefix, None))
   <-> (exists rest, url = "s3://" +:+ rest /\ occurs "/" rest))
  /\ (forall bucket prefix,
        ParseS3URL url = (bucket, prefix, None)
        <-> url = "s3://" +:+ bucket +:+ "/" +:+ prefix /\ ~ occurs "/" bucket)
  /\ ((forall rest, url <> "s3://" +:+ rest) ->
        ParseS3URL url = ("", "", Some errMissingPrefix))
  /\ (forall rest, url = "s3://" +:+ rest -> ~ occurs "/" rest ->
        ParseS3URL url = ("", "", Some errNoSlash))
  /\ ParseS3URL "s3://bucket/" = ("bucket", "", None).
Proof.
  assert (Hiff : forall bucket prefix,
             ParseS3URL url = (bucket, prefix, None)
             <-> url = "s3://" +:+ bucket +:+ "/" +:+ prefix /\ ~ occurs "/" bucket).
  { intros bucket prefix. split; [apply ParseS3URL_ok_inv|].
    intros [-> Hno]. by apply ParseS3URL_ok_shape. }
  split; [|split; [exact Hiff|split; [|split]]].
  - split.
    + intros (bucket & prefix & Hok). apply Hiff in Hok as [-> _].
      exists (bucket +:+ "/" +:+ prefix). split; [done|].
      unfold occurs. clear. induction bucket as [|c b IH]; [by left|].
      rewrite append_cons. by right.
    + intros (rest & -> & Hin). rewrite ParseS3URL_prefixed. cbv zeta.
      destruct (Z.eqb_spec (strings.Index rest "/") (-1)) as [Hi|Hne]; [|eauto].
      by apply Index_byte_absent in Hi.
  - intros Hno. apply ParseS3URL_unprefixed.
    destruct (strings.HasPrefix url "s3://") eqn:Hp; [|done].
    apply HasPrefix_split in Hp. by destruct (Hno _ Hp).
  - intros rest -> Hno. rewrite ParseS3URL_prefixed. cbv zeta.
    apply Index_byte_absent in Hno. by rewrite Hno.
  - reflexivity.
Qed.

(** ** fields.go: the field selection *)

Section FieldsFacts.

Lemma insert_all_lookup (names : list string) (m : gmap string bool) (k : string) :
  fold_left (fun m field => <[field := true]> m) names m !! k =
  if bool_decide (k ∈ names) then Some true else m !! k.
Proof.
  revert m. induction names as [|n names IH]; intros m; cbn [fold_left].
  - case_bool_decide as Hin; [by apply not_elem_of_nil in Hin|done].
  - rewrite IH. destruct (decide (k ∈ names)) as [Hin|Hnin].
    + rewrite !bool_decide_eq_true_2; [done|by right|done].
    + rewrite (bool_decide_eq_false_2 (k ∈ names)) by done.
      destruct (decide (n = k)) as [->|Hne].
      * rewrite lookup_insert_eq. by rewrite bool_decide_eq_true_2 by left.
      * rewrite lookup_insert_ne by done.
        rewrite bool_decide_eq_false_2; [done|].
        intros Hin. apply elem_of_cons in Hin as [?|?]; congruence.
Qed.

Lemma validFieldMap_lookup (k : string) :
  validFieldMap !! k = if bool_decide (k ∈ fieldNames) then Some true else None.
Proof. unfold validFieldMap. by rewrite insert_all_lookup, lookup_empty. Qed.

(** Copying the keys of a map whose values are all [true] gives it back. *)
Lemma copy_keys_lookup (m : gmap string bool) (k : string) :
  map_fold (fun field (_ : bool) (acc : gmap string bool) => <[field := true]> acc) ∅ m !! k
  = (fun _ => true) <$> m !! k.
Proof.
  revert k.
  apply (map_fold_weak_ind
           (fun (r : gmap string bool) (m : gmap string bool) =>
              forall k, r !! k = (fun _ => true) <$> m !! k)).
  - intros k. by rewrite !lookup_empty.
  - intros i x m' r Hnone IH k. destruct (decide (i = k)) as [->|Hne].
    + by rewrite !lookup_insert_eq.
    + by rewrite !lookup_insert_ne.
Qed.

Lemma includeConfigured_ok (fields : list string) (m : gmap string bool) (fs : IncludedFields) :
  includeConfigured fields m = (Some fs, None) ->
  forall k, includedFieldsMap fs !! k =
            if bool_decide (k ∈ strings.TrimSpace <$> fields) then Some true else m !! k.
Proof.
  revert m. induction fields as [|f fields IH]; intros m; cbn [includeConfigured].
  - intros [= <-] k. cbn [includedFieldsMap fmap list_fmap].
    case_bool_decide as Hin; [by apply not_elem_of_nil in Hin|done].
  - destruct (validFieldMap !! strings.TrimSpace f) eqn:Hv; [|done].
    intros Hok k. rewrite (IH _ Hok k). rewrite fmap_cons.
    destruct (decide (k ∈ strings.TrimSpace <$> fields)) as [Hin|Hnin].
    + rewrite !bool_decide_eq_true_2; [done|by right|done].
    + rewrite (bool_decide_eq_false_2 _ Hnin).
      destruct (decide (strings.TrimSpace f = k)) as [Heq|Hne].
      * rewrite Heq, lookup_insert_eq. by rewrite bool_decide_eq_true_2 by (rewrite <- Heq; left).
      * rewrite lookup_insert_ne by done.
        rewrite bool_decide_eq_false_2; [done|].
        intros Hin. apply elem_of_cons in Hin as [?|?]; congruence.
Qed.

(** No pointer without a nil error, and no error with a pointer. *)
Lemma includeConfigured_result (fields : list string) (m : gmap string bool) :
  (exists fs, includeConfigured fields m = (Some fs, None))
  \/ (exists err, includeConfigured fields m = (None, Some err)).
Proof.
  revert m. induction fields as [|f fields IH]; intros m; cbn [includeConfigured]; [eauto|].
  destruct (validFieldMap !! strings.TrimSpace f); [apply IH|eauto].
Qed.

Lemma fieldNameAt_elem (index : Z) :
  0 <= index < llen fieldNames -> fieldNameAt index ∈ fieldNames.
Proof.
  intros Hr. unfold fieldNameAt. apply list_elem_of_In, nth_In.
  unfold llen in Hr. lia.
Qed.

Lemma IncludeField_in_range (fs : IncludedFields) (index : Z) :
  0 <= index < llen fieldNames ->
  IncludeField (Some fs) index
  = Ret (default false (includedFieldsMap fs !! fieldNameAt index)).
Proof.
  intros Hr. unfold IncludeField.
  destruct (Z.ltb_spec index 0); [lia|].
  destruct (Z.geb_spec index (llen fieldNames)); [lia|done].
Qed.

Lemma IncludeField_out_of_range (fs : Fields) (index : Z) :
  ~ (0 <= index < llen fieldNames) -> IncludeField fs index = Ret false.
Proof.
  intros Hr. unfold IncludeField.
  destruct (Z.ltb_spec index 0); [done|].
  destruct (Z.geb_spec index (llen fieldNames)); [done|lia].
Qed.

Lemma NewFields_empty_includesAll :
  exists fs, NewFields "" = (Some fs, None) /\ includesAll fs.
Proof.
  eexists. split; [reflexivity|].
  intros index Hr. rewrite IncludeField_in_range by done. cbn [includedFieldsMap].
  rewrite copy_keys_lookup, validFieldMap_lookup.
  by rewrite bool_decide_eq_true_2 by by apply fieldNameAt_elem.
Qed.

Lemma Split_no_sep (s : string) (sep : ascii) :
  ~ occurs sep s -> strings.Split s sep = [s].
Proof.
  unfold occurs. induction s as [|c s IH]; intros Hno; simpl; [done|].
  destruct (Ascii.eqb_spec c sep) as [->|Hne].
  - destruct Hno. by left.
  - rewrite IH; [done|]. intros Hin. apply Hno. by right.
Qed.

Lemma blank_TrimSpace (s : string) : blank s -> strings.TrimSpace s = "".
Proof.
  unfold blank, strings.TrimSpace. intros Hb.
  assert (Hl : strings.trimStart strings.spaceWidth
                 (List.length (list_ascii_of_string s)) (list_ascii_of_string s) = []).
  { induction Hb as [|c bs Hc Hbs IH]; [done|].
    simpl. by rewrite Hc. }
  by rewrite Hl.
Qed.

Lemma blank_no_comma (s : string) : blank s -> ~ occurs "," s.
Proof.
  unfold blank, occurs. intros Hb Hin.
  rewrite List.Forall_forall in Hb. by apply Hb in Hin.
Qed.

End FieldsFacts.

(** C7.  When [NewFields] resolves a configuration, [IncludeField] on the
    selection never panics, and it answers [true] exactly at the indices of
    the schema whose column the configuration names (at every index of the
    schema when the configuration is empty); it answers [false] at every
    other index, outside [0, 30) included. *)
Theorem NewFields_includes_exactly_named (fieldsConfig : string) (fs : IncludedFields) :
  NewFields fieldsConfig = (Some fs, None) ->
  forall index : Z,
    (IncludeField (Some fs) index = Ret true
     <-> 0 <= index < 30
         /\ (fieldsConfig = "" \/ fieldNameAt index ∈ configuredNames fieldsConfig))
    /\ (IncludeField (Some fs) index = Ret true \/ IncludeField (Some fs) index = Ret false).
Proof.
  intros Hnew index.
  change 30 with (llen fieldNames).
  destruct (decide (0 <= index < llen fieldNames)) as [Hr|Hr].
  2:{ rewrite IncludeField_out_of_range by done. split; [|by right].
      split; [done|]. by intros [? _]. }
  rewrite IncludeField_in_range by done.
  unfold NewFields in Hnew.
  destruct (String.eqb_spec fieldsConfig "") as [->|Hne].
  - injection Hnew as <-. cbn [includedFieldsMap].
    rewrite copy_keys_lookup, validFieldMap_lookup.
    rewrite bool_decide_eq_true_2 by by apply fieldNameAt_elem.
    cbn [fmap option_fmap option_map default].
    split; [|by left]. split; [intros _; split; [done|by left]|done].
  - rewrite (includeConfigured_ok _ _ _ Hnew), lookup_empty.
    fold (configuredNames fieldsConfig).
    destruct (decide (fieldNameAt index ∈ configuredNames fieldsConfig)) as [Hin|Hnin].
    + rewrite bool_decide_eq_true_2 by done. cbn [default].
      split; [|by left]. split; [intros _; split; [done|by right]|done].
    + rewrite bool_decide_eq_false_2 by done. cbn [default].
      split; [|by right]. split; [done|]. intros [_ [?|?]]; done.
Qed.

(** C7, at the configuration of the tests. *)
Lemma NewFields_includes_exactly_named_witness :
  (IncludeField (NewFields "type,time,elb").1 3 = Ret true
   <-> 0 <= 3 < 30
       /\ ("type,time,elb" = "" \/ fieldNameAt 3 ∈ configuredNames "type,time,elb"))
  /\ (IncludeField (NewFields "type,time,elb").1 3 = Ret true
      \/ IncludeField (NewFields "type,time,elb").1 3 = Ret false).
Proof.
  destruct (NewFields "type,time,elb") as [[fs|] [err|]] eqn:Hnew;
    try (vm_compute in Hnew; discriminate Hnew).
  exact (NewFields_includes_exactly_named "type,time,elb" fs Hnew 3).
Defined.

(** C8, as stated, fails on a blank input that is not empty: the one token
    is trimmed to the empty name, which is no column. *)
Lemma NewFields_blank_rejected :
  blank " "
  /\ NewFields " " = (None, Some (errorString "invalid field name '' provided"))
  /\ ~ (exists fs, NewFields " " = (Some fs, None) /\ includesAll fs).
Proof.
  split; [|split].
  - repeat constructor.
  - vm_compute. reflexivity.
  - intros (fs & Hnew & _). vm_compute in Hnew. discriminate Hnew.
Qed.

(** C8, amended.  The empty configuration resolves to a selection of all
    the columns; a configuration of ASCII white space only that is not empty
    does not resolve: [NewFields] fails on the empty name. *)
Theorem NewFields_empty_all_blank_rejected :
  (exists fs, NewFields "" = (Some fs, None) /\ includesAll fs)
  /\ (forall s, s <> "" -> blank s ->
        NewFields s = (None, Some (errorString "invalid field name '' provided"))).
Proof.
  split; [apply NewFields_empty_includesAll|].
  intros s Hne Hb. unfold NewFields.
  destruct (String.eqb_spec s "") as [?|_]; [done|].
  rewrite (Split_no_sep s ",") by by apply blank_no_comma.
  cbn [includeConfigured]. rewrite (blank_TrimSpace s Hb).
  by rewrite validFieldMap_lookup.
Qed.

(** ** processor.go: the batch accumulator *)

Section AccumulatorFacts.

Context `{GoLibrary}.
Variable lp : CloudWatchLogProcessor.

Implicit Types (acc : Accumulator) (w : World) (entry : LogEntry)
  (batch : list InputLogEvent).

Lemma sumSizes_app batch1 batch2 :
  sumSizes (batch1 ++ batch2) = sumSizes batch1 + sumSizes batch2.
Proof. induction batch1 as [|e b IH]; simpl; lia. Qed.

Lemma sumSizes_Permutation batch1 batch2 :
  Permutation batch1 batch2 -> sumSizes batch1 = sumSizes batch2.
Proof. induction 1; simpl; lia. Qed.

Lemma EstimateEventSize_pos (e : InputLogEvent) : 26 <= EstimateEventSize e.
Proof. unfold EstimateEventSize, len. lia. Qed.

Lemma sumSizes_nonneg batch : 0 <= sumSizes batch.
Proof.
  induction batch as [|e b IH]; simpl; [lia|].
  pose proof (EstimateEventSize_pos e). lia.
Qed.

Lemma llen_app {A} (l1 l2 : list A) : llen (l1 ++ l2) = llen l1 + llen l2.
Proof. unfold llen. rewrite length_app. lia. Qed.

Lemma llen_zero {A} (l : list A) : llen l <= 0 -> l = [].
Proof. destruct l; [done|]. unfold llen. simpl. lia. Qed.

Lemma llen_Permutation {A} (l1 l2 : list A) : Permutation l1 l2 -> llen l1 = llen l2.
Proof. intros Hp. unfold llen. by rewrite (Permutation_length Hp). Qed.

Lemma sorted_chronological batch : chronological (sort_Slice byTimestamp batch).
Proof. apply (sort_Slice_sorted InputLogEvent Timestamp). Qed.

Lemma sort_Slice_singleton (e : InputLogEvent) : sort_Slice byTimestamp [e] = [e].
Proof.
  apply Permutation_length_1_inv. symmetry. apply sort_Slice_perm.
Qed.

(** What a send leaves in the world. *)
Lemma SendEventsToCloudWatch_requests batch w :
  (SendEventsToCloudWatch (cwClient lp) (logConfig lp) batch w).1 = answer lp w batch
  /\ cwRequests (SendEventsToCloudWatch (cwClient lp) (logConfig lp) batch w).2
     = cwRequests w ++ [(request lp batch, answer lp w batch)].
Proof. split; reflexivity. Qed.

(** One round of the loop, on what the properties read: the requests, the
    pending batch, its size and the counter. *)
Lemma accumulate_flush acc w entry :
  flushNeeded acc (EstimateEventSize (toEvent entry)) = true ->
  cwRequests (accumulate lp (acc, w) entry).2
  = cwRequests w ++ [(request lp (events acc), answer lp w (events acc))]
  /\ events (accumulate lp (acc, w) entry).1 = [toEvent entry]
  /\ currentBatchSize (accumulate lp (acc, w) entry).1 = EstimateEventSize (toEvent entry)
  /\ counter (accumulate lp (acc, w) entry).1 = Increment (counter acc) (llen (events acc)).
Proof.
  unfold flushNeeded, toEvent, accumulate. intros Hf.
  destruct (json_Marshal (Data entry)) as [jsonData merr]. cbn [fst] in *.
  rewrite Hf. unfold SendEventsToCloudWatch, answer, request.
  destruct merr; cbn; destruct (PutLogEvents _ _ _); cbn; done.
Qed.

Lemma accumulate_append acc w entry :
  flushNeeded acc (EstimateEventSize (toEvent entry)) = false ->
  cwRequests (accumulate lp (acc, w) entry).2 = cwRequests w
  /\ events (accumulate lp (acc, w) entry).1 = events acc ++ [toEvent entry]
  /\ currentBatchSize (accumulate lp (acc, w) entry).1
     = currentBatchSize acc + EstimateEventSize (toEvent entry)
  /\ counter (accumulate lp (acc, w) entry).1 = counter acc.
Proof.
  unfold flushNeeded, toEvent, accumulate. intros Hf.
  destruct (json_Marshal (Data entry)) as [jsonData merr]. cbn [fst] in *.
  rewrite Hf. by destruct merr.
Qed.

Lemma flushRemaining_flush acc w :
  (llen (events acc) >? 0) = true ->
  cwRequests (flushRemaining lp (acc, w)).2
  = cwRequests w ++ [(request lp (events acc), answer lp w (events acc))]
  /\ counter (flushRemaining lp (acc, w)).1 = Increment (counter acc) (llen (events acc)).
Proof.
  unfold flushRemaining. intros ->. unfold SendEventsToCloudWatch, answer, request.
  destruct (PutLogEvents _ _ _); cbn; done.
Qed.

Lemma flushRemaining_nothing acc w :
  (llen (events acc) >? 0) = false -> flushRemaining lp (acc, w) = (acc, w).
Proof. unfold flushRemaining. by intros ->. Qed.

(** *** The batches, as a function of the events *)

Lemma batches_bounded (p : list InputLogEvent) (size : Z) (evs : list InputLogEvent) :
  size = sumSizes p -> llen p <= maxBatchCount ->
  (sumSizes p <= maxBatchSize \/ llen p <= 1) ->
  Forall boundedOrAlone (batches p size evs).
Proof.
  revert p size. induction evs as [|e rest IH]; intros p size Hs Hc Hb; cbn [batches].
  - destruct (Z.gtb_spec (llen p) 0) as [Hpos|_]; [|constructor].
    constructor; [|constructor]. split; [|done]. destruct Hb; [by left|right; lia].
  - destruct (Z.gtb_spec (llen p) 0) as [Hpos|Hzero]; cbn [andb].
    + destruct (Z.gtb_spec (size + EstimateEventSize e) maxBatchSize) as [Hbig|Hfit];
        cbn [orb].
      * constructor; [split; [destruct Hb; [by left|right; lia]|done]|].
        apply IH; [simpl; lia|by compute|right; by compute].
      * destruct (Z.geb_spec (llen p) maxBatchCount) as [Hfull|Hroom].
        -- constructor; [split; [destruct Hb; [by left|right; lia]|done]|].
           apply IH; [simpl; lia|by compute|right; by compute].
        -- apply IH.
           ++ rewrite sumSizes_app. simpl. lia.
           ++ rewrite llen_app. change (llen [e]) with 1. lia.
           ++ left. rewrite sumSizes_app. simpl. lia.
    + rewrite (llen_zero p Hzero) in *.
      apply IH; [simpl in *; lia|by compute|right; by compute].
Qed.

Lemma batches_concat (p : list InputLogEvent) (size : Z) (evs : list InputLogEvent) :
  concat (batches p size evs) = p ++ evs.
Proof.
  revert p size. induction evs as [|e rest IH]; intros p size; cbn [batches].
  - destruct (Z.gtb_spec (llen p) 0) as [Hp|Hp]; simpl; rewrite ?app_nil_r; [done|].
    by rewrite (llen_zero p Hp).
  - destruct (_ && _).
    + cbn [concat]. by rewrite IH.
    + by rewrite IH, <- app_assoc.
Qed.

Lemma batches_total (p : list InputLogEvent) (size : Z) (evs : list InputLogEvent) :
  fold_right (fun b total => llen b + total) 0 (batches p size evs) = llen p + llen evs.
Proof.
  rewrite <- llen_app, <- (batches_concat p size evs).
  induction (batches p size evs) as [|b bs IH]; [done|].
  cbn [fold_right concat]. rewrite llen_app. lia.
Qed.

(** After an event whose estimate alone is over the limit, the loop starts
    afresh. *)
Lemma batches_after_oversize (e : InputLogEvent) (size : Z) (post : list InputLogEvent) :
  size > maxBatchSize -> batches [e] size post = [e] :: batches [] 0 post.
Proof.
  intros Hbig. destruct post as [|e2 rest]; [done|].
  cbn [batches]. change (llen [e] >? 0) with true. change (llen [] >? 0) with false.
  cbn [andb]. pose proof (EstimateEventSize_pos e2).
  destruct (Z.gtb_spec (size + EstimateEventSize e2) maxBatchSize); [done|lia].
Qed.

Lemma batches_oversize (p : list InputLogEvent) (size : Z) (pre : list InputLogEvent)
  (e : InputLogEvent) (post : list InputLogEvent) :
  0 <= size -> EstimateEventSize e > maxBatchSize ->
  batches p size (pre ++ e :: post) = batches p size pre ++ [e] :: batches [] 0 post.
Proof.
  intros Hs Hbig. revert p size Hs.
  induction pre as [|e1 pre IH]; intros p size Hs.
  - cbn [app batches].
    destruct (Z.gtb_spec (llen p) 0) as [Hpos|Hzero]; cbn [andb].
    + destruct (Z.gtb_spec (size + EstimateEventSize e) maxBatchSize); [|lia].
      cbn [orb app]. f_equal. apply batches_after_oversize. lia.
    + rewrite (llen_zero p Hzero).
      cbn [app]. apply batches_after_oversize. lia.
  - cbn [app batches]. pose proof (EstimateEventSize_pos e1).
    destruct (_ && _).
    + cbn [app]. f_equal. apply IH. lia.
    + apply IH. lia.
Qed.

(** *** The run of the goroutine *)

Lemma accumulatorLoop_cons entry entries (st : Accumulator * World) :
  accumulatorLoop lp (entry :: entries) st = accumulatorLoop lp entries (accumulate lp st entry).
Proof. reflexivity. Qed.

Lemma accumulatorLoop_app entries1 entries2 (st : Accumulator * World) :
  accumulatorLoop lp (entries1 ++ entries2) st
  = accumulatorLoop lp entries2 (accumulatorLoop lp entries1 st).
Proof. unfold accumulatorLoop. apply fold_left_app. Qed.

(** The requests of a run carry the batches of its events, each sorted, and
    the counter grows by the number of events in them, whatever the
    answers. *)
Lemma accumulator_requests acc w (entries : list LogEntry) :
  exists new,
    cwRequests (flushRemaining lp (accumulatorLoop lp entries (acc, w))).2 = cwRequests w ++ new
    /\ (fun r => LogEvents r.1) <$> new
       = sort_Slice byTimestamp
           <$> batches (events acc) (currentBatchSize acc) (toEvent <$> entries)
    /\ Value (counter (flushRemaining lp (accumulatorLoop lp entries (acc, w))).1)
       = Value (counter acc) + attemptedTotal new.
Proof.
  revert acc w. induction entries as [|entry entries IH]; intros acc w.
  - cbn [accumulatorLoop fold_left fmap list_fmap batches].
    destruct (llen (events acc) >? 0) eqn:Hp.
    + destruct (flushRemaining_flush acc w Hp) as (Hreq & Hcnt).
      eexists. split; [exact Hreq|]. split; [done|].
      rewrite Hcnt. unfold Value, Increment, attemptedTotal, request. cbn.
      rewrite (llen_Permutation _ _ (sort_Slice_perm _ byTimestamp (events acc))). lia.
    + rewrite (flushRemaining_nothing acc w Hp). exists []. rewrite app_nil_r.
      split; [done|]. split; [done|]. unfold attemptedTotal. simpl. lia.
  - rewrite accumulatorLoop_cons. rewrite fmap_cons. cbn [batches].
    fold (flushNeeded acc (EstimateEventSize (toEvent entry))).
    destruct (accumulate lp (acc, w) entry) as [acc1 w1] eqn:Hstep.
    destruct (IH acc1 w1) as (new & Hreq & Hb & Hcnt).
    destruct (flushNeeded acc (EstimateEventSize (toEvent entry))) eqn:Hf.
    + destruct (accumulate_flush acc w entry Hf) as (Hr1 & He1 & Hs1 & Hc1).
      rewrite Hstep in Hr1, He1, Hs1, Hc1. cbn [fst snd] in *.
      exists ((request lp (events acc), answer lp w (events acc)) :: new).
      rewrite Hreq, Hr1, <- app_assoc. split; [done|].
      rewrite fmap_cons, Hb, He1, Hs1. split; [done|].
      rewrite Hcnt, Hc1. unfold Value, Increment, attemptedTotal, request. cbn.
      rewrite (llen_Permutation _ _ (sort_Slice_perm _ byTimestamp (events acc))). lia.
    + destruct (accumulate_append acc w entry Hf) as (Hr1 & He1 & Hs1 & Hc1).
      rewrite Hstep in Hr1, He1, Hs1, Hc1. cbn [fst snd] in *.
      exists new. rewrite Hreq, Hr1. split; [done|].
      rewrite Hb, He1, Hs1. split; [done|]. by rewrite Hcnt, Hc1.
Qed.

Lemma newRequests_app w w' new :
  cwRequests w' = cwRequests w ++ new -> newRequests w w' = new.
Proof.
  unfold newRequests. intros ->. rewrite skipn_app, skipn_all, Nat.sub_diag. done.
Qed.

(** The batches a run from the initial state sends. *)
Lemma accumulator_emitted w (entries : list LogEntry) :
  emitted w (accumulator lp entries w).2
  = sort_Slice byTimestamp <$> batches [] 0 (toEvent <$> entries).
Proof.
  unfold accumulator, emitted. fold (accumulatorLoop lp entries (newAccumulator, w)).
  destruct (accumulator_requests newAccumulator w entries)
    as (new & Hreq & Hb & _).
  by rewrite (newRequests_app _ _ _ Hreq).
Qed.

Lemma accumulator_counter w (entries : list LogEntry) :
  Value (counter (accumulator lp entries w).1)
  = attemptedTotal (newRequests w (accumulator lp entries w).2).
Proof.
  unfold accumulator. fold (accumulatorLoop lp entries (newAccumulator, w)).
  destruct (accumulator_requests newAccumulator w entries)
    as (new & Hreq & _ & Hcnt).
  rewrite (newRequests_app _ _ _ Hreq), Hcnt. unfold Value. simpl. lia.
Qed.

Lemma attemptedTotal_batches (requests : list (PutLogEventsInput * option error)) :
  attemptedTotal requests
  = fold_right (fun b total => llen b + total) 0 ((fun r => LogEvents r.1) <$> requests).
Proof. induction requests as [|r rs IH]; [done|]. cbn. unfold attemptedTotal in IH. by rewrite IH. Qed.

Lemma total_sorted (bs : list (list InputLogEvent)) :
  fold_right (fun b total => llen b + total) 0 (sort_Slice byTimestamp <$> bs)
  = fold_right (fun b total => llen b + total) 0 bs.
Proof.
  induction bs as [|b bs IH]; [done|]. rewrite fmap_cons. cbn [fold_right].
  by rewrite IH, (llen_Permutation _ _ (sort_Slice_perm _ byTimestamp b)).
Qed.

Lemma sorted_withinLimitsOrAlone batch :
  boundedOrAlone batch -> withinLimitsOrAlone (sort_Slice byTimestamp batch).
Proof.
  intros [Hsize Hcount]. unfold withinLimitsOrAlone.
  rewrite (sumSizes_Permutation _ _ (sort_Slice_perm _ byTimestamp batch)).
  rewrite (llen_Permutation _ _ (sort_Slice_perm _ byTimestamp batch)).
  split; [done|]. split; [done|]. apply sorted_chronological.
Qed.

Lemma accumulator_single w entry :
  emitted w (accumulator lp [entry] w).2 = [[toEvent entry]].
Proof.
  rewrite accumulator_emitted. cbn [fmap list_fmap].
  generalize (toEvent entry). intros ev. cbn [batches].
  change (llen [] >? 0) with false. cbn [andb app].
  change (llen [ev] >? 0) with true. cbn [fmap list_fmap].
  by rewrite sort_Slice_singleton.
Qed.

Lemma accumulatorLoop_size_nonneg acc w (entries : list LogEntry) :
  0 <= currentBatchSize acc ->
  0 <= currentBatchSize (accumulatorLoop lp entries (acc, w)).1.
Proof.
  revert acc w. induction entries as [|entry entries IH]; intros acc w Hs; [done|].
  rewrite accumulatorLoop_cons.
  destruct (accumulate lp (acc, w) entry) as [acc1 w1] eqn:Hstep.
  apply IH. pose proof (EstimateEventSize_pos (toEvent entry)).
  destruct (flushNeeded acc (EstimateEventSize (toEvent entry))) eqn:Hf.
  - destruct (accumulate_flush acc w entry Hf) as (_ & _ & Hs1 & _).
    rewrite Hstep in Hs1. cbn [fst] in Hs1. lia.
  - destruct (accumulate_append acc w entry Hf) as (_ & _ & Hs1 & _).
    rewrite Hstep in Hs1. cbn [fst] in Hs1. lia.
Qed.

(** An event over the limit is the whole pending batch once it is
    appended. *)
Lemma accumulate_oversize acc w entry :
  0 <= currentBatchSize acc ->
  EstimateEventSize (toEvent entry) > maxBatchSize ->
  events (accumulate lp (acc, w) entry).1 = [toEvent entry].
Proof.
  intros Hs Hbig.
  destruct (flushNeeded acc (EstimateEventSize (toEvent entry))) eqn:Hf.
  - by destruct (accumulate_flush acc w entry Hf) as (_ & He & _).
  - destruct (accumulate_append acc w entry Hf) as (_ & He & _). rewrite He.
    unfold flushNeeded in Hf.
    destruct (Z.gtb_spec (llen (events acc)) 0) as [Hpos|Hzero].
    + destruct (Z.gtb_spec (currentBatchSize acc + EstimateEventSize (toEvent entry))
                  maxBatchSize); [done|lia].
    + by rewrite (llen_zero _ Hzero).
Qed.

End AccumulatorFacts.

(** ** The library of the examples meets the contracts *)

Section InsertionSort.

Context {A : Type}.

Lemma insertSorted_perm (less : A -> A -> bool) (x : A) (l : list A) :
  Permutation (insertSorted less x l) (x :: l).
Proof.
  induction l as [|y l IH]; simpl; [done|].
  destruct (less y x); [|done].
  rewrite IH. apply perm_swap.
Qed.

Lemma insertionSort_perm (less : A -> A -> bool) (l : list A) :
  Permutation (insertionSort less l) l.
Proof.
  induction l as [|x l IH]; simpl; [done|].
  rewrite insertSorted_perm. by constructor.
Qed.

Variable key : A -> Z.

Let byKey (a b : A) : bool := key a <? key b.
Let ordered (a b : A) : Prop := key a <= key b.

Lemma insertSorted_sorted (x : A) (l : list A) :
  StronglySorted ordered l -> StronglySorted ordered (insertSorted byKey x l).
Proof.
  induction 1 as [|y l Hs IH Hy]; simpl; [repeat constructor|].
  unfold byKey at 1. destruct (Z.ltb_spec (key y) (key x)) as [Hlt|Hge].
  - constructor; [done|].
    rewrite (insertSorted_perm byKey x l). constructor; [unfold ordered; lia|done].
  - constructor; [by constructor|].
    constructor; [done|].
    eapply List.Forall_impl; [|exact Hy]. unfold ordered. intros; lia.
Qed.

Lemma insertionSort_sorted (l : list A) :
  StronglySorted ordered (insertionSort byKey l).
Proof.
  induction l as [|x l IH]; simpl; [constructor|].
  by apply insertSorted_sorted.
Qed.

End InsertionSort.

#[export] Instance exampleLibrary : GoLibrary := {|
  time_Parse := plainParse;
  json_Marshal := plainMarshal;
  sort_Slice := @insertionSort;
  sort_Slice_perm := @insertionSort_perm;
  sort_Slice_sorted := @insertionSort_sorted
|}.

Example plainParse_utc :
  plainParse RFC3339 "2024-03-21T16:10:26.071854Z" = (mkTime 1711037426 71854000, None)
  /\ UnixMilli (mkTime 1711037426 71854000) = 1711037426071
  /\ (plainParse RFC3339 "21/Mar/2024").2 <> None.
Proof. split; [|split]; [reflexivity|reflexivity|by vm_compute]. Qed.

Lemma length_longString (n : positive) : len (longString n) = Z.pos n.
Proof.
  unfold len, longString.
  rewrite Pos2Nat.inj_iter, <- (positive_nat_Z n). f_equal.
  generalize (Pos.to_nat n). intros k.
  induction k as [|k IH]; simpl; [done|by rewrite IH].
Qed.

Lemma len_append (s1 s2 : string) : len (s1 +:+ s2) = len s1 + len s2.
Proof.
  unfold len. induction s1 as [|c s1 IH].
  - change ("" +:+ s2) with s2. simpl String.length. lia.
  - rewrite append_cons. simpl String.length. lia.
Qed.

Lemma len_plainMarshal_singleton (k v : string) :
  len (plainMarshal {[ k := v ]}).1 = len k + len v + 7.
Proof.
  unfold plainMarshal. cbn [fst]. rewrite map_to_list_singleton.
  cbn [fmap list_fmap String.concat]. unfold plainMember. cbn [fst snd].
  rewrite !len_append. change (len "{") with 1. change (len "}") with 1.
  change (len quote) with 1. change (len ":") with 1. lia.
Qed.

(** ** The claims on the batch accumulator *)

(** C1, as stated, fails: an entry whose event alone is estimated over
    1,048,576 bytes is sent, in a batch whose estimates sum to more. *)
Lemma oversize_batch_is_sent :
  emitted emptyWorld
    (accumulator (processorWith noObjects acceptingService) [entryOfSize 1048576] emptyWorld).2
  = [[toEvent (entryOfSize 1048576)]]
  /\ sumSizes [toEvent (entryOfSize 1048576)] = 1048616
  /\ ~ Forall withinLimits
         (emitted emptyWorld
            (accumulator (processorWith noObjects acceptingService)
               [entryOfSize 1048576] emptyWorld).2).
Proof.
  assert (Hsum : sumSizes [toEvent (entryOfSize 1048576)] = 1048616).
  { unfold sumSizes, fold_right, EstimateEventSize, toEvent, entryOfSize.
    cbn [Message Data json_Marshal exampleLibrary].
    rewrite len_plainMarshal_singleton, length_longString.
    change (len "request") with 7. lia. }
  rewrite accumulator_single. split; [done|]. split; [exact Hsum|].
  intros Hall. apply Forall_inv in Hall. destruct Hall as [Hsize _].
  rewrite Hsum in Hsize. unfold maxBatchSize in Hsize. lia.
Qed.

(** C1, amended.  Every batch the accumulator sends has at most 10,000
    events, timestamps that never decrease, and size estimates that sum to
    at most 1,048,576 unless the batch is a single event. *)
Theorem accumulator_batches_bounded `{GoLibrary} (lp : CloudWatchLogProcessor)
  (entries : list LogEntry) (w : World) :
  Forall withinLimitsOrAlone (emitted w (accumulator lp entries w).2).
Proof.
  rewrite accumulator_emitted. apply Forall_fmap.
  eapply List.Forall_impl; [intros batch; apply sorted_withinLimitsOrAlone|].
  apply batches_bounded; [done|by compute|left; by compute].
Qed.

(** C5.  An entry whose event is estimated over 1,048,576 bytes is the whole
    pending batch once the loop has appended it, and it is sent as a batch of
    its own: the batches of the run are those of the entries before it, the
    event alone, and those of the entries after it. *)
Theorem oversize_event_alone `{GoLibrary} (lp : CloudWatchLogProcessor)
  (pre : list LogEntry) (entry : LogEntry) (post : list LogEntry) (w : World) :
  EstimateEventSize (toEvent entry) > maxBatchSize ->
  events (accumulatorLoop lp (pre ++ [entry]) (newAccumulator, w)).1 = [toEvent entry]
  /\ emitted w (accumulator lp (pre ++ entry :: post) w).2
     = emitted w (accumulator lp pre w).2
         ++ [toEvent entry] :: emitted w (accumulator lp post w).2.
Proof.
  intros Hbig. split.
  - rewrite accumulatorLoop_app.
    pose proof (accumulatorLoop_size_nonneg lp newAccumulator w pre) as Hs.
    destruct (accumulatorLoop lp pre (newAccumulator, w)) as [acc1 w1].
    apply accumulate_oversize; [apply Hs; by compute|done].
  - rewrite !accumulator_emitted, fmap_app, fmap_cons.
    rewrite (batches_oversize [] 0 _ (toEvent entry)); [|done|done].
    by rewrite fmap_app, fmap_cons, sort_Slice_singleton.
Qed.

(** C5, at an entry of a megabyte between two small ones. *)
Lemma oversize_event_alone_witness :
  EstimateEventSize (toEvent (entryOfSize 1048576)) > maxBatchSize
  /\ emitted emptyWorld
       (accumulator (processorWith noObjects acceptingService)
          ([smallEntry] ++ entryOfSize 1048576 :: [smallEntry]) emptyWorld).2
     = emitted emptyWorld
         (accumulator (processorWith noObjects acceptingService) [smallEntry] emptyWorld).2
         ++ [toEvent (entryOfSize 1048576)]
            :: emitted emptyWorld
                 (accumulator (processorWith noObjects acceptingService) [smallEntry]
                    emptyWorld).2.
Proof.
  assert (Hbig : EstimateEventSize (toEvent (entryOfSize 1048576)) > maxBatchSize).
  { unfold EstimateEventSize, toEvent, entryOfSize.
    cbn [Message Data json_Marshal exampleLibrary].
    rewrite len_plainMarshal_singleton, length_longString.
    change (len "request") with 7. unfold maxBatchSize. lia. }
  split; [exact Hbig|].
  exact (proj2 (oversize_event_alone (processorWith noObjects acceptingService)
                  [smallEntry] (entryOfSize 1048576) [smallEntry] emptyWorld Hbig)).
Defined.

(** C9, as stated, fails: the counter also counts the events of a batch the
    service refused. *)
Lemma counter_counts_refused_batch :
  Value (counter (accumulator (processorWith noObjects refusingService) [smallEntry]
                    emptyWorld).1) = 1
  /\ succeededTotal
       (newRequests emptyWorld
          (accumulator (processorWith noObjects refusingService) [smallEntry] emptyWorld).2)
     = 0.
Proof. split; vm_compute; reflexivity. Qed.

(** C9, amended.  When the accumulator goroutine ends, the counter is the
    number of events in all the batches it has sent, accepted by the
    service or not, which is the number of entries it has consumed. *)
Theorem counter_counts_attempted `{GoLibrary} (lp : CloudWatchLogProcessor)
  (entries : list LogEntry) (w : World) :
  Value (counter (accumulator lp entries w).1)
  = attemptedTotal (newRequests w (accumulator lp entries w).2)
  /\ Value (counter (accumulator lp entries w).1) = llen entries.
Proof.
  split; [apply accumulator_counter|].
  rewrite accumulator_counter, attemptedTotal_batches.
  fold (emitted w (accumulator lp entries w).2).
  rewrite accumulator_emitted, total_sorted, batches_total.
  unfold llen. rewrite length_fmap. simpl. lia.
Qed.

(** ** processor.go: the record parser *)

Section ParserFacts.

Context `{GoLibrary}.

Lemma Read_first (r : csvReader) (raw : rawRecord) (rest : list rawRecord) :
  FieldsPerRecord r = 0 -> pending r = raw :: rest ->
  Read r = ((rawFields raw, rawErr raw), mkCsvReader (Comma r) (llen (rawFields raw)) rest).
Proof. unfold Read. by intros -> ->. Qed.

Lemma Read_same_count (r : csvReader) (raw : rawRecord) (rest : list rawRecord) :
  0 < FieldsPerRecord r -> pending r = raw :: rest ->
  llen (rawFields raw) = FieldsPerRecord r ->
  Read r = ((rawFields raw, rawErr raw), mkCsvReader (Comma r) (FieldsPerRecord r) rest).
Proof.
  unfold Read. intros Hpos -> Hlen.
  destruct (Z.gtb_spec (FieldsPerRecord r) 0); [|lia].
  by rewrite Hlen, Z.eqb_refl.
Qed.

Lemma Read_other_count (r : csvReader) (raw : rawRecord) (rest : list rawRecord) :
  0 < FieldsPerRecord r -> pending r = raw :: rest ->
  llen (rawFields raw) <> FieldsPerRecord r -> rawErr raw = None ->
  Read r = ((rawFields raw, Some (ParseError (rawLine raw) ErrFieldCount)),
            mkCsvReader (Comma r) (FieldsPerRecord r) rest).
Proof.
  unfold Read. intros Hpos -> Hlen ->.
  destruct (Z.gtb_spec (FieldsPerRecord r) 0); [|lia].
  by destruct (Z.eqb_spec (llen (rawFields raw)) (FieldsPerRecord r)).
Qed.

Lemma recordToLogEntry_wrong_count (record : list string) (fieldStore : Fields) :
  llen record <> 30 ->
  recordToLogEntry record fieldStore
  = Ret (zeroLogEntry,
         Some (errorString ("invalid log format: expected 30 fields, got "
                            +:+ itoa (llen record)))).
Proof.
  intros Hlen. unfold recordToLogEntry. change (llen fieldNames) with 30.
  by destruct (Z.eqb_spec (llen record) 30).
Qed.

Lemma recordToLogEntry_ok_count (record : list string) (fieldStore : Fields) (entry : LogEntry) :
  recordToLogEntry record fieldStore = Ret (entry, None) -> llen record = 30.
Proof.
  unfold recordToLogEntry. change (llen fieldNames) with 30.
  by destruct (Z.eqb_spec (llen record) 30).
Qed.

(** With a selection behind the interface, nothing panics. *)
Lemma projectRecord_returns (fs : IncludedFields) (record : list string) (i : Z)
  (entryMap : gmap string string) :
  exists m, projectRecord (Some fs) i record entryMap = Ret m.
Proof.
  revert i entryMap. induction record as [|value rest IH]; intros i entryMap; [by eexists|].
  cbn [projectRecord]. unfold IncludeField.
  destruct ((i <? 0) || (i >=? llen fieldNames)); cbn [mbind outcome_bind]; [apply IH|].
  destruct (default false _); apply IH.
Qed.

Lemma recordToLogEntry_returns (fs : IncludedFields) (record : list string) :
  exists res, recordToLogEntry record (Some fs) = Ret res.
Proof.
  unfold recordToLogEntry.
  destruct (negb _); [by eexists|].
  destruct (time_Parse RFC3339 _) as [t [err|]]; [by eexists|].
  destruct (projectRecord_returns fs record 0 ∅) as [m ->]. by eexists.
Qed.

(** The loop ends within the rounds [processRecords] gives it. *)
Lemma processRecordsLoop_total (rounds : nat) (r : csvReader) (ch : list LogEntry)
  (fieldStore : Fields) :
  (List.length (pending r) < rounds)%nat ->
  exists parsed, processRecordsLoop rounds r ch fieldStore = Some parsed.
Proof.
  revert r ch. induction rounds as [|rounds IH]; intros r ch Hlt; [lia|].
  cbn [processRecordsLoop].
  destruct (Read r) as [[record err] r'] eqn:HRead.
  destruct err as [[|msg]|]; [by eexists|by eexists|].
  destruct (recordToLogEntry record fieldStore) as [[entry [err|]]|msg]; [by eexists| |by eexists].
  apply IH. unfold Read in HRead.
  destruct (pending r) as [|raw rest]; [done|].
  simpl in Hlt.
  destruct (FieldsPerRecord r >? 0); [|destruct (FieldsPerRecord r =? 0)];
    injection HRead as _ _ <-; simpl; lia.
Qed.

Lemma processRecords_total (r : csvReader) (ch : list LogEntry) (fieldStore : Fields) :
  exists parsed, processRecords r ch fieldStore = Some parsed.
Proof. apply processRecordsLoop_total. lia. Qed.

Lemma processRecordsLoop_no_panic (fs : IncludedFields) (rounds : nat) (r : csvReader)
  (ch : list LogEntry) (parsed : Parsed) :
  processRecordsLoop rounds r ch (Some fs) = Some parsed ->
  exists err, parseResult parsed = Ret err.
Proof.
  revert r ch. induction rounds as [|rounds IH]; intros r ch; [done|].
  cbn [processRecordsLoop].
  destruct (Read r) as [[record err] r'].
  destruct err as [[|msg]|]; [intros [= <-]; by eexists|intros [= <-]; by eexists|].
  destruct (recordToLogEntry_returns fs record) as [[entry err] ->].
  destruct err; [intros [= <-]; by eexists|apply IH].
Qed.

(** Behind the nil pointer no record becomes an entry: the first one that
    could panics in [IncludeField]. *)
Lemma recordToLogEntry_nil_no_entry (record : list string) (entry : LogEntry) :
  recordToLogEntry record None <> Ret (entry, None).
Proof.
  unfold recordToLogEntry. change (llen fieldNames) with 30.
  destruct (Z.eqb_spec (llen record) 30) as [Hlen|]; [|done]. cbn [negb].
  destruct (time_Parse RFC3339 _) as [t [err|]]; [done|].
  destruct record as [|value record]; [done|]. by cbn.
Qed.

(** A panic of the parser finds the channel as the parser got it. *)
Lemma processRecordsLoop_panic_queued_nothing (rounds : nat) (r : csvReader)
  (ch : list LogEntry) (fieldStore : Fields) (parsed : Parsed) (msg : string) :
  processRecordsLoop rounds r ch fieldStore = Some parsed ->
  parseResult parsed = Panic msg -> entryChan parsed = ch.
Proof.
  destruct fieldStore as [fs|].
  { intros Hloop Hpanic.
    destruct (processRecordsLoop_no_panic fs _ _ _ _ Hloop) as [err Herr]. congruence. }
  destruct rounds as [|rounds]; [done|]. cbn [processRecordsLoop].
  destruct (Read r) as [[record err] r'].
  destruct err as [[|m]|]; [by intros [= <-]|by intros [= <-]|].
  pose proof (recordToLogEntry_nil_no_entry record) as Hno.
  destruct (recordToLogEntry record None) as [[entry [err|]]|m].
  - by intros [= <-].
  - by destruct (Hno entry).
  - by intros [= <-].
Qed.

Lemma processRecords_panic_queued_nothing (r : csvReader) (fieldStore : Fields)
  (parsed : Parsed) (msg : string) :
  processRecords r [] fieldStore = Some parsed ->
  parseResult parsed = Panic msg -> entryChan parsed = [].
Proof. apply processRecordsLoop_panic_queued_nothing. Qed.

(** The records that parse are consumed one by one; the count of the first
    becomes the count the reader requires. *)
Lemma processRecordsLoop_parsed (fieldStore : Fields) (pre : list rawRecord)
  (entries : list LogEntry) (rest : list rawRecord) (rounds : nat) (c : ascii) (fpr : Z)
  (ch : list LogEntry) :
  Forall2 (parsesTo fieldStore) pre entries ->
  fpr = 0 \/ fpr = 30 ->
  processRecordsLoop (List.length pre + rounds) (mkCsvReader c fpr (pre ++ rest)) ch fieldStore
  = processRecordsLoop rounds (mkCsvReader c (if pre is [] then fpr else 30) rest)
      (ch ++ entries) fieldStore.
Proof.
  intros Hpre. revert fpr ch.
  induction Hpre as [|raw entry pre entries [Herr Hentry] Hpre IH]; intros fpr ch Hfpr.
  - by rewrite app_nil_r.
  - pose proof (recordToLogEntry_ok_count _ _ _ Hentry) as Hlen.
    cbn [List.length Nat.add app processRecordsLoop].
    assert (HRead : Read (mkCsvReader c fpr (raw :: pre ++ rest))
                    = ((rawFields raw, None), mkCsvReader c 30 (pre ++ rest))).
    { destruct Hfpr as [->| ->].
      - rewrite (Read_first _ raw (pre ++ rest)) by done. by rewrite Herr, Hlen.
      - rewrite (Read_same_count _ raw (pre ++ rest)) by done. by rewrite Herr. }
    rewrite HRead, Hentry, (IH 30 (ch ++ [entry])) by by right.
    rewrite <- app_assoc. cbn [app]. by destruct pre.
Qed.

End ParserFacts.

Example recordToLogEntry_sample :
  recordToLogEntry sampleRecord (NewFields "").1 = Ret (sampleEntry, None)
  /\ Data sampleEntry !! "request"
     = Some "PUT https://example.com:443/api/modify?user_ids=xxxxx4&ref_date= HTTP/1.1"
  /\ (Data <$> (fst <$> recordToLogEntry sampleRecord (NewFields "type, elb").1))
     = Ret {[ "type" := "https"; "elb" := "app/example-prod-lb/xxxxxxx4" ]}.
Proof. split; [|split]; vm_compute; reflexivity. Qed.

(** C6.  What [processRecords] does at the first record whose number of
    fields is not 30, when the records before it parse: it returns an error,
    sends no entry for the record and reads no further record.  The error
    names the expected and the actual count when the record is the first of
    the stream; a later one is refused by the reader of [encoding/csv]
    itself, which by then requires the count of the first record, and the
    error is the reader's, without the counts. *)
Theorem processRecords_wrong_count `{GoLibrary} (fieldStore : Fields)
  (pre : list rawRecord) (entries : list LogEntry) (bad : rawRecord) (post : list rawRecord) :
  Forall2 (parsesTo fieldStore) pre entries ->
  rawErr bad = None ->
  llen (rawFields bad) <> 30 ->
  exists parsed,
    processRecords (setComma (csv_NewReader (pre ++ bad :: post)) " ") [] fieldStore
    = Some parsed
    /\ entryChan parsed = entries
    /\ pending (readerAfter parsed) = post
    /\ parseResult parsed
       = Ret (Some (errorString
                      (if pre is [] then
                         "invalid log format: expected 30 fields, got "
                         +:+ itoa (llen (rawFields bad))
                       else
                         "error reading a record: record on line " +:+ itoa (rawLine bad)
                         +:+ ": wrong number of fields"))).
Proof.
  intros Hpre Herr Hlen.
  unfold processRecords, setComma, csv_NewReader. cbn [pending FieldsPerRecord Comma].
  rewrite length_app. cbn [List.length].
  replace (S (List.length pre + S (List.length post)))
    with (List.length pre + S (S (List.length post)))%nat by lia.
  rewrite (processRecordsLoop_parsed fieldStore pre entries) by (done || by left).
  cbn [processRecordsLoop app].
  destruct pre as [|raw pre].
  - rewrite (Read_first _ bad post) by done. rewrite Herr.
    rewrite recordToLogEntry_wrong_count by done.
    eexists. split; [reflexivity|]. by inversion Hpre.
  - rewrite (Read_other_count _ bad post) by done.
    eexists. split; [reflexivity|]. done.
Qed.

(** C6, at the stream of a record of the tests followed by the same record
    without its last field: the error is the reader's. *)
Lemma processRecords_wrong_count_witness :
  exists parsed,
    processRecords (setComma (csv_NewReader ([sampleLine 1] ++ shortLine 2 :: [])) " ") []
      (NewFields "").1
    = Some parsed
    /\ entryChan parsed = [sampleEntry]
    /\ pending (readerAfter parsed) = []
    /\ parseResult parsed
       = Ret (Some (errorString
                      ("error reading a record: record on line " +:+ itoa (rawLine (shortLine 2))
                       +:+ ": wrong number of fields"))).
Proof.
  apply (processRecords_wrong_count (NewFields "").1 [sampleLine 1] [sampleEntry]
           (shortLine 2) []).
  - constructor; [|constructor]. split; [reflexivity|]. vm_compute. reflexivity.
  - reflexivity.
  - vm_compute. discriminate.
Defined.

Example processRecords_second_line_short :
  parseResult <$> processRecords (setComma (csv_NewReader [sampleLine 1; shortLine 2]) " ") []
                    (NewFields "").1
  = Some (Ret (Some (errorString
                       "error reading a record: record on line 2: wrong number of fields")))
  /\ parseResult <$> processRecords (setComma (csv_NewReader [shortLine 1; sampleLine 2]) " ") []
                       (NewFields "").1
     = Some (Ret (Some (errorString "invalid log format: expected 30 fields, got 29"))).
Proof. split; vm_compute; reflexivity. Qed.

(** ** processor.go: the object pipeline *)

Section PipelineFacts.

Context `{GoLibrary}.
Variable lp : CloudWatchLogProcessor.

Implicit Types (acc : Accumulator) (w : World) (entry : LogEntry).

Lemma accumulate_world_flush acc w entry :
  flushNeeded acc (EstimateEventSize (toEvent entry)) = true ->
  (accumulate lp (acc, w) entry).2
  = printlnAcc "error sending events to CloudWatch: " (answer lp w (events acc))
      (recordPut (request lp (events acc)) (answer lp w (events acc))
         (printlnAcc "error marshaling log entry to JSON: " (json_Marshal (Data entry)).2 w)).
Proof.
  unfold flushNeeded, toEvent, accumulate. intros Hf.
  destruct (json_Marshal (Data entry)) as [jsonData merr]. cbn [fst snd] in *.
  rewrite Hf. unfold SendEventsToCloudWatch, answer, request.
  destruct merr; cbn; destruct (PutLogEvents _ _ _); reflexivity.
Qed.

Lemma accumulate_world_append acc w entry :
  flushNeeded acc (EstimateEventSize (toEvent entry)) = false ->
  (accumulate lp (acc, w) entry).2
  = printlnAcc "error marshaling log entry to JSON: " (json_Marshal (Data entry)).2 w.
Proof.
  unfold flushNeeded, toEvent, accumulate. intros Hf.
  destruct (json_Marshal (Data entry)) as [jsonData merr]. cbn [fst snd] in *.
  rewrite Hf. by destruct merr.
Qed.

Lemma flushRemaining_world acc w :
  (llen (events acc) >? 0) = true ->
  (flushRemaining lp (acc, w)).2
  = printlnAcc "error sending events to CloudWatch: " (answer lp w (events acc))
      (recordPut (request lp (events acc)) (answer lp w (events acc)) w).
Proof.
  unfold flushRemaining. intros ->. unfold SendEventsToCloudWatch, answer, request.
  destruct (PutLogEvents _ _ _); reflexivity.
Qed.

Lemma extends_refl w : extends w w [] [].
Proof. unfold extends. by rewrite !app_nil_r. Qed.

Lemma extends_trans w1 w2 w3 new1 lines1 new2 lines2 :
  extends w1 w2 new1 lines1 -> extends w2 w3 new2 lines2 ->
  extends w1 w3 (new1 ++ new2) (lines1 ++ lines2).
Proof.
  unfold extends. intros (-> & -> & -> & -> & ->) (-> & -> & -> & -> & ->).
  by rewrite !app_assoc.
Qed.

Lemma extends_printlnAcc text err w :
  extends w (printlnAcc text err w) []
    (match err with Some err => [text +:+ Error err] | None => [] end).
Proof. unfold extends. destruct err; cbn; by rewrite ?app_nil_r. Qed.

Lemma extends_recordPut req err w : extends w (recordPut req err w) [(req, err)] [].
Proof. unfold extends. cbn. by rewrite ?app_nil_r. Qed.

Lemma accumulate_extends acc w entry :
  exists new lines,
    extends w (accumulate lp (acc, w) entry).2 new lines
    /\ sublist (sendErrorLines new) lines.
Proof.
  destruct (flushNeeded acc (EstimateEventSize (toEvent entry))) eqn:Hf.
  - rewrite (accumulate_world_flush acc w entry Hf).
    eexists _, _. split.
    + eapply extends_trans; [|apply extends_printlnAcc].
      eapply extends_trans; [apply extends_printlnAcc|apply extends_recordPut].
    + cbn [app]. unfold sendErrorLines. cbn [omap list_omap snd].
      rewrite app_nil_r. apply sublist_inserts_l.
      by destruct (answer lp w (events acc)).
  - rewrite (accumulate_world_append acc w entry Hf).
    eexists _, _. split; [apply extends_printlnAcc|]. apply sublist_nil_l.
Qed.

Lemma sendErrorLines_app new1 new2 :
  sendErrorLines (new1 ++ new2) = sendErrorLines new1 ++ sendErrorLines new2.
Proof. unfold sendErrorLines. by rewrite omap_app, fmap_app. Qed.

Lemma accumulatorLoop_extends (entries : list LogEntry) acc w :
  exists new lines,
    extends w (accumulatorLoop lp entries (acc, w)).2 new lines
    /\ sublist (sendErrorLines new) lines.
Proof.
  revert acc w. induction entries as [|entry entries IH]; intros acc w.
  - exists [], []. split; [apply extends_refl|done].
  - rewrite accumulatorLoop_cons.
    destruct (accumulate_extends acc w entry) as (new1 & lines1 & Hext1 & Hsub1).
    destruct (accumulate lp (acc, w) entry) as [acc1 w1].
    destruct (IH acc1 w1) as (new2 & lines2 & Hext2 & Hsub2).
    exists (new1 ++ new2), (lines1 ++ lines2).
    split; [by eapply extends_trans|].
    rewrite sendErrorLines_app. by apply sublist_app.
Qed.

Lemma accumulator_extends (entries : list LogEntry) w :
  exists new lines,
    extends w (accumulator lp entries w).2 new lines
    /\ sublist (sendErrorLines new) lines.
Proof.
  unfold accumulator. fold (accumulatorLoop lp entries (newAccumulator, w)).
  destruct (accumulatorLoop_extends entries newAccumulator w)
    as (new1 & lines1 & Hext1 & Hsub1).
  destruct (accumulatorLoop lp entries (newAccumulator, w)) as [acc1 w1].
  destruct (llen (events acc1) >? 0) eqn:Hp.
  - rewrite (flushRemaining_world acc1 w1 Hp).
    eexists _, _. split.
    + eapply extends_trans; [exact Hext1|].
      eapply extends_trans; [apply extends_recordPut|apply extends_printlnAcc].
    + rewrite sendErrorLines_app. apply sublist_app; [done|].
      unfold sendErrorLines. cbn [app omap list_omap snd].
      by destruct (answer lp w1 (events acc1)).
  - rewrite (flushRemaining_nothing lp acc1 w1 Hp).
    exists new1, lines1. done.
Qed.

End PipelineFacts.

(** C2.  [ProcessLogs] returns an error exactly when the fetch of the
    object fails.  For a processor that holds a field selection: when the
    fetch fails it returns that error and sends nothing; otherwise it returns
    nil, whatever the parser returns and whatever the log service answers.
    In that case the requests carry the batches of all the entries the parser
    queued before it stopped, each entry in one request only (a refused batch
    is not sent again, and the entries after it are batched as usual), every
    refused request is reported by a line of the accumulator, and the error
    of the parser by a line of the caller. *)
Theorem ProcessLogs_failure_policy `{GoLibrary} (lp : CloudWatchLogProcessor)
  (s3Object : S3ObjectInfo) (w : World) :
  let result := (ProcessLogs lp s3Object w).1 in
  let w' := (ProcessLogs lp s3Object w).2 in
  ((exists err, result = Ret (Some err)) <-> (GetObject (s3Client lp) s3Object).2 <> None)
  /\ forall fs, fieldStore lp = Some fs ->
     match GetObject (s3Client lp) s3Object with
     | (_, Some err) =>
         result = Ret (Some (errorString ("failed to get object: " +:+ Error err)))
         /\ newRequests w w' = []
     | (body, None) =>
         exists parsed perr,
           processRecords (setComma (csv_NewReader body) " ") [] (Some fs) = Some parsed
           /\ parseResult parsed = Ret perr
           /\ result = Ret None
           /\ emitted w w'
              = sort_Slice byTimestamp <$> batches [] 0 (toEvent <$> entryChan parsed)
           /\ Permutation (concat (emitted w w')) (toEvent <$> entryChan parsed)
           /\ (exists lines,
                  printedAcc w' = printedAcc w ++ lines
                  /\ sublist (sendErrorLines (newRequests w w')) lines)
           /\ (forall err, perr = Some err ->
                 "error processing records " +:+ Error err ∈ printedMain w')
     end.
Proof.
  cbv zeta. split.
  { unfold ProcessLogs.
    destruct (GetObject (s3Client lp) s3Object) as [body [err|]]; cbn [snd].
    - split; [done|by eexists].
    - split; [|done]. intros [err Herr]. exfalso.
      destruct (processRecords _ _ _) as [parsed|]; [|done].
      destruct (parseResult parsed) as [perr|msg]; [|done].
      by destruct (accumulator lp (entryChan parsed) _). }
  intros fs Hfs. unfold ProcessLogs. rewrite Hfs.
  destruct (GetObject (s3Client lp) s3Object) as [body [err|]]; cbn [snd].
  - split; [done|].
    unfold newRequests. cbn. by rewrite skipn_all.
  - destruct (processRecords_total (setComma (csv_NewReader body) " ") [] (Some fs))
      as [parsed Hparsed].
    destruct (processRecordsLoop_no_panic fs _ _ _ _ Hparsed) as [perr Hperr].
    rewrite Hparsed, Hperr.
    set (w1 := recordGetObject s3Object (logPrintf _ w)).
    set (w2 := match perr with
               | Some err => printMain ("error processing records " +:+ Error err) w1
               | None => w1
               end).
    assert (Hw2 : cwRequests w2 = cwRequests w /\ printedAcc w2 = printedAcc w)
      by (subst w2 w1; by destruct perr).
    destruct Hw2 as [Hreq2 Hacc2].
    pose proof (accumulator_emitted lp w2 (entryChan parsed)) as Hemitted.
    destruct (accumulator_extends lp (entryChan parsed) w2)
      as (new & lines & (_ & _ & Hmain & Hreq & Hlines) & Hsub).
    destruct (accumulator lp (entryChan parsed) w2) as [acc w3].
    cbn [fst snd] in *.
    assert (Hnew : forall line, newRequests w (printMain line w3) = new).
    { intros line. unfold newRequests. cbn [cwRequests printMain].
      rewrite Hreq, Hreq2, skipn_app, skipn_all, Nat.sub_diag. done. }
    assert (Hemitted' : forall line,
               emitted w (printMain line w3)
               = sort_Slice byTimestamp <$> batches [] 0 (toEvent <$> entryChan parsed)).
    { intros line. rewrite <- Hemitted. unfold emitted. f_equal.
      rewrite Hnew. unfold newRequests. rewrite Hreq, skipn_app, skipn_all, Nat.sub_diag. done. }
    exists parsed, perr. split; [done|]. split; [done|]. split; [done|].
    split; [apply Hemitted'|]. split; [|split].
    + rewrite Hemitted'.
      pose proof (batches_concat [] 0 (toEvent <$> entryChan parsed)) as Hc.
      cbn [app] in Hc. rewrite <- Hc at 2. clear Hc.
      generalize (batches [] 0 (toEvent <$> entryChan parsed)). intros bs.
      induction bs as [|b bs IH]; [done|].
      rewrite fmap_cons. cbn [concat].
      apply Permutation_app; [apply sort_Slice_perm|exact IH].
    + exists lines. rewrite Hnew. cbn [printedAcc printMain]. by rewrite Hlines, Hacc2.
    + intros err ->. cbn [printedMain printMain]. rewrite Hmain. subst w2. cbn.
      apply elem_of_app. left. apply elem_of_app. right. by left.
Qed.

(** A run on the record of the tests against a service that refuses every
    request: the one batch is sent once, the refusal is printed, and
    [ProcessLogs] returns nil. *)
Example ProcessLogs_refused :
  let run := ProcessLogs (processorWith (storeOf [sampleLine 1]) refusingService)
               testObject emptyWorld in
  run.1 = Ret None
  /\ emitted emptyWorld run.2 = [[toEvent sampleEntry]]
  /\ printedAcc run.2
     = ["error sending events to CloudWatch: ThrottlingException: Rate exceeded"]
  /\ printedMain run.2 = ["processed 1 log entries"].
Proof. vm_compute. repeat split; reflexivity. Qed.

(** C4.  A configuration with a field that is no column does not stop
    [NewLogProcessor]: it drops the error of [NewFields] and returns, with a
    nil error, a processor whose field store is the nil pointer.
    [ProcessLogs] on that processor fetches the object and panics at the
    first record that has 30 fields and a timestamp, in [IncludeField]. *)
Theorem invalid_fields_not_reported `{GoLibrary} (sess : Session) (config : Config)
  (w w1 : World) (err : error) (s3Object : S3ObjectInfo) (raw : rawRecord)
  (rest : list rawRecord) (t : Time) :
  NewFields (cfgFields config) = (None, Some err) ->
  EnsureLogGroupAndLogStreamExists (sessCloudWatch sess)
    (mkLogConfig (cfgLogGroupName config) (cfgLogStreamName config)) w = (None, w1) ->
  GetObject (sessS3 sess) s3Object = (raw :: rest, None) ->
  rawErr raw = None -> llen (rawFields raw) = 30 ->
  time_Parse RFC3339 (nth 1 (rawFields raw) "") = (t, None) ->
  exists lp,
    NewLogProcessor sess config w = (Some lp, None, w1)
    /\ fieldStore lp = None
    /\ forall w2,
         (ProcessLogs lp s3Object w2).1 = Panic nilDereference
         /\ s3Requests (ProcessLogs lp s3Object w2).2 = s3Requests w2 ++ [s3Object].
Proof.
  intros Hnew Hensure Hget Herr Hlen Htime.
  unfold NewLogProcessor. rewrite Hnew, Hensure.
  eexists. split; [reflexivity|]. split; [reflexivity|].
  intros w2. unfold ProcessLogs. cbn [s3Client fieldStore]. rewrite Hget.
  unfold processRecords, setComma, csv_NewReader.
  cbn [pending FieldsPerRecord Comma List.length processRecordsLoop].
  rewrite (Read_first _ raw rest) by done. rewrite Herr.
  unfold recordToLogEntry. change (llen fieldNames) with 30.
  rewrite Hlen, Z.eqb_refl. cbn [negb]. rewrite Htime.
  destruct (rawFields raw) as [|value record]; [done|].
  cbn. done.
Qed.

(** C4, at the configuration [FIELDS=bogus_field] and an object that holds
    the record of the tests. *)
Lemma invalid_fields_not_reported_witness :
  exists lp,
    NewLogProcessor (mkSession (storeOf [sampleLine 1]) readyService)
      (mkConfig "test-log-group" "test-log-stream" "bogus_field") emptyWorld
    = (Some lp, None, emptyWorld)
    /\ fieldStore lp = None
    /\ forall w2,
         (ProcessLogs lp testObject w2).1 = Panic nilDereference
         /\ s3Requests (ProcessLogs lp testObject w2).2 = s3Requests w2 ++ [testObject].
Proof.
  apply (invalid_fields_not_reported (mkSession (storeOf [sampleLine 1]) readyService)
           (mkConfig "test-log-group" "test-log-stream" "bogus_field") emptyWorld emptyWorld
           (errorString "invalid field name 'bogus_field' provided") testObject
           (sampleLine 1) [] (mkTime 1711037426 71854000)).
  - vm_compute. reflexivity.
  - vm_compute. reflexivity.
  - reflexivity.
  - reflexivity.
  - vm_compute. reflexivity.
  - vm_compute. reflexivity.
Defined.

(** ** handler.go: the fan-out scheduler *)

Section SchedulerFacts.

Variable lp : LogProcessor.

Lemma setTask_other (i j : nat) (pc : TaskPC) (s : Sched) :
  i <> j -> setTask i pc s !! j = tasks s !! j.
Proof.
  intros Hne. unfold setTask.
  destruct (tasks s !! i) as [[o ?]|]; [|done].
  by apply list_lookup_insert_ne.
Qed.

(** Once the caller has returned, nobody receives from [errs]: a goroutine
    at its send stays there, whatever moves next. *)
Lemma step_sender_stays (a : Action) (s s' : Sched) (i : nat) (o : S3ObjectInfo)
  (e : error) (r : option error) :
  mainPC s = MReturned r -> tasks s !! i = Some (o, TSend e) ->
  step lp a s = Some s' ->
  mainPC s' = MReturned r /\ tasks s' !! i = Some (o, TSend e).
Proof.
  intros Hmain Htask. destruct a as [|j| |j]; cbn [step].
  - by rewrite Hmain.
  - destruct (decide (j = i)) as [->|Hne]; [by rewrite Htask|].
    destruct (tasks s !! j) as [[o' [| | | |]]|]; try done.
    + intros [= <-]. cbn. by rewrite setTask_other.
    + intros [= <-]. cbn. by rewrite setTask_other.
    + destruct (concurrent s >? 0); [|done].
      intros [= <-]. cbn. by rewrite setTask_other.
  - destruct (closer s); [done| | |done].
    + destruct (wg s =? 0); [|done]. by intros [= <-].
    + by intros [= <-].
  - by rewrite Hmain.
Qed.

Lemma run_sender_stays (schedule : list Action) (s s' : Sched) (i : nat)
  (o : S3ObjectInfo) (e : error) (r : option error) :
  mainPC s = MReturned r -> tasks s !! i = Some (o, TSend e) ->
  run lp schedule s = Some s' ->
  mainPC s' = MReturned r /\ tasks s' !! i = Some (o, TSend e).
Proof.
  revert s. induction schedule as [|a schedule IH]; intros s Hmain Htask; cbn [run].
  - by intros [= <-].
  - destruct (step lp a s) as [s1|] eqn:Hstep; [|done].
    destruct (step_sender_stays a s s1 i o e r Hmain Htask Hstep) as [Hmain1 Htask1].
    by apply IH.
Qed.

(** The invariant of the runs. *)
Lemma schedInv_init (s3Objects : list S3ObjectInfo) : schedInv lp s3Objects (initSched s3Objects).
Proof. split; [apply Forall_nil_2|cbn; set_solver]. Qed.

Lemma setTask_inv (s3Objects : list S3ObjectInfo) (s : Sched) (i : nat) (o : S3ObjectInfo)
  (pc pc' : TaskPC) :
  Forall (taskInv lp s3Objects) (tasks s) -> tasks s !! i = Some (o, pc) ->
  (o ∈ s3Objects -> taskInv lp s3Objects (o, pc')) ->
  Forall (taskInv lp s3Objects) (setTask i pc' s).
Proof.
  intros Hall Hi Hpc. unfold setTask. rewrite Hi.
  apply Forall_insert; [done|]. apply Hpc.
  by destruct (Forall_lookup_1 _ _ _ _ Hall Hi) as [? _].
Qed.

Lemma schedInv_step (s3Objects : list S3ObjectInfo) (a : Action) (s s' : Sched) :
  schedInv lp s3Objects s -> step lp a s = Some s' -> schedInv lp s3Objects s'.
Proof.
  intros [Htasks Hmain]. destruct a as [|i| |i]; cbn [step].
  - destruct (mainPC s) as [[|o rest]|o rest|o rest| | |r] eqn:Hpc.
    + intros [= <-]. by split.
    + intros [= <-]. split; [done|]. cbn. split; [set_solver|set_solver].
    + destruct (concurrent s <? concurrency); [|done]. intros [= <-]. by split.
    + intros [= <-]. destruct Hmain as [Ho Hrest]. split; [|done]. cbn.
      apply Forall_app. split; [done|]. constructor; [|constructor]. by split.
    + intros [= <-]. by split.
    + destruct (errsClosed s); [|done]. intros [= <-]. by split.
    + done.
  - destruct (tasks s !! i) as [[o [|e| | |]]|] eqn:Hi; try done.
    + intros [= <-]. split; [|done]. cbn.
      eapply setTask_inv; [done|exact Hi|]. intros Ho. split; [done|]. cbn.
      destruct (lp o) as [err|] eqn:Hlp; [|done]. by exists o, err.
    + intros [= <-]. split; [|done]. cbn. by eapply setTask_inv.
    + destruct (concurrent s >? 0); [|done].
      intros [= <-]. split; [|done]. cbn. by eapply setTask_inv.
  - destruct (closer s); [done| | |done].
    + destruct (wg s =? 0); [|done]. intros [= <-]. by split.
    + intros [= <-]. by split.
  - destruct (mainPC s); try done.
    destruct (tasks s !! i) as [[o [|e| | |]]|] eqn:Hi; try done.
    destruct (errsClosed s); [done|]. intros [= <-]. split; cbn.
    + by eapply setTask_inv.
    + by destruct (Forall_lookup_1 _ _ _ _ Htasks Hi) as [_ ?].
Qed.

Lemma schedInv_run (s3Objects : list S3ObjectInfo) (schedule : list Action) (s s' : Sched) :
  schedInv lp s3Objects s -> run lp schedule s = Some s' -> schedInv lp s3Objects s'.
Proof.
  revert s. induction schedule as [|a schedule IH]; intros s Hinv; cbn [run].
  - by intros [= <-].
  - destruct (step lp a s) as [s1|] eqn:Hstep; [|done].
    apply IH. by eapply schedInv_step.
Qed.

(** The error [processS3Objects] returns is the error of one of its
    objects, formatted with the bucket and the key. *)
Lemma returned_error_names_object (s3Objects : list S3ObjectInfo) (schedule : list Action)
  (s : Sched) (e : error) :
  run lp schedule (initSched s3Objects) = Some s ->
  returned s = Some (Some e) -> namesObject lp s3Objects e.
Proof.
  intros Hrun Hret.
  destruct (schedInv_run s3Objects schedule _ s (schedInv_init s3Objects) Hrun) as [_ Hmain].
  unfold returned in Hret. destruct (mainPC s) as [| | | | |[e'|]]; try done.
  by injection Hret as ->.
Qed.

End SchedulerFacts.

(** C3.  With two objects on which [ProcessLogs] fails, [processS3Objects]
    returns the error of the first, formatted with its bucket and key, while
    the goroutine of the second is at its send on [errs]; whatever is
    scheduled afterwards, that goroutine is still there: it never
    completes, and the caller has not waited for it. *)
Theorem first_error_abandons_sender :
  exists s,
    run failingProcessor firstErrorSchedule (initSched [object1; object2]) = Some s
    /\ returned s
       = Some (Some (errorString
            "error processing logs for s3://test-bucket/key1: failed to get object: NoSuchKey"))
    /\ taskSending 1 s = true
    /\ forall schedule s',
         run failingProcessor schedule s = Some s' ->
         returned s' = returned s /\ taskSending 1 s' = true /\ taskCompleted 1 s' = false.
Proof.
  eexists. split; [vm_compute; reflexivity|].
  split; [reflexivity|]. split; [reflexivity|].
  intros schedule s' Hrun.
  eapply (run_sender_stays _ _ _ _ 1%nat) in Hrun as [Hmain Htask];
    [|reflexivity|reflexivity].
  unfold returned, taskSending, taskCompleted. by rewrite Hmain, Htask.
Qed.

(** With eleven objects on which [ProcessLogs] fails, the caller can be left
    waiting for an eleventh permit while the ten goroutines that hold the
    permits wait at their send for the caller to receive: no goroutine can
    move, and [processS3Objects] has not returned. *)
Lemma eleven_failures_deadlock :
  exists s,
    run failingProcessor elevenSchedule (initSched elevenObjects) = Some s
    /\ returned s = None
    /\ deadlocked failingProcessor s.
Proof.
  eexists. split; [vm_compute; reflexivity|]. split; [reflexivity|].
  intros [|i| |i]; try reflexivity.
  do 10 (destruct i as [|i]; [reflexivity|]). reflexivity.
Qed.

(** * More properties of the code *)

(** ** fields.go *)

Section MoreFieldsFacts.

Lemma validFieldMap_is_Some (name : string) :
  is_Some (validFieldMap !! name) <-> name ∈ fieldNames.
Proof.
  rewrite validFieldMap_lookup. case_bool_decide as Hin.
  - split; [done|by eexists].
  - split; [by intros [? ?]|done].
Qed.

Lemma includeConfigured_valid (fields : list string) (m : gmap string bool) :
  Forall (fun f => strings.TrimSpace f ∈ fieldNames) fields ->
  exists fs, includeConfigured fields m = (Some fs, None).
Proof.
  intros Hall. revert m. induction Hall as [|f fields Hf _ IH]; intros m;
    cbn [includeConfigured]; [by eexists|].
  apply validFieldMap_is_Some in Hf as [b ->]. apply IH.
Qed.

Lemma includeConfigured_first_unknown (good : list string) (bad : string)
  (rest : list string) (m : gmap string bool) :
  Forall (fun f => strings.TrimSpace f ∈ fieldNames) good ->
  strings.TrimSpace bad ∉ fieldNames ->
  includeConfigured (good ++ bad :: rest) m
  = (None, Some (errorString ("invalid field name '" +:+ strings.TrimSpace bad
                              +:+ "' provided"))).
Proof.
  intros Hgood Hbad. revert m.
  induction Hgood as [|f good Hf _ IH]; intros m; cbn [app includeConfigured].
  - destruct (validFieldMap !! strings.TrimSpace bad) eqn:Hv; [|done].
    destruct Hbad. apply validFieldMap_is_Some. by eexists.
  - apply validFieldMap_is_Some in Hf as [b ->]. apply IH.
Qed.

Lemma includeConfigured_ok_valid (fields : list string) (m : gmap string bool)
  (fs : IncludedFields) :
  includeConfigured fields m = (Some fs, None) ->
  Forall (fun f => strings.TrimSpace f ∈ fieldNames) fields.
Proof.
  revert m. induction fields as [|f fields IH]; intros m; cbn [includeConfigured];
    [constructor|].
  destruct (validFieldMap !! strings.TrimSpace f) eqn:Hv; [|done].
  intros Hok. constructor; [|by eapply IH].
  apply validFieldMap_is_Some. by eexists.
Qed.

Lemma fieldNames_NoDup : NoDup fieldNames.
Proof. by apply (bool_decide_unpack _). Qed.

Lemma getFieldIndexFrom_absent (k : Z) (names : list string) (name : string) :
  name ∉ names -> getFieldIndexFrom k names name = -1.
Proof.
  revert k. induction names as [|n names IH]; intros k Hno; cbn [getFieldIndexFrom]; [done|].
  destruct (String.eqb_spec n name) as [->|_]; [destruct Hno; by left|].
  apply IH. intros Hin. apply Hno. by right.
Qed.

Lemma getFieldIndexFrom_range (k : Z) (names : list string) (name : string) :
  name ∈ names -> k <= getFieldIndexFrom k names name < k + llen names.
Proof.
  revert k. induction names as [|n names IH]; intros k Hin; cbn [getFieldIndexFrom].
  - by apply elem_of_nil in Hin.
  - unfold llen. cbn [List.length].
    destruct (String.eqb_spec n name) as [->|Hne]; [lia|].
    apply elem_of_cons in Hin as [?|Hin]; [done|].
    specialize (IH (k + 1) Hin). unfold llen in IH. lia.
Qed.

Lemma getFieldIndexFrom_nth (k : Z) (names : list string) (j : nat) :
  NoDup names -> (j < List.length names)%nat ->
  getFieldIndexFrom k names (nth j names "") = k + Z.of_nat j.
Proof.
  intros Hnd. revert k j. induction Hnd as [|n names Hn Hnd IH]; intros k j Hj;
    cbn [List.length] in Hj; [lia|].
  cbn [getFieldIndexFrom]. destruct j as [|j]; cbn [nth].
  - rewrite String.eqb_refl. lia.
  - destruct (String.eqb_spec n (nth j names "")) as [Heq|_].
    + destruct Hn. rewrite Heq. apply list_elem_of_In, nth_In. lia.
    + rewrite IH by lia. lia.
Qed.

Lemma nth_getFieldIndexFrom (k : Z) (names : list string) (name : string) :
  name ∈ names ->
  nth (Z.to_nat (getFieldIndexFrom k names name - k)) names "" = name.
Proof.
  revert k. induction names as [|n names IH]; intros k Hin; cbn [getFieldIndexFrom].
  - by apply elem_of_nil in Hin.
  - destruct (String.eqb_spec n name) as [->|Hne].
    + by rewrite Z.sub_diag.
    + apply elem_of_cons in Hin as [?|Hin]; [done|].
      pose proof (getFieldIndexFrom_range (k + 1) names name Hin).
      replace (Z.to_nat (getFieldIndexFrom (k + 1) names name - k))
        with (S (Z.to_nat (getFieldIndexFrom (k + 1) names name - (k + 1)))) by lia.
      cbn [nth]. by apply IH.
Qed.

End MoreFieldsFacts.

(** X1.  [NewFields] resolves a configuration exactly when it is empty or
    each of its tokens between commas, trimmed, is a column of the schema. *)
Theorem NewFields_succeeds_iff (fieldsConfig : string) :
  (exists fs, NewFields fieldsConfig = (Some fs, None))
  <-> fieldsConfig = ""
      \/ Forall (fun name => name ∈ fieldNames) (configuredNames fieldsConfig).
Proof.
  unfold NewFields, configuredNames.
  destruct (String.eqb_spec fieldsConfig "") as [->|Hne].
  - split; [by left|by eexists].
  - rewrite Forall_fmap. split.
    + intros [fs Hok]. right. by eapply includeConfigured_ok_valid.
    + intros [?|Hall]; [done|]. by apply includeConfigured_valid.
Qed.

(** X2.  When a token of a configuration is no column, [NewFields] returns
    no selection and the error names the first such token, trimmed. *)
Theorem NewFields_first_unknown (fieldsConfig : string) (good : list string) (bad : string)
  (rest : list string) :
  fieldsConfig <> "" ->
  strings.Split fieldsConfig "," = good ++ bad :: rest ->
  Forall (fun f => strings.TrimSpace f ∈ fieldNames) good ->
  strings.TrimSpace bad ∉ fieldNames ->
  NewFields fieldsConfig
  = (None, Some (errorString ("invalid field name '" +:+ strings.TrimSpace bad
                              +:+ "' provided"))).
Proof.
  intros Hne Hsplit Hgood Hbad. unfold NewFields.
  destruct (String.eqb_spec fieldsConfig "") as [?|_]; [done|].
  rewrite Hsplit. by apply includeConfigured_first_unknown.
Qed.

(** X2, at a configuration whose second and third tokens are no columns. *)
Lemma NewFields_first_unknown_witness :
  NewFields "type, bogus ,nope"
  = (None, Some (errorString ("invalid field name '" +:+ strings.TrimSpace " bogus "
                              +:+ "' provided"))).
Proof.
  apply (NewFields_first_unknown "type, bogus ,nope" ["type"] " bogus " ["nope"]).
  - discriminate.
  - reflexivity.
  - constructor; [|constructor]. by apply (bool_decide_unpack _).
  - by apply (bool_decide_unpack _).
Defined.

(** X3.  The selection depends on the set of the names a configuration
    lists only: two configurations that are not empty and list the same
    names, in any order, with any repetition and any white space around
    them, resolve to the same selection. *)
Theorem NewFields_same_names (config1 config2 : string) (fs : IncludedFields) :
  config1 <> "" -> config2 <> "" ->
  (forall name, name ∈ configuredNames config1 <-> name ∈ configuredNames config2) ->
  NewFields config1 = (Some fs, None) ->
  NewFields config2 = (Some fs, None).
Proof.
  intros Hne1 Hne2 Hsame. unfold NewFields.
  destruct (String.eqb_spec config1 "") as [?|_]; [done|].
  destruct (String.eqb_spec config2 "") as [?|_]; [done|].
  intros Hok1.
  assert (Hvalid2 : Forall (fun f => strings.TrimSpace f ∈ fieldNames)
                      (strings.Split config2 ",")).
  { pose proof (includeConfigured_ok_valid _ _ _ Hok1) as Hvalid1.
    rewrite List.Forall_forall in Hvalid1. apply List.Forall_forall. intros f Hf.
    assert (Hin : strings.TrimSpace f ∈ configuredNames config1).
    { apply Hsame. unfold configuredNames. apply list_elem_of_fmap.
      exists f. split; [done|]. by apply list_elem_of_In. }
    unfold configuredNames in Hin. apply list_elem_of_fmap in Hin as (f1 & -> & Hf1).
    apply Hvalid1. by apply list_elem_of_In. }
  destruct (includeConfigured_valid _ ∅ Hvalid2) as [fs2 Hok2].
  rewrite Hok2. do 2 f_equal.
  destruct fs as [m1], fs2 as [m2]. f_equal. apply map_eq. intros k.
  pose proof (includeConfigured_ok _ _ _ Hok1 k) as H1.
  pose proof (includeConfigured_ok _ _ _ Hok2 k) as H2.
  cbn [includedFieldsMap] in H1, H2. rewrite H1, H2.
  fold (configuredNames config1). fold (configuredNames config2).
  destruct (decide (k ∈ configuredNames config1)) as [Hin|Hnin].
  - pose proof (proj1 (Hsame k) Hin) as Hin2.
    by rewrite (bool_decide_eq_true_2 _ Hin), (bool_decide_eq_true_2 _ Hin2).
  - assert (Hnin2 : k ∉ configuredNames config2) by (intros Hin2; by apply Hnin, Hsame).
    by rewrite (bool_decide_eq_false_2 _ Hnin), (bool_decide_eq_false_2 _ Hnin2).
Qed.

(** X3, at two configurations that list [type] and [time]. *)
Lemma NewFields_same_names_witness :
  exists fs,
    NewFields "type, time" = (Some fs, None)
    /\ NewFields "time,type,time" = (Some fs, None).
Proof.
  destruct (NewFields "type, time") as [[fs|] [err|]] eqn:Hnew;
    try (vm_compute in Hnew; discriminate Hnew).
  exists fs. split; [reflexivity|].
  apply (NewFields_same_names "type, time" "time,type,time" fs).
  - discriminate.
  - discriminate.
  - intros name.
    change (configuredNames "type, time") with ["type"; "time"].
    change (configuredNames "time,type,time") with ["time"; "type"; "time"].
    rewrite !elem_of_cons, !elem_of_nil. tauto.
  - exact Hnew.
Defined.

(** X4.  Index and name of a column determine each other: the index of the
    name [GetFieldNameByIndex] returns for an index of the schema is that
    index, [GetFieldNameByIndex] at the index of a column name returns the
    name with a nil error, whatever the receiver, and [getFieldIndex] is
    [-1] exactly on the names that are no column. *)
Theorem getFieldIndex_round_trip :
  (forall (fs : Fields) (index : Z),
      0 <= index < llen fieldNames ->
      getFieldIndex (GetFieldNameByIndex fs index).1 = index)
  /\ (forall (fs : Fields) (name : string),
        name ∈ fieldNames ->
        GetFieldNameByIndex fs (getFieldIndex name) = (name, None))
  /\ (forall name : string, name ∉ fieldNames <-> getFieldIndex name = -1).
Proof.
  split; [|split].
  - intros fs index Hr. unfold GetFieldNameByIndex, getFieldIndex, fieldNameAt.
    destruct (Z.ltb_spec index 0); [lia|].
    destruct (Z.geb_spec index (llen fieldNames)); [lia|]. cbn [orb fst].
    rewrite getFieldIndexFrom_nth; [lia|apply fieldNames_NoDup|unfold llen in Hr; lia].
  - intros fs name Hin. unfold GetFieldNameByIndex, getFieldIndex, fieldNameAt.
    pose proof (getFieldIndexFrom_range 0 fieldNames name Hin) as Hr.
    destruct (Z.ltb_spec (getFieldIndexFrom 0 fieldNames name) 0); [lia|].
    destruct (Z.geb_spec (getFieldIndexFrom 0 fieldNames name) (llen fieldNames)); [lia|].
    cbn [orb]. f_equal.
    pose proof (nth_getFieldIndexFrom 0 fieldNames name Hin) as Hnth.
    by rewrite Z.sub_0_r in Hnth.
  - intros name. unfold getFieldIndex. split.
    + apply getFieldIndexFrom_absent.
    + intros Hidx Hin.
      pose proof (getFieldIndexFrom_range 0 fieldNames name Hin). lia.
Qed.

(** ** config.go: [LoadConfigFromEnv] *)

(** X5.  The configuration loads exactly when [LOG_GROUP_NAME] and
    [LOG_STREAM_NAME] are set to values that are not empty (a variable set
    to the empty string counts as missing); the group is checked first, so
    its error is the one returned when both are missing.  [FIELDS] is
    optional: when it is not set the configuration loads with the empty
    selection string, which [NewFields] resolves to all the columns. *)
Theorem LoadConfigFromEnv_spec (env : gmap string string) :
  ((exists config, LoadConfigFromEnv env = (config, None))
   <-> Getenv env "LOG_GROUP_NAME" <> "" /\ Getenv env "LOG_STREAM_NAME" <> "")
  /\ (Getenv env "LOG_GROUP_NAME" = "" ->
        LoadConfigFromEnv env
        = (mkConfig "" "" "",
           Some (errorString "environment variable LOG_GROUP_NAME is required")))
  /\ (Getenv env "LOG_GROUP_NAME" <> "" -> Getenv env "LOG_STREAM_NAME" = "" ->
        LoadConfigFromEnv env
        = (mkConfig "" "" "",
           Some (errorString "environment variable LOG_STREAM_NAME is required")))
  /\ (forall config, LoadConfigFromEnv env = (config, None) ->
        config = mkConfig (Getenv env "LOG_GROUP_NAME") (Getenv env "LOG_STREAM_NAME")
                   (Getenv env "FIELDS")
        /\ (env !! "FIELDS" = None ->
              exists fs, NewFields (cfgFields config) = (Some fs, None) /\ includesAll fs)).
Proof.
  unfold LoadConfigFromEnv.
  destruct (String.eqb_spec (Getenv env "LOG_GROUP_NAME") "") as [Hg|Hg];
    [|destruct (String.eqb_spec (Getenv env "LOG_STREAM_NAME") "") as [Hs|Hs]].
  - split; [split; [by intros [? ?]|by intros [? _]]|]. split; [done|].
    split; [done|]. by intros config.
  - split; [split; [by intros [? ?]|by intros [_ ?]]|]. split; [done|].
    split; [done|]. by intros config.
  - split; [split; [done|by eexists]|]. split; [done|]. split; [done|].
    intros config [= <-]. split; [done|].
    intros Hf. cbn [cfgFields]. unfold Getenv at 1. rewrite Hf. cbn [default].
    apply NewFields_empty_includesAll.
Qed.

(** ** cloudwatch.go: the bootstrap of the log group and the log stream *)

Section EnsureFacts.

Lemma existsb_eqb_elem (names : list string) (name : string) :
  existsb (fun g => String.eqb g name) names = true <-> name ∈ names.
Proof.
  rewrite existsb_exists. split.
  - intros (g & Hin & Heq). apply String.eqb_eq in Heq as ->. by apply list_elem_of_In.
  - intros Hin. exists name. split; [by apply list_elem_of_In|apply String.eqb_refl].
Qed.

Lemma ensureLogGroupExists_nil (client : CloudWatchLogsAPI) (name : string) (w : World) :
  (ensureLogGroupExists client name w).1 = None
  <-> (DescribeLogGroups client).2 = None
      /\ (name ∈ (DescribeLogGroups client).1 \/ CreateLogGroup client name = None).
Proof.
  unfold ensureLogGroupExists.
  destruct (DescribeLogGroups client) as [groups [err|]]; cbn [fst snd].
  - split; [done|by intros [? _]].
  - destruct (existsb _ groups) eqn:Hex; cbn [fst].
    + apply existsb_eqb_elem in Hex. split; [by split; [|left]|done].
    + split; [by split; [|right]|]. intros [_ [Hin|?]]; [|done].
      apply existsb_eqb_elem in Hin. congruence.
Qed.

Lemma ensureLogStreamExists_nil (client : CloudWatchLogsAPI) (group name : string)
  (w : World) :
  (ensureLogStreamExists client group name w).1 = None
  <-> (DescribeLogStreams client group).2 = None
      /\ (name ∈ (DescribeLogStreams client group).1
          \/ CreateLogStream client group name = None).
Proof.
  unfold ensureLogStreamExists.
  destruct (DescribeLogStreams client group) as [streams [err|]]; cbn [fst snd].
  - split; [done|by intros [? _]].
  - destruct (existsb _ streams) eqn:Hex; cbn [fst].
    + apply existsb_eqb_elem in Hex. split; [by split; [|left]|done].
    + split; [by split; [|right]|]. intros [_ [Hin|?]]; [|done].
      apply existsb_eqb_elem in Hin. congruence.
Qed.

End EnsureFacts.

(** X6.  [EnsureLogGroupAndLogStreamExists] returns nil exactly when both
    listings succeed, the group is listed or its creation succeeds, and the
    stream is listed or its creation succeeds.  When the listing of the
    groups or the creation of the group fails, that error is returned as it
    is; when the group and the stream are both listed, nothing is created:
    the world is left as it was, without a line announcing a creation. *)
Theorem EnsureLogGroupAndLogStreamExists_spec (client : CloudWatchLogsAPI)
  (logConfig : LogConfig) (w : World) :
  let group := lcLogGroupName logConfig in
  let stream := lcLogStreamName logConfig in
  ((EnsureLogGroupAndLogStreamExists client logConfig w).1 = None
   <-> ((DescribeLogGroups client).2 = None
        /\ (group ∈ (DescribeLogGroups client).1 \/ CreateLogGroup client group = None))
       /\ (DescribeLogStreams client group).2 = None
       /\ (stream ∈ (DescribeLogStreams client group).1
           \/ CreateLogStream client group stream = None))
  /\ (forall err, (ensureLogGroupExists client group w).1 = Some err ->
        (EnsureLogGroupAndLogStreamExists client logConfig w).1 = Some err)
  /\ ((DescribeLogGroups client).2 = None -> group ∈ (DescribeLogGroups client).1 ->
      (DescribeLogStreams client group).2 = None ->
      stream ∈ (DescribeLogStreams client group).1 ->
      EnsureLogGroupAndLogStreamExists client logConfig w = (None, w)).
Proof.
  cbv zeta. unfold EnsureLogGroupAndLogStreamExists. split; [|split].
  - pose proof (ensureLogGroupExists_nil client (lcLogGroupName logConfig) w) as Hg.
    destruct (ensureLogGroupExists client (lcLogGroupName logConfig) w) as [[err|] w1];
      cbn [fst] in *.
    + split; [done|]. intros [Hok _]. by apply Hg in Hok.
    + rewrite ensureLogStreamExists_nil. split; [intros Hs; split; [by apply Hg|done]|].
      by intros [_ ?].
  - intros err.
    destruct (ensureLogGroupExists client (lcLogGroupName logConfig) w) as [[err'|] w1];
      cbn [fst]; [done|done].
  - intros Hdg Hg Hds Hs. unfold ensureLogGroupExists, ensureLogStreamExists.
    destruct (DescribeLogGroups client) as [groups [?|]]; [done|]. cbn [fst] in Hg.
    apply existsb_eqb_elem in Hg. rewrite Hg.
    destruct (DescribeLogStreams client (lcLogGroupName logConfig)) as [streams [?|]];
      [done|]. cbn [fst] in Hs.
    apply existsb_eqb_elem in Hs. by rewrite Hs.
Qed.

(** ** handler.go: the listing of [HandleS3URL] *)

Section ListingFacts.

Variable ListObjectsV2 : ListObjectsV2API.
Variables bucket prefix : string.

Lemma listObjects_serves (pages : list ListObjectsV2Output) (token : option string)
  (rounds : nat) (s3Objects : list S3ObjectInfo) :
  serves ListObjectsV2 bucket prefix token pages ->
  (List.length pages <= rounds)%nat ->
  listObjects rounds ListObjectsV2 bucket prefix token s3Objects
  = Some (s3Objects ++ objectsOf bucket pages, None).
Proof.
  intros Hserves. revert rounds s3Objects.
  induction Hserves as [token resp Hresp Hlast|token resp rest Hresp Hmore _ IH];
    intros rounds s3Objects Hlen; cbn [List.length] in Hlen;
    (destruct rounds as [|rounds]; [lia|]); cbn [listObjects]; rewrite Hresp.
  - unfold objectsOf. cbn [mbind list_bind]. rewrite app_nil_r.
    by destruct (IsTruncated resp) as [[|]|].
  - rewrite Hmore, IH by lia. unfold objectsOf. cbn [mbind list_bind].
    by rewrite app_assoc.
Qed.

Lemma listObjects_failsAfter (pages : list ListObjectsV2Output) (token : option string)
  (err : error) (rounds : nat) (s3Objects : list S3ObjectInfo) :
  failsAfter ListObjectsV2 bucket prefix token pages err ->
  (List.length pages < rounds)%nat ->
  listObjects rounds ListObjectsV2 bucket prefix token s3Objects
  = Some ([], Some (errorString ("failed to list objects: " +:+ Error err))).
Proof.
  intros Hfails. revert rounds s3Objects.
  induction Hfails as [token resp err Hresp|token resp rest err Hresp Hmore _ IH];
    intros rounds s3Objects Hlen; cbn [List.length] in Hlen;
    (destruct rounds as [|rounds]; [lia|]); cbn [listObjects]; rewrite Hresp; [done|].
  rewrite Hmore. apply IH. lia.
Qed.

End ListingFacts.

(** X7.  On a URL [s3://bucket/prefix] and a listing that ends after finitely
    many pages, [HandleS3URL] hands [processS3Objects] one object per key of
    every page, in the order of the listing, all in the bucket of the URL;
    it follows the continuation tokens and stops at the first page that is
    not truncated ([IsTruncated] nil or false). *)
Theorem HandleS3URL_lists_all (rounds : nat) (ListObjectsV2 : ListObjectsV2API)
  (bucket prefix : string) (pages : list ListObjectsV2Output) :
  ~ occurs "/" bucket ->
  serves ListObjectsV2 bucket prefix None pages ->
  (List.length pages <= rounds)%nat ->
  HandleS3URL rounds ListObjectsV2 ("s3://" +:+ bucket +:+ "/" +:+ prefix)
  = Some (objectsOf bucket pages, None).
Proof.
  intros Hbucket Hserves Hlen. unfold HandleS3URL.
  rewrite ParseS3URL_ok_shape by done.
  by rewrite (listObjects_serves _ _ _ pages).
Qed.

(** X7, at a listing of two pages. *)
Lemma HandleS3URL_lists_all_witness :
  HandleS3URL 2 twoPages ("s3://" +:+ "mybucket" +:+ "/" +:+ "logs/")
  = Some (objectsOf "mybucket"
            [mkListObjectsV2Output ["logs/a.gz"; "logs/b.gz"] (Some true) (Some "t1");
             mkListObjectsV2Output ["logs/c.gz"] None None], None).
Proof.
  apply HandleS3URL_lists_all.
  - unfold occurs. cbn. intros H. repeat (destruct H as [H|H]; [discriminate H|]). exact H.
  - eapply serves_more; [reflexivity|reflexivity|].
    apply serves_last; [reflexivity|discriminate].
  - cbn. lia.
Defined.

(** X8.  [HandleS3URL] returns before any processing when the URL does not
    parse, whatever the store would list, and when a request of the listing
    fails: the objects of the pages listed before the failure are dropped
    with it. *)
Theorem HandleS3URL_errors (rounds : nat) (ListObjectsV2 : ListObjectsV2API) :
  (forall url bucket prefix err,
      ParseS3URL url = (bucket, prefix, Some err) ->
      HandleS3URL rounds ListObjectsV2 url
      = Some ([], Some (errorString ("failed to parse S3 URL: " +:+ Error err))))
  /\ (forall bucket prefix pages err,
        ~ occurs "/" bucket ->
        failsAfter ListObjectsV2 bucket prefix None pages err ->
        (List.length pages < rounds)%nat ->
        HandleS3URL rounds ListObjectsV2 ("s3://" +:+ bucket +:+ "/" +:+ prefix)
        = Some ([], Some (errorString ("failed to list objects: " +:+ Error err)))).
Proof.
  split.
  - intros url bucket prefix err Hparse. unfold HandleS3URL. by rewrite Hparse.
  - intros bucket prefix pages err Hbucket Hfails Hlen. unfold HandleS3URL.
    rewrite ParseS3URL_ok_shape by done.
    by rewrite (listObjects_failsAfter _ _ _ pages _ err).
Qed.

Example HandleS3URL_second_page_fails :
  HandleS3URL 5 secondPageFails "s3://mybucket/logs/"
  = Some ([], Some (errorString "failed to list objects: SlowDown"))
  /\ HandleS3URL 5 twoPages "mybucket/logs/"
     = Some ([], Some (errorString
                         "failed to parse S3 URL: invalid S3 URL, missing 's3://' prefix"))
  /\ HandleS3URL 1 twoPages "s3://mybucket/logs/" = None.
Proof. repeat split; reflexivity. Qed.

(** ** processor.go: [recordToLogEntry] and [processRecords] *)

Section ProjectionFacts.

Context `{GoLibrary}.

Lemma fieldNameAt_index (k : Z) (name : string) :
  0 <= k < llen fieldNames -> fieldNameAt k = name <-> getFieldIndex name = k.
Proof.
  intros Hr. unfold fieldNameAt, getFieldIndex. split.
  - intros <-. rewrite getFieldIndexFrom_nth; [lia|apply fieldNames_NoDup|].
    unfold llen in Hr. lia.
  - intros Hidx.
    assert (Hin : name ∈ fieldNames).
    { destruct (decide (name ∈ fieldNames)) as [|Hno]; [done|].
      rewrite (getFieldIndexFrom_absent 0 fieldNames name Hno) in Hidx. lia. }
    pose proof (nth_getFieldIndexFrom 0 fieldNames name Hin) as Hnth.
    by rewrite Hidx, Z.sub_0_r in Hnth.
Qed.

Lemma projectRecord_lookup (fs : IncludedFields) (record : list string) (k : Z)
  (m m' : gmap string string) (name : string) :
  0 <= k -> k + llen record <= llen fieldNames ->
  projectRecord (Some fs) k record m = Ret m' ->
  m' !! name
  = if (k <=? getFieldIndex name) && (getFieldIndex name <? k + llen record)
       && default false (includedFieldsMap fs !! name)
    then Some (nth (Z.to_nat (getFieldIndex name - k)) record "")
    else m !! name.
Proof.
  revert k m. induction record as [|value rest IH]; intros k m Hk Hlen.
  - cbn [projectRecord]. intros [= <-]. change (llen []) with 0.
    destruct (Z.leb_spec k (getFieldIndex name));
      destruct (Z.ltb_spec (getFieldIndex name) (k + 0)); try done. lia.
  - assert (Hl : llen (value :: rest) = 1 + llen rest) by (unfold llen; cbn [List.length]; lia).
    rewrite Hl in *. pose proof (Nat2Z.is_nonneg (List.length rest)) as Hnn.
    fold (llen rest) in Hnn.
    cbn [projectRecord]. rewrite IncludeField_in_range by lia.
    cbn [mbind outcome_bind].
    assert (Hname : (GetFieldNameByIndex (Some fs) k).1 = fieldNameAt k).
    { unfold GetFieldNameByIndex.
      destruct (Z.ltb_spec k 0); [lia|].
      by destruct (Z.geb_spec k (llen fieldNames)); [lia|]. }
    rewrite Hname.
    pose proof (fieldNameAt_index k name ltac:(lia)) as Hidx.
    destruct (default false (includedFieldsMap fs !! fieldNameAt k)) eqn:Hinc;
      intros Hrec; rewrite (IH (k + 1) _ ltac:(lia) ltac:(lia) Hrec); clear IH Hrec.
    + destruct (decide (getFieldIndex name = k)) as [Heq|Hne].
      * apply Hidx in Heq as Hnm. subst name. rewrite Hinc, lookup_insert_eq.
        destruct (Z.leb_spec (k + 1) (getFieldIndex (fieldNameAt k))); [lia|].
        destruct (Z.leb_spec k (getFieldIndex (fieldNameAt k))); [|lia].
        destruct (Z.ltb_spec (getFieldIndex (fieldNameAt k)) (k + (1 + llen rest))); [|lia].
        cbn [andb]. by rewrite Heq, Z.sub_diag.
      * rewrite lookup_insert_ne by (intros Hnm; by apply Hne, Hidx).
        destruct (Z.leb_spec (k + 1) (getFieldIndex name));
          destruct (Z.leb_spec k (getFieldIndex name)); try lia; cbn [andb]; [|done].
        replace (k + 1 + llen rest) with (k + (1 + llen rest)) by lia.
        replace (Z.to_nat (getFieldIndex name - k))
          with (S (Z.to_nat (getFieldIndex name - (k + 1)))) by lia.
        done.
    + destruct (decide (getFieldIndex name = k)) as [Heq|Hne].
      * apply Hidx in Heq as Hnm. subst name. rewrite Hinc.
        destruct (Z.leb_spec (k + 1) (getFieldIndex (fieldNameAt k))); [lia|].
        cbn [andb]. by rewrite andb_false_r.
      * destruct (Z.leb_spec (k + 1) (getFieldIndex name));
          destruct (Z.leb_spec k (getFieldIndex name)); try lia; cbn [andb]; [|done].
        replace (k + 1 + llen rest) with (k + (1 + llen rest)) by lia.
        replace (Z.to_nat (getFieldIndex name - k))
          with (S (Z.to_nat (getFieldIndex name - (k + 1)))) by lia.
        done.
Qed.

Lemma getFieldIndex_in_range (name : string) :
  (0 <=? getFieldIndex name) && (getFieldIndex name <? 0 + llen fieldNames)
  = bool_decide (name ∈ fieldNames).
Proof.
  unfold getFieldIndex. case_bool_decide as Hin.
  - pose proof (getFieldIndexFrom_range 0 fieldNames name Hin).
    destruct (Z.leb_spec 0 (getFieldIndexFrom 0 fieldNames name)); [|lia].
    by destruct (Z.ltb_spec (getFieldIndexFrom 0 fieldNames name) (0 + llen fieldNames)); [|lia].
  - by rewrite (getFieldIndexFrom_absent 0 fieldNames name Hin).
Qed.

End ProjectionFacts.

(** X9.  The entry [recordToLogEntry] makes of a record holds, under the
    name of each selected column, the field of the record at the index of
    that column, and nothing else: no key for a column that is not selected
    and no key that is no column.  Its timestamp is what [time.Parse] reads
    in the second field. *)
Theorem recordToLogEntry_projects `{GoLibrary} (fs : IncludedFields) (record : list string)
  (entry : LogEntry) :
  recordToLogEntry record (Some fs) = Ret (entry, None) ->
  (forall name,
      Data entry !! name
      = if bool_decide (name ∈ fieldNames) && default false (includedFieldsMap fs !! name)
        then Some (nth (Z.to_nat (getFieldIndex name)) record "")
        else None)
  /\ EntryTimestamp entry = (time_Parse RFC3339 (nth 1 record "")).1.
Proof.
  intros Hentry. pose proof (recordToLogEntry_ok_count _ _ _ Hentry) as Hlen.
  unfold recordToLogEntry in Hentry. change (llen fieldNames) with 30 in Hentry.
  rewrite Hlen, Z.eqb_refl in Hentry. cbn [negb] in Hentry.
  destruct (time_Parse RFC3339 (nth 1 record "")) as [t [err|]]; [done|].
  destruct (projectRecord (Some fs) 0 record ∅) as [m|msg] eqn:Hproj; [|done].
  cbn in Hentry. injection Hentry as <-. cbn [Data EntryTimestamp fst]. split; [|done].
  intros name.
  rewrite (projectRecord_lookup fs record 0 ∅ m name) by (done || (rewrite Hlen; done)).
  rewrite Hlen. change 30 with (llen fieldNames).
  rewrite getFieldIndex_in_range, Z.sub_0_r, lookup_empty. done.
Qed.

(** X9, at the record of the tests under the selection of two columns. *)
Lemma recordToLogEntry_projects_witness :
  exists entry,
    recordToLogEntry sampleRecord (NewFields "type, elb").1 = Ret (entry, None)
    /\ Data entry !! "elb" = Some "app/example-prod-lb/xxxxxxx4"
    /\ Data entry !! "time" = None.
Proof.
  destruct (NewFields "type, elb") as [[fs|] [e|]] eqn:Hnew;
    try (vm_compute in Hnew; discriminate Hnew).
  cbn [fst].
  destruct (recordToLogEntry sampleRecord (Some fs)) as [[entry [e|]]|msg] eqn:Hentry;
    try (vm_compute in Hnew; injection Hnew as <-; vm_compute in Hentry; discriminate Hentry).
  exists entry. split; [reflexivity|].
  destruct (recordToLogEntry_projects fs sampleRecord entry Hentry) as [Hdata _].
  rewrite !Hdata. vm_compute in Hnew. injection Hnew as <-. split; vm_compute; reflexivity.
Defined.

Section MoreParserFacts.

Context `{GoLibrary}.

Lemma Read_with_error (r : csvReader) (raw : rawRecord) (rest : list rawRecord)
  (err : error) :
  pending r = raw :: rest -> rawErr raw = Some err ->
  exists fpr, Read r = ((rawFields raw, Some err), mkCsvReader (Comma r) fpr rest).
Proof.
  unfold Read. intros -> ->.
  destruct (FieldsPerRecord r >? 0); [|destruct (FieldsPerRecord r =? 0)].
  - rewrite andb_false_r. by eexists.
  - by eexists.
  - by eexists.
Qed.

(** The reader hands over a record of 30 fields that carries no error,
    whether it is the first of the stream or follows records of 30 fields. *)
Lemma Read_thirty (c : ascii) (fpr : Z) (raw : rawRecord) (rest : list rawRecord) :
  fpr = 0 \/ fpr = 30 -> rawErr raw = None -> llen (rawFields raw) = 30 ->
  Read (mkCsvReader c fpr (raw :: rest)) = ((rawFields raw, None), mkCsvReader c 30 rest).
Proof.
  intros [->| ->] Herr Hlen.
  - rewrite (Read_first _ raw rest) by done. by rewrite Herr, Hlen.
  - rewrite (Read_same_count _ raw rest) by done. by rewrite Herr.
Qed.

End MoreParserFacts.

(** X10.  On a stream all of whose records parse, [processRecords] returns
    nil at the end of the stream, having sent on the channel the entry of
    every record, in the order of the stream, and having read the stream to
    its end. *)
Theorem processRecords_all_parse `{GoLibrary} (fieldStore : Fields) (body : list rawRecord)
  (entries : list LogEntry) :
  Forall2 (parsesTo fieldStore) body entries ->
  exists parsed,
    processRecords (setComma (csv_NewReader body) " ") [] fieldStore = Some parsed
    /\ parseResult parsed = Ret None
    /\ entryChan parsed = entries
    /\ pending (readerAfter parsed) = [].
Proof.
  intros Hbody. unfold processRecords, setComma, csv_NewReader.
  cbn [pending FieldsPerRecord Comma].
  replace (processRecordsLoop (S (List.length body)) (mkCsvReader " " 0 body) [] fieldStore)
    with (processRecordsLoop (List.length body + 1) (mkCsvReader " " 0 (body ++ [])) []
            fieldStore)
    by (by rewrite app_nil_r, Nat.add_1_r).
  rewrite (processRecordsLoop_parsed fieldStore body entries) by (done || by left).
  cbn [processRecordsLoop Read pending]. by eexists.
Qed.

(** X10, at a stream of two records of the tests. *)
Lemma processRecords_all_parse_witness :
  exists parsed,
    processRecords (setComma (csv_NewReader [sampleLine 1; sampleLine 2]) " ") []
      (NewFields "").1 = Some parsed
    /\ parseResult parsed = Ret None
    /\ entryChan parsed = [sampleEntry; sampleEntry]
    /\ pending (readerAfter parsed) = [].
Proof.
  apply (processRecords_all_parse (NewFields "").1 [sampleLine 1; sampleLine 2]
           [sampleEntry; sampleEntry]).
  repeat constructor; vm_compute; reflexivity.
Defined.

(** X11.  When the reader fails on a record (a quoting error, or the error
    of a decompression that broke off), [processRecords] stops there: it
    returns the error behind the text [error reading a record: ], the
    entries of the records before it stay on the channel, and the rest of
    the stream is not read. *)
Theorem processRecords_read_error `{GoLibrary} (fieldStore : Fields)
  (pre : list rawRecord) (entries : list LogEntry) (bad : rawRecord)
  (post : list rawRecord) (msg : string) :
  Forall2 (parsesTo fieldStore) pre entries ->
  rawErr bad = Some (errorString msg) ->
  exists parsed,
    processRecords (setComma (csv_NewReader (pre ++ bad :: post)) " ") [] fieldStore
    = Some parsed
    /\ parseResult parsed = Ret (Some (errorString ("error reading a record: " +:+ msg)))
    /\ entryChan parsed = entries
    /\ pending (readerAfter parsed) = post.
Proof.
  intros Hpre Herr.
  unfold processRecords, setComma, csv_NewReader. cbn [pending FieldsPerRecord Comma].
  rewrite length_app. cbn [List.length].
  replace (S (List.length pre + S (List.length post)))
    with (List.length pre + S (S (List.length post)))%nat by lia.
  rewrite (processRecordsLoop_parsed fieldStore pre entries) by (done || by left).
  cbn [processRecordsLoop app].
  destruct (Read_with_error (mkCsvReader " " (if pre is [] then 0 else 30) (bad :: post))
              bad post (errorString msg) eq_refl Herr) as [fpr ->].
  by eexists.
Qed.

(** X11, at a stream that breaks off after one record. *)
Lemma processRecords_read_error_witness :
  exists parsed,
    processRecords (setComma (csv_NewReader ([sampleLine 1] ++ truncatedLine 2 :: [])) " ") []
      (NewFields "").1 = Some parsed
    /\ parseResult parsed
       = Ret (Some (errorString ("error reading a record: " +:+ "unexpected EOF")))
    /\ entryChan parsed = [sampleEntry]
    /\ pending (readerAfter parsed) = [].
Proof.
  apply (processRecords_read_error (NewFields "").1 [sampleLine 1] [sampleEntry]
           (truncatedLine 2) [] "unexpected EOF").
  - repeat constructor; vm_compute; reflexivity.
  - reflexivity.
Defined.

(** X12.  When the second field of a record of 30 fields is no timestamp for
    [time.Parse], [processRecords] stops there: it returns the error of
    [time.Parse] behind the text [error parsing timestamp: ], the entries of
    the records before it stay on the channel, no entry is sent for the
    record, and the rest of the stream is not read. *)
Theorem processRecords_timestamp_error `{GoLibrary} (fieldStore : Fields)
  (pre : list rawRecord) (entries : list LogEntry) (bad : rawRecord)
  (post : list rawRecord) (t : Time) (err : error) :
  Forall2 (parsesTo fieldStore) pre entries ->
  rawErr bad = None -> llen (rawFields bad) = 30 ->
  time_Parse RFC3339 (nth 1 (rawFields bad) "") = (t, Some err) ->
  exists parsed,
    processRecords (setComma (csv_NewReader (pre ++ bad :: post)) " ") [] fieldStore
    = Some parsed
    /\ parseResult parsed
       = Ret (Some (errorString ("error parsing timestamp: " +:+ Error err)))
    /\ entryChan parsed = entries
    /\ pending (readerAfter parsed) = post.
Proof.
  intros Hpre Herr Hlen Htime.
  unfold processRecords, setComma, csv_NewReader. cbn [pending FieldsPerRecord Comma].
  rewrite length_app. cbn [List.length].
  replace (S (List.length pre + S (List.length post)))
    with (List.length pre + S (S (List.length post)))%nat by lia.
  rewrite (processRecordsLoop_parsed fieldStore pre entries) by (done || by left).
  cbn [processRecordsLoop app].
  rewrite Read_thirty by (done || by destruct pre; [left|right]).
  unfold recordToLogEntry. change (llen fieldNames) with 30.
  rewrite Hlen, Z.eqb_refl. cbn [negb]. rewrite Htime.
  by eexists.
Qed.

(** X12, at a record of the tests followed by one dated in another
    format. *)
Lemma processRecords_timestamp_error_witness :
  exists parsed,
    processRecords (setComma (csv_NewReader ([sampleLine 1] ++ undatedLine 2 :: [sampleLine 3]))
                      " ") [] (NewFields "").1 = Some parsed
    /\ parseResult parsed
       = Ret (Some (errorString
                      ("error parsing timestamp: "
                       +:+ Error (errorString ("parsing time " +:+ quote
                                               +:+ "21/Mar/2024:16:10:26 +0000" +:+ quote)))))
    /\ entryChan parsed = [sampleEntry]
    /\ pending (readerAfter parsed) = [sampleLine 3].
Proof.
  apply (processRecords_timestamp_error (NewFields "").1 [sampleLine 1] [sampleEntry]
           (undatedLine 2) [sampleLine 3] zeroTime).
  - repeat constructor; vm_compute; reflexivity.
  - reflexivity.
  - vm_compute. reflexivity.
  - vm_compute. reflexivity.
Defined.

(** ** processor.go: more on the batch accumulator *)

Section MoreBatchFacts.

Lemma chained_lookup {A : Type} (R : A -> A -> Prop) (l : list A) (i : nat) (x y : A) :
  chained R l -> l !! i = Some x -> l !! S i = Some y -> R x y.
Proof.
  revert i. induction l as [|a l IH]; intros i Hch Hx Hy; [done|].
  destruct l as [|b l]; [done|]. destruct Hch as [Hab Hch].
  destruct i as [|i].
  - cbn in Hx, Hy. by injection Hx as <-; injection Hy as <-.
  - by apply (IH i).
Qed.

Lemma batches_nonempty (p : list InputLogEvent) (size : Z) (evs : list InputLogEvent) :
  Forall (fun b => 0 < llen b) (batches p size evs).
Proof.
  revert p size. induction evs as [|e rest IH]; intros p size; cbn [batches].
  - destruct (Z.gtb_spec (llen p) 0); repeat constructor. lia.
  - destruct (Z.gtb_spec (llen p) 0); cbn [andb]; [|apply IH].
    destruct (_ || _); [|apply IH]. constructor; [lia|apply IH].
Qed.

Lemma batches_head (p : list InputLogEvent) (size : Z) (evs : list InputLogEvent) :
  0 < llen p -> exists tail bs, batches p size evs = (p ++ tail) :: bs.
Proof.
  revert p size. induction evs as [|e rest IH]; intros p size Hp; cbn [batches].
  - destruct (Z.gtb_spec (llen p) 0); [|lia]. exists [], []. by rewrite app_nil_r.
  - destruct (_ && _).
    + eexists [], _. by rewrite app_nil_r.
    + destruct (IH (p ++ [e]) (size + EstimateEventSize e)) as (tail & bs & ->).
      { rewrite llen_app. change (llen [e]) with 1. lia. }
      exists (e :: tail), bs. by rewrite <- app_assoc.
Qed.

Lemma batches_chained (p : list InputLogEvent) (size : Z) (evs : list InputLogEvent) :
  size = sumSizes p -> chained cutBy (batches p size evs).
Proof.
  revert p size. induction evs as [|e rest IH]; intros p size Hs; cbn [batches].
  - by destruct (llen p >? 0).
  - destruct (Z.gtb_spec (llen p) 0) as [Hp|Hp]; cbn [andb].
    + destruct (Z.gtb_spec (size + EstimateEventSize e) maxBatchSize) as [Hbig|Hfit];
        cbn [orb]; [|destruct (Z.geb_spec (llen p) maxBatchCount) as [Hfull|Hroom]].
      * pose proof (IH [e] (EstimateEventSize e) ltac:(simpl; lia)) as Hch.
        destruct (batches_head [e] (EstimateEventSize e) rest ltac:(by compute))
          as (tail & bs & Heq).
        rewrite Heq in *. cbn [chained app]. split; [|exact Hch].
        exists e, tail. split; [done|]. left. lia.
      * pose proof (IH [e] (EstimateEventSize e) ltac:(simpl; lia)) as Hch.
        destruct (batches_head [e] (EstimateEventSize e) rest ltac:(by compute))
          as (tail & bs & Heq).
        rewrite Heq in *. cbn [chained app]. split; [|exact Hch].
        exists e, tail. split; [done|]. right. lia.
      * apply IH. rewrite sumSizes_app. simpl. lia.
    + apply IH. rewrite sumSizes_app. simpl. lia.
Qed.

Lemma batches_none (evs : list InputLogEvent) : batches [] 0 evs = [] <-> evs = [].
Proof.
  split; [|by intros ->].
  intros Hb. pose proof (batches_concat [] 0 evs) as Hc. by rewrite Hb in Hc.
Qed.

Lemma chunkLengths_add (n : Z) :
  0 <= n -> chunkLengths (maxBatchCount + n) = maxBatchCount :: chunkLengths n.
Proof.
  intros Hn. unfold chunkLengths.
  replace (maxBatchCount + n) with (n + 1 * maxBatchCount) by lia.
  rewrite Z.div_add, Z.mod_add by (by compute).
  assert (0 <= n / maxBatchCount) by (apply Z.div_pos; [done|by compute]).
  replace (Z.to_nat (n / maxBatchCount + 1)) with (S (Z.to_nat (n / maxBatchCount))) by lia.
  done.
Qed.

Lemma chunkLengths_below (n : Z) :
  0 <= n < maxBatchCount -> chunkLengths n = if n =? 0 then [] else [n].
Proof.
  intros Hn. unfold chunkLengths.
  rewrite Z.div_small, Z.mod_small by done. done.
Qed.

Lemma batches_lengths (p : list InputLogEvent) (size : Z) (evs : list InputLogEvent) :
  size <= smallSize * llen p -> llen p <= maxBatchCount ->
  Forall (fun e => EstimateEventSize e <= smallSize) evs ->
  llen <$> batches p size evs = chunkLengths (llen p + llen evs).
Proof.
  intros Hs Hp Hevs. revert p size Hs Hp.
  assert (Hnn : forall l : list InputLogEvent, 0 <= llen l) by (intros l; unfold llen; lia).
  induction Hevs as [|e rest He _ IH]; intros p size Hs Hp; cbn [batches].
  - change (llen []) with 0. rewrite Z.add_0_r. pose proof (Hnn p).
    destruct (Z.gtb_spec (llen p) 0) as [Hpos|Hzero]; cbn [fmap list_fmap].
    + destruct (decide (llen p = maxBatchCount)) as [Heq|Hne].
      * rewrite Heq. by compute.
      * rewrite chunkLengths_below by lia.
        destruct (Z.eqb_spec (llen p) 0); [lia|done].
    + replace (llen p) with 0 by lia. by compute.
  - assert (Hl : llen (e :: rest) = 1 + llen rest) by (unfold llen; cbn [List.length]; lia).
    rewrite Hl. pose proof (Hnn p). pose proof (Hnn rest).
    unfold smallSize, maxBatchSize, maxBatchCount in *.
    change (1048576 / 10000) with 104 in *.
    destruct (Z.geb_spec (llen p) 10000) as [Hfull|Hroom].
    + destruct (Z.gtb_spec (llen p) 0); [|lia]. rewrite orb_true_r. cbn [andb].
      rewrite fmap_cons, (IH [e] (EstimateEventSize e)).
      * replace (llen p) with 10000 by lia.
        change (llen [e]) with 1. symmetry.
        apply (chunkLengths_add (1 + llen rest)). lia.
      * change (llen [e]) with 1. lia.
      * by compute.
    + destruct (Z.gtb_spec (size + EstimateEventSize e) 1048576); [lia|].
      rewrite andb_false_r.
      rewrite (IH (p ++ [e]) (size + EstimateEventSize e)).
      * rewrite llen_app. change (llen [e]) with 1. f_equal. lia.
      * rewrite llen_app. change (llen [e]) with 1. lia.
      * rewrite llen_app. change (llen [e]) with 1. lia.
Qed.

Lemma lengths_sorted `{GoLibrary} (bs : list (list InputLogEvent)) :
  llen <$> (sort_Slice byTimestamp <$> bs) = llen <$> bs.
Proof.
  induction bs as [|b bs IH]; [done|]. rewrite !fmap_cons, IH. f_equal.
  apply llen_Permutation, sort_Slice_perm.
Qed.

Lemma accumulator_counter_entries `{GoLibrary} (lp : CloudWatchLogProcessor)
  (entries : list LogEntry) (w : World) :
  Value (counter (accumulator lp entries w).1) = llen entries.
Proof.
  rewrite accumulator_counter, attemptedTotal_batches.
  fold (emitted w (accumulator lp entries w).2).
  rewrite accumulator_emitted, total_sorted, batches_total.
  unfold llen. rewrite length_fmap. simpl. lia.
Qed.

End MoreBatchFacts.

(** X13.  The accumulator never sends an empty batch, and it sends no batch
    at all exactly when it has consumed no entry. *)
Theorem accumulator_no_empty_batch `{GoLibrary} (lp : CloudWatchLogProcessor)
  (entries : list LogEntry) (w : World) :
  Forall (fun batch => 0 < llen batch) (emitted w (accumulator lp entries w).2)
  /\ (emitted w (accumulator lp entries w).2 = [] <-> entries = []).
Proof.
  rewrite accumulator_emitted. split.
  - apply Forall_fmap. eapply List.Forall_impl; [|apply batches_nonempty].
    intros b Hb. cbn. by rewrite (llen_Permutation _ _ (sort_Slice_perm _ byTimestamp b)).
  - split; [|by intros ->].
    intros Hnil. apply fmap_nil_inv, batches_none in Hnil. by apply fmap_nil_inv in Hnil.
Qed.

(** X14.  The accumulator closes a batch only for a reason: of two batches
    sent one after the other, the first holds 10,000 events, or some event
    of the second would have taken its size estimate over 1,048,576. *)
Theorem accumulator_batches_full `{GoLibrary} (lp : CloudWatchLogProcessor)
  (entries : list LogEntry) (w : World) (i : nat) (batch next : list InputLogEvent) :
  emitted w (accumulator lp entries w).2 !! i = Some batch ->
  emitted w (accumulator lp entries w).2 !! S i = Some next ->
  closedBy batch next.
Proof.
  rewrite accumulator_emitted, !list_lookup_fmap.
  set (bs := batches [] 0 (toEvent <$> entries)).
  destruct (bs !! i) as [b|] eqn:Hb; [|done].
  destruct (bs !! S i) as [b'|] eqn:Hb'; [|done].
  intros [= <-] [= <-].
  pose proof (chained_lookup cutBy bs i b b' (batches_chained [] 0 _ eq_refl) Hb Hb')
    as (e & rest & -> & Hcut).
  pose proof (batches_bounded [] 0 (toEvent <$> entries) eq_refl
                ltac:(by compute) ltac:(left; by compute)) as Hbound.
  rewrite Forall_lookup in Hbound. destruct (Hbound i b Hb) as [_ Hcount].
  unfold closedBy.
  rewrite (sumSizes_Permutation _ _ (sort_Slice_perm _ byTimestamp b)).
  rewrite (llen_Permutation _ _ (sort_Slice_perm _ byTimestamp b)).
  destruct Hcut as [Hbig|Hfull]; [right|left; lia].
  exists e. split; [|done].
  rewrite (sort_Slice_perm _ byTimestamp (e :: rest)). by left.
Qed.

Lemma accumulator_emitted_around_oversize `{GoLibrary} (lp : CloudWatchLogProcessor)
  (pre : list LogEntry) (entry : LogEntry) (post : list LogEntry) (w : World) :
  EstimateEventSize (toEvent entry) > maxBatchSize ->
  emitted w (accumulator lp (pre ++ entry :: post) w).2
  = emitted w (accumulator lp pre w).2
      ++ [toEvent entry] :: emitted w (accumulator lp post w).2.
Proof.
  intros Hbig. rewrite !accumulator_emitted, fmap_app, fmap_cons.
  rewrite (batches_oversize [] 0 _ (toEvent entry)); [|done|done].
  by rewrite fmap_app, fmap_cons, sort_Slice_singleton.
Qed.

Lemma entryOfSize_oversize :
  EstimateEventSize (toEvent (entryOfSize 1048576)) > maxBatchSize.
Proof.
  unfold EstimateEventSize, toEvent, entryOfSize.
  cbn [Message Data json_Marshal exampleLibrary].
  rewrite len_plainMarshal_singleton, length_longString.
  change (len "request") with 7. unfold maxBatchSize. lia.
Qed.

(** X14, at a small entry followed by one of a megabyte. *)
Lemma accumulator_batches_full_witness :
  closedBy [toEvent smallEntry] [toEvent (entryOfSize 1048576)].
Proof.
  apply (accumulator_batches_full (processorWith noObjects acceptingService)
           ([smallEntry] ++ entryOfSize 1048576 :: []) emptyWorld 0).
  - rewrite (accumulator_emitted_around_oversize _ _ _ _ _ entryOfSize_oversize).
    rewrite accumulator_single. reflexivity.
  - rewrite (accumulator_emitted_around_oversize _ _ _ _ _ entryOfSize_oversize).
    rewrite accumulator_single. reflexivity.
Defined.

(** X15.  When every event is estimated at 104 bytes or less, only the
    count closes a batch: the accumulator sends the entries in batches of
    10,000, the last one holding the rest. *)
Theorem accumulator_small_events `{GoLibrary} (lp : CloudWatchLogProcessor)
  (entries : list LogEntry) (w : World) :
  Forall (fun entry => EstimateEventSize (toEvent entry) <= smallSize) entries ->
  llen <$> emitted w (accumulator lp entries w).2 = chunkLengths (llen entries).
Proof.
  intros Hsmall. rewrite accumulator_emitted, lengths_sorted.
  rewrite (batches_lengths [] 0 (toEvent <$> entries)).
  - change (llen []) with 0. unfold llen. by rewrite length_fmap.
  - by compute.
  - by compute.
  - by apply Forall_fmap.
Qed.

(** X15, at 12,000 small entries: a batch of 10,000 and one of 2,000. *)
Lemma accumulator_small_events_witness :
  llen <$> emitted emptyWorld
             (accumulator (processorWith noObjects acceptingService)
                (replicate (Z.to_nat 12000) smallEntry) emptyWorld).2
  = [10000; 2000].
Proof.
  rewrite (accumulator_small_events (processorWith noObjects acceptingService)
             (replicate (Z.to_nat 12000) smallEntry) emptyWorld).
  - unfold llen. rewrite length_replicate, Z2Nat.id by lia. vm_compute. reflexivity.
  - apply Forall_replicate. apply Z.leb_le. vm_compute. reflexivity.
Defined.

(** ** processor.go: more on [ProcessLogs] and [NewLogProcessor] *)

(** X16.  After a fetch that succeeds, the last line [ProcessLogs] prints
    reports the number of entries the parser sent on the channel before it
    stopped, whatever the log service answered to the batches. *)
Theorem ProcessLogs_reports_count `{GoLibrary} (lp : CloudWatchLogProcessor)
  (fs : IncludedFields) (s3Object : S3ObjectInfo) (body : list rawRecord)
  (parsed : Parsed) (w : World) :
  fieldStore lp = Some fs ->
  GetObject (s3Client lp) s3Object = (body, None) ->
  processRecords (setComma (csv_NewReader body) " ") [] (Some fs) = Some parsed ->
  last (printedMain (ProcessLogs lp s3Object w).2)
  = Some ("processed " +:+ itoa (llen (entryChan parsed)) +:+ " log entries").
Proof.
  intros Hfs Hget Hparsed. unfold ProcessLogs. rewrite Hfs, Hget, Hparsed.
  destruct (processRecordsLoop_no_panic fs _ _ _ _ Hparsed) as [perr ->].
  match goal with
  | |- context [accumulator lp (entryChan parsed) ?w2] =>
      pose proof (accumulator_counter_entries lp (entryChan parsed) w2) as Hcount;
      destruct (accumulator lp (entryChan parsed) w2) as [acc w3]
  end.
  cbn [fst snd printedMain printMain] in *. by rewrite Hcount, last_snoc.
Qed.

(** X16, at an object of two records and a service that refuses every
    request. *)
Lemma ProcessLogs_reports_count_witness :
  last (printedMain
          (ProcessLogs (processorWith (storeOf [sampleLine 1; sampleLine 2]) refusingService)
             testObject emptyWorld).2)
  = Some ("processed " +:+ itoa (llen [sampleEntry; sampleEntry]) +:+ " log entries").
Proof.
  unfold processorWith.
  destruct (NewFields "") as [[fs|] [e|]] eqn:Hnew;
    try (vm_compute in Hnew; discriminate Hnew).
  cbn [fst].
  apply (ProcessLogs_reports_count
           (mkCloudWatchLogProcessor (storeOf [sampleLine 1; sampleLine 2]) refusingService
              (Some fs) testLogConfig)
           fs testObject [sampleLine 1; sampleLine 2]
           (mkParsed (Ret None) [sampleEntry; sampleEntry] (mkCsvReader " " 30 []))
           emptyWorld).
  - reflexivity.
  - reflexivity.
  - vm_compute in Hnew. injection Hnew as <-. vm_compute. reflexivity.
Defined.

(** X17.  [NewLogProcessor] fails exactly when the bootstrap of the log
    group and stream fails, with its error behind the text
    [error creating log group and stream: ]; otherwise it returns a
    processor on the clients of the session and the names of the
    configuration, whose field store is what [NewFields] returned for the
    configured fields.  When that is a selection, [ProcessLogs] on the
    processor never panics. *)
Theorem NewLogProcessor_spec `{GoLibrary} (sess : Session) (config : Config) (w : World) :
  let logConfig := mkLogConfig (cfgLogGroupName config) (cfgLogStreamName config) in
  match EnsureLogGroupAndLogStreamExists (sessCloudWatch sess) logConfig w with
  | (Some err, w1) =>
      NewLogProcessor sess config w
      = (None, Some (errorString ("error creating log group and stream: " +:+ Error err)), w1)
  | (None, w1) =>
      exists lp,
        NewLogProcessor sess config w = (Some lp, None, w1)
        /\ lp = mkCloudWatchLogProcessor (sessS3 sess) (sessCloudWatch sess)
                  (NewFields (cfgFields config)).1 logConfig
        /\ (forall fs, fieldStore lp = Some fs ->
              forall s3Object w2, exists result, (ProcessLogs lp s3Object w2).1 = Ret result)
  end.
Proof.
  cbv zeta. unfold NewLogProcessor.
  destruct (NewFields (cfgFields config)) as [store ferr]. cbn [fst].
  destruct (EnsureLogGroupAndLogStreamExists _ _ w) as [[err|] w1]; [done|].
  eexists. split; [reflexivity|]. split; [reflexivity|].
  cbn [fieldStore]. intros fs -> s3Object w2. unfold ProcessLogs. cbn [s3Client fieldStore].
  destruct (GetObject (sessS3 sess) s3Object) as [body [err|]]; [by eexists|].
  destruct (processRecords_total (setComma (csv_NewReader body) " ") [] (Some fs))
    as [parsed Hparsed].
  destruct (processRecordsLoop_no_panic fs _ _ _ _ Hparsed) as [perr Hperr].
  rewrite Hparsed, Hperr.
  destruct (accumulator _ (entryChan parsed) _) as [acc w3]. by eexists.
Qed.

(** ** handler.go: more on the fan-out scheduler *)

Section MoreSchedulerFacts.

Variable lp : LogProcessor.

Lemma step_Move (a : Action) (s s' : Sched) : step lp a s = Some s' -> Move lp s s'.
Proof.
  destruct a as [|i| |i]; cbn [step].
  - destruct (mainPC s) as [[|o rest]|o rest|o rest| | |r] eqn:Hmain.
    + intros [= <-]. by constructor.
    + intros [= <-]. by constructor.
    + destruct (Z.ltb_spec (concurrent s) concurrency); [|done].
      intros [= <-]. by constructor.
    + intros [= <-]. by constructor.
    + intros [= <-]. by constructor.
    + destruct (errsClosed s) eqn:Hclosed; [|done]. intros [= <-].
      rewrite <- Hclosed. by constructor.
    + done.
  - unfold setTask.
    destruct (tasks s !! i) as [[o [|e| | |]]|] eqn:Hi; try done.
    + intros [= <-]. by constructor.
    + intros [= <-]. by constructor.
    + destruct (Z.gtb_spec (concurrent s) 0); [|done]. intros [= <-].
      apply Move_release; [done|lia].
  - destruct (closer s) eqn:Hcloser; [done| | |done].
    + destruct (Z.eqb_spec (wg s) 0); [|done]. intros [= <-]. by constructor.
    + intros [= <-]. by constructor.
  - unfold setTask.
    destruct (mainPC s) eqn:Hmain; try done.
    destruct (tasks s !! i) as [[o [|e| | |]]|] eqn:Hi; try done.
    destruct (errsClosed s) eqn:Hclosed; [done|]. intros [= <-].
    rewrite <- Hclosed. by constructor.
Qed.

(** What holds at the start and after every move holds after a run. *)
Lemma run_invariant (P : Sched -> Prop) (schedule : list Action) (s s' : Sched) :
  (forall s1 s2, P s1 -> Move lp s1 s2 -> P s2) ->
  P s -> run lp schedule s = Some s' -> P s'.
Proof.
  intros Hmove. revert s. induction schedule as [|a schedule IH]; intros s Hs; cbn [run].
  - by intros [= <-].
  - destruct (step lp a s) as [s1|] eqn:Hstep; [|done].
    apply IH. eapply Hmove; [exact Hs|]. by eapply step_Move.
Qed.

Lemma sumTasks_cons (f : TaskPC -> Z) (t : S3ObjectInfo * TaskPC)
  (l : list (S3ObjectInfo * TaskPC)) :
  sumTasks f (t :: l) = f t.2 + sumTasks f l.
Proof. reflexivity. Qed.

Lemma countTasks_cons (P : TaskPC -> bool) (t : S3ObjectInfo * TaskPC)
  (l : list (S3ObjectInfo * TaskPC)) :
  countTasks P (t :: l) = (if P t.2 then 1 else 0) + countTasks P l.
Proof. reflexivity. Qed.

Lemma sumTasks_app (f : TaskPC -> Z) (l1 l2 : list (S3ObjectInfo * TaskPC)) :
  sumTasks f (l1 ++ l2) = sumTasks f l1 + sumTasks f l2.
Proof.
  induction l1 as [|t l1 IH]; [done|].
  rewrite <- app_comm_cons, !sumTasks_cons, IH. lia.
Qed.

Lemma sumTasks_insert (f : TaskPC -> Z) (l : list (S3ObjectInfo * TaskPC)) (i : nat)
  (o : S3ObjectInfo) (pc pc' : TaskPC) :
  l !! i = Some (o, pc) ->
  sumTasks f (<[i := (o, pc')]> l) = sumTasks f l - f pc + f pc'.
Proof.
  revert i. induction l as [|t l IH]; intros i Hi; [done|].
  destruct i as [|i].
  - injection Hi as ->. change (<[0%nat:=(o, pc')]> ((o, pc) :: l)) with ((o, pc') :: l).
    rewrite !sumTasks_cons. cbn [snd]. lia.
  - change (<[S i:=(o, pc')]> (t :: l)) with (t :: <[i:=(o, pc')]> l).
    rewrite !sumTasks_cons, (IH i Hi). lia.
Qed.

Lemma countTasks_insert (P : TaskPC -> bool) (l : list (S3ObjectInfo * TaskPC)) (i : nat)
  (o : S3ObjectInfo) (pc pc' : TaskPC) :
  l !! i = Some (o, pc) ->
  countTasks P (<[i := (o, pc')]> l)
  = countTasks P l - (if P pc then 1 else 0) + (if P pc' then 1 else 0).
Proof. apply sumTasks_insert. Qed.

Lemma countTasks_app (P : TaskPC -> bool) (l1 l2 : list (S3ObjectInfo * TaskPC)) :
  countTasks P (l1 ++ l2) = countTasks P l1 + countTasks P l2.
Proof. apply sumTasks_app. Qed.

Lemma countTasks_nonneg (P : TaskPC -> bool) (l : list (S3ObjectInfo * TaskPC)) :
  0 <= countTasks P l.
Proof.
  induction l as [|t l IH]; [done|]. rewrite countTasks_cons. destruct (P t.2); lia.
Qed.

Lemma countTasks_le (P Q : TaskPC -> bool) (l : list (S3ObjectInfo * TaskPC)) :
  (forall pc, P pc = true -> Q pc = true) -> countTasks P l <= countTasks Q l.
Proof.
  intros HPQ. induction l as [|t l IH]; [done|]. rewrite !countTasks_cons.
  specialize (HPQ t.2). destruct (P t.2), (Q t.2); try lia.
  all: by specialize (HPQ eq_refl).
Qed.

Lemma countTasks_lookup (P : TaskPC -> bool) (l : list (S3ObjectInfo * TaskPC)) (i : nat)
  (o : S3ObjectInfo) (pc : TaskPC) :
  l !! i = Some (o, pc) -> P pc = true -> 1 <= countTasks P l.
Proof.
  revert i. induction l as [|t l IH]; intros i Hi HP; [done|].
  pose proof (countTasks_nonneg P l) as Hnn. rewrite countTasks_cons.
  destruct i as [|i].
  - injection Hi as ->. cbn [snd]. rewrite HP. lia.
  - specialize (IH i Hi HP). destruct (P t.2); lia.
Qed.

Lemma countTasks_pos (P : TaskPC -> bool) (l : list (S3ObjectInfo * TaskPC)) :
  0 < countTasks P l -> exists i o pc, l !! i = Some (o, pc) /\ P pc = true.
Proof.
  induction l as [|[o pc] l IH]; [by compute|]. rewrite countTasks_cons. cbn [snd].
  destruct (P pc) eqn:HP.
  - intros _. by exists 0%nat, o, pc.
  - intros Hpos. destruct IH as (i & o' & pc' & Hi & HP'); [lia|].
    by exists (S i), o', pc'.
Qed.

Lemma countTasks_zero (P : TaskPC -> bool) (l : list (S3ObjectInfo * TaskPC)) :
  countTasks P l = 0 -> Forall (fun t => P t.2 = false) l.
Proof.
  induction l as [|t l IH]; [constructor|]. rewrite countTasks_cons.
  pose proof (countTasks_nonneg P l) as Hnn.
  destruct (P t.2) eqn:HP; [lia|]. intros Hz. constructor; [done|]. apply IH. lia.
Qed.

(** *** The counters *)

Lemma countInv_init (s3Objects : list S3ObjectInfo) : countInv (initSched s3Objects).
Proof. by compute. Qed.

Lemma countInv_Move (s s' : Sched) : countInv s -> Move lp s s' -> countInv s'.
Proof.
  intros (Hc & Hw & Hle) Hmove. unfold countInv.
  destruct Hmove as [o rest Hm| Hm|o rest Hm Hlt|o rest Hm|Hm|Hm Hcl
                    |i o Hi|i o Hi|i o Hi Hpos|Hcw Hz|Hcc|i o e Hm Hi Hcl];
    cbn [mainPC tasks closer wg concurrent errsClosed];
    rewrite ?Hm in Hc, Hw; cbn [mainHolds mainAdded] in *;
    rewrite ?(countTasks_insert _ _ _ _ _ _ Hi), ?countTasks_app, ?countTasks_cons;
    cbn [snd holdsPermit owesDone]; change (countTasks _ []) with 0;
    unfold concurrency in *; try lia.
  destruct (lp o); cbn [holdsPermit owesDone]; lia.
Qed.

(** *** The closing goroutine *)

Lemma closerInv_init (s3Objects : list S3ObjectInfo) : closerInv (initSched s3Objects).
Proof. by compute. Qed.

Lemma closerInv_Move (s s' : Sched) :
  countInv s -> closerInv s -> Move lp s s' -> closerInv s'.
Proof.
  intros (_ & Hw & _) (Hstart & Hclosed & Hzero & Hnil) Hmove. unfold closerInv.
  destruct Hmove as [o rest Hm| Hm|o rest Hm Hlt|o rest Hm|Hm|Hm Hcl
                    |i o Hi|i o Hi|i o Hi Hpos|Hcw Hz|Hcc|i o e Hm Hi Hcl];
    cbn [mainPC tasks closer wg concurrent errsClosed];
    rewrite ?Hm in *; cbn [mainLaunching mainAdded] in *;
    (split; [|split; [|split]]); try done.
  - pose proof (proj2 Hstart eq_refl) as Hc. intros [?|?]; congruence.
  - pose proof (proj2 Hstart eq_refl) as Hc.
    split; [|done]. intros Ht. apply Hclosed in Ht. congruence.
  - intros [?|?]; done.
  - intros Hc. specialize (Hzero Hc).
    pose proof (countTasks_lookup owesDone _ _ _ _ Hi eq_refl).
    destruct (mainPC s); cbn [mainAdded] in Hw; lia.
  - split; [done|]. intros Ht. apply Hstart in Ht. congruence.
  - split; [|done]. intros Ht. apply Hclosed in Ht. congruence.
  - split; [done|]. intros Ht. apply Hstart in Ht. congruence.
  - intros _. apply Hzero. by left.
Qed.

(** *** The objects *)

Lemma objectsInv_init (s3Objects : list S3ObjectInfo) :
  objectsInv lp s3Objects (initSched s3Objects).
Proof. split; [done|apply Forall_nil_2]. Qed.

Lemma fmap_fst_insert (l : list (S3ObjectInfo * TaskPC)) (i : nat) (o : S3ObjectInfo)
  (pc pc' : TaskPC) :
  l !! i = Some (o, pc) -> fst <$> <[i := (o, pc')]> l = fst <$> l.
Proof.
  intros Hi. rewrite list_fmap_insert. cbn [fst]. apply list_insert_id.
  by rewrite list_lookup_fmap, Hi.
Qed.

Lemma objectsInv_Move (s3Objects : list S3ObjectInfo) (s s' : Sched) :
  objectsInv lp s3Objects s -> Move lp s s' -> objectsInv lp s3Objects s'.
Proof.
  intros [Hobjs Hpast] Hmove. unfold objectsInv.
  assert (Hkeep : forall pc, (forall e, mainPC s <> MReturned (Some e)) ->
             Forall (fun t => pastSend t.2 = true ->
                              lp t.1 = None \/ exists e, pc = MReturned (Some e)) (tasks s)).
  { intros pc Hnot. eapply List.Forall_impl; [|exact Hpast].
    intros t Ht Hp. destruct (Ht Hp) as [?|[e He]]; [by left|by destruct (Hnot e)]. }
  destruct Hmove as [o rest Hm| Hm|o rest Hm Hlt|o rest Hm|Hm|Hm Hcl
                    |i o Hi|i o Hi|i o Hi Hpos|Hcw Hz|Hcc|i o e Hm Hi Hcl];
    cbn [mainPC tasks closer wg concurrent errsClosed];
    rewrite ?(fmap_fst_insert _ _ _ _ _ Hi).
  - rewrite Hm in Hobjs. split; [done|]. apply Hkeep. by rewrite Hm.
  - rewrite Hm in Hobjs. split; [done|]. apply Hkeep. by rewrite Hm.
  - rewrite Hm in Hobjs. split; [done|]. apply Hkeep. by rewrite Hm.
  - rewrite Hm in Hobjs. split.
    + rewrite fmap_app, <- app_assoc. done.
    + apply Forall_app. split; [apply Hkeep; by rewrite Hm|].
      constructor; [done|constructor].
  - rewrite Hm in Hobjs. split; [done|]. apply Hkeep. by rewrite Hm.
  - rewrite Hm in Hobjs. split; [done|]. apply Hkeep. by rewrite Hm.
  - split; [done|]. apply Forall_insert; [done|]. cbn [fst snd].
    destruct (lp o) eqn:Hlp; [done|]. intros _. by left.
  - split; [done|]. apply Forall_insert; [done|]. cbn [fst snd]. intros _.
    by apply (Forall_lookup_1 _ _ _ _ Hpast Hi).
  - split; [done|]. apply Forall_insert; [done|]. cbn [fst snd]. intros _.
    by apply (Forall_lookup_1 _ _ _ _ Hpast Hi).
  - done.
  - done.
  - rewrite Hm in Hobjs. split; [done|].
    apply Forall_insert; [|intros _; right; by eexists].
    eapply List.Forall_impl; [|exact Hpast]. intros t _ _. right. by eexists.
Qed.

(** *** The moves left *)

Lemma sumTasks_taskRank_nonneg (l : list (S3ObjectInfo * TaskPC)) :
  0 <= sumTasks taskRank l.
Proof.
  induction l as [|t l IH]; [done|]. rewrite sumTasks_cons. destruct (t.2); cbn; lia.
Qed.

Lemma movesLeft_nonneg (s : Sched) : 0 <= movesLeft s.
Proof.
  unfold movesLeft. pose proof (sumTasks_taskRank_nonneg (tasks s)).
  assert (0 <= mainRank (mainPC s)).
  { destruct (mainPC s) as [rest|o rest|o rest| | |r]; cbn [mainRank]; unfold llen; lia. }
  assert (0 <= closerRank (closer s)) by (destruct (closer s); cbn; lia).
  lia.
Qed.

Lemma movesLeft_Move (s s' : Sched) : Move lp s s' -> movesLeft s' < movesLeft s.
Proof.
  intros Hmove. unfold movesLeft.
  destruct Hmove as [o rest Hm| Hm|o rest Hm Hlt|o rest Hm|Hm|Hm Hcl
                    |i o Hi|i o Hi|i o Hi Hpos|Hcw Hz|Hcc|i o e Hm Hi Hcl];
    cbn [mainPC tasks closer wg concurrent errsClosed];
    rewrite ?Hm, ?Hcw, ?Hcc, ?(sumTasks_insert _ _ _ _ _ _ Hi), ?sumTasks_app,
      ?sumTasks_cons;
    cbn [mainRank closerRank taskRank snd]; change (sumTasks taskRank []) with 0;
    try (unfold llen; cbn [List.length]; lia).
  - destruct (closer s); cbn [closerRank]; lia.
  - destruct (lp o); cbn [taskRank]; lia.
Qed.

Lemma movesLeft_run (schedule : list Action) (s s' : Sched) :
  run lp schedule s = Some s' -> movesLeft s' + llen schedule <= movesLeft s.
Proof.
  revert s. induction schedule as [|a schedule IH]; intros s; cbn [run].
  - intros [= <-]. change (llen []) with 0. lia.
  - destruct (step lp a s) as [s1|] eqn:Hstep; [|done]. intros Hrun.
    pose proof (movesLeft_Move s s1 (step_Move a s s1 Hstep)).
    specialize (IH s1 Hrun). unfold llen in *. cbn [List.length]. lia.
Qed.

(** *** All the invariants, after a run *)

Lemma run_invariants (s3Objects : list S3ObjectInfo) (schedule : list Action) (s : Sched) :
  run lp schedule (initSched s3Objects) = Some s ->
  countInv s /\ closerInv s /\ objectsInv lp s3Objects s /\ schedInv lp s3Objects s.
Proof.
  intros Hrun.
  assert (countInv s /\ closerInv s /\ objectsInv lp s3Objects s) as (Hc & Hcl & Ho).
  { apply (run_invariant (fun s => countInv s /\ closerInv s /\ objectsInv lp s3Objects s)
             schedule (initSched s3Objects) s); [| |exact Hrun].
    - intros s1 s2 (Hc & Hcl & Ho) Hmove.
      split; [by eapply countInv_Move|split; [by eapply closerInv_Move|by eapply objectsInv_Move]].
    - split; [apply countInv_init|split; [apply closerInv_init|apply objectsInv_init]]. }
  split; [done|split; [done|split; [done|]]].
  eapply (schedInv_run lp); [apply schedInv_init|exact Hrun].
Qed.

End MoreSchedulerFacts.

(** *** Runs on which no object fails *)

Section NoFailure.

Variable lp : LogProcessor.

Lemma run_app (l1 l2 : list Action) (s : Sched) :
  run lp (l1 ++ l2) s = run lp l1 s ≫= run lp l2.
Proof.
  revert s. induction l1 as [|a l1 IH]; intros s; [done|].
  cbn [app run]. destruct (step lp a s) as [s1|]; [apply IH|done].
Qed.

(** A goroutine at [ProcessLogs], at [wg.Done()] or, when the channel holds a
    value, at [<-concurrent] can move. *)
Lemma task_can_move (s : Sched) (i : nat) (o : S3ObjectInfo) (pc : TaskPC) :
  tasks s !! i = Some (o, pc) ->
  pc = TProcessLogs \/ pc = TWgDone \/ (pc = TRelease /\ 0 < concurrent s) ->
  exists s', step lp (StepTask i) s = Some s'.
Proof.
  intros Hi [->|[->|[-> Hpos]]]; cbn [step]; rewrite Hi; [by eexists|by eexists|].
  destruct (concurrent s >? 0) eqn:Hgt; [by eexists|]. lia.
Qed.

(** Where no object fails, no goroutine is at a send and no error has been
    returned. *)
Lemma no_failure_no_sender (s3Objects : list S3ObjectInfo) (s : Sched) :
  (forall o, o ∈ s3Objects -> lp o = None) ->
  schedInv lp s3Objects s ->
  Forall (fun t => forall e, t.2 <> TSend e) (tasks s)
  /\ forall e, mainPC s <> MReturned (Some e).
Proof.
  intros Hnone [Htasks Hmain]. split.
  - eapply List.Forall_impl; [|exact Htasks]. intros [o pc] [_ Hpc] e. cbn [snd] in *.
    intros ->. destruct Hpc as (o' & err & Hin & Hlp & _).
    rewrite (Hnone o' Hin) in Hlp. done.
  - intros e He. rewrite He in Hmain. destruct Hmain as (o' & err & Hin & Hlp & _).
    rewrite (Hnone o' Hin) in Hlp. done.
Qed.

(** A goroutine that holds a permit and is not at a send can move. *)
Lemma permit_holder_can_move (s : Sched) :
  Forall (fun t => forall e, t.2 <> TSend e) (tasks s) ->
  0 < countTasks holdsPermit (tasks s) -> 0 < concurrent s ->
  exists a s', step lp a s = Some s'.
Proof.
  intros Hsend Hcount Hpos.
  destruct (countTasks_pos holdsPermit _ Hcount) as (i & o & pc & Hi & Hpc).
  pose proof (Forall_lookup_1 _ _ _ _ Hsend Hi) as Hnot. cbn [snd] in Hnot.
  exists (StepTask i). apply (task_can_move s i o pc Hi).
  destruct pc as [|e| | |]; try done; [by left| |by right; left|by right; right].
  by destruct (Hnot e).
Qed.

(** A goroutine that has not called [wg.Done] and is not at a send can
    move. *)
Lemma debtor_can_move (s : Sched) :
  Forall (fun t => forall e, t.2 <> TSend e) (tasks s) ->
  0 < countTasks owesDone (tasks s) ->
  exists a s', step lp a s = Some s'.
Proof.
  intros Hsend Hcount.
  destruct (countTasks_pos owesDone _ Hcount) as (i & o & pc & Hi & Hpc).
  pose proof (Forall_lookup_1 _ _ _ _ Hsend Hi) as Hnot. cbn [snd] in Hnot.
  exists (StepTask i). apply (task_can_move s i o pc Hi).
  destruct pc as [|e| | |]; try done; [by left| |by right; left].
  by destruct (Hnot e).
Qed.

Lemma no_failure_progress (s3Objects : list S3ObjectInfo) (schedule : list Action)
  (s : Sched) :
  (forall o, o ∈ s3Objects -> lp o = None) ->
  run lp schedule (initSched s3Objects) = Some s ->
  returned s = None ->
  exists a s', step lp a s = Some s'.
Proof.
  intros Hnone Hrun Hret.
  destruct (run_invariants lp s3Objects schedule s Hrun)
    as ((Hc & Hw & Hle) & (Hstart & Hclosed & Hzero & Hnil) & _ & Hsched).
  destruct (no_failure_no_sender s3Objects s Hnone Hsched) as [Hsend _].
  unfold returned in Hret.
  destruct (mainPC s) as [[|o rest]|o rest|o rest| | |r] eqn:Hm; try done;
    cbn [mainHolds mainAdded mainLaunching] in *.
  - exists StepMain. cbn [step]. rewrite Hm. by eexists.
  - exists StepMain. cbn [step]. rewrite Hm. by eexists.
  - destruct (concurrent s <? concurrency) eqn:Hlt.
    + exists StepMain. cbn [step]. rewrite Hm, Hlt. by eexists.
    + apply permit_holder_can_move; [done| |]; unfold concurrency in *; lia.
  - exists StepMain. cbn [step]. rewrite Hm. by eexists.
  - exists StepMain. cbn [step]. rewrite Hm. by eexists.
  - destruct (errsClosed s) eqn:Hcl.
    + exists StepMain. cbn [step]. rewrite Hm, Hcl. by eexists.
    + destruct (closer s) eqn:Hcp.
      * by pose proof (proj1 Hstart eq_refl).
      * destruct (wg s =? 0) eqn:Hwz.
        -- exists StepCloser. cbn [step]. rewrite Hcp, Hwz. by eexists.
        -- apply debtor_can_move; [done|].
           pose proof (countTasks_nonneg owesDone (tasks s)). lia.
      * exists StepCloser. cbn [step]. rewrite Hcp. by eexists.
      * by pose proof (proj2 Hclosed eq_refl).
Qed.

Lemma no_failure_returns_nil (s3Objects : list S3ObjectInfo) (n : nat) :
  (forall o, o ∈ s3Objects -> lp o = None) ->
  forall (schedule : list Action) (s : Sched),
    run lp schedule (initSched s3Objects) = Some s ->
    movesLeft s < Z.of_nat n ->
    exists more s',
      run lp (schedule ++ more) (initSched s3Objects) = Some s'
      /\ returned s' = Some None.
Proof.
  intros Hnone. induction n as [|n IH]; intros schedule s Hrun Hlt.
  - pose proof (movesLeft_nonneg s). lia.
  - destruct (returned s) as [[e|]|] eqn:Hret.
    + destruct (run_invariants lp s3Objects schedule s Hrun) as (_ & _ & _ & Hsched).
      destruct (no_failure_no_sender s3Objects s Hnone Hsched) as [_ Hmain].
      unfold returned in Hret. destruct (mainPC s) as [| | | | |r] eqn:Hm; try done.
      injection Hret as ->. by destruct (Hmain e).
    + exists [], s. by rewrite app_nil_r.
    + destruct (no_failure_progress s3Objects schedule s Hnone Hrun Hret) as (a & s1 & Hstep).
      assert (Hrun1 : run lp (schedule ++ [a]) (initSched s3Objects) = Some s1).
      { rewrite run_app, Hrun. cbn [mbind option_bind run]. by rewrite Hstep. }
      pose proof (movesLeft_Move lp s s1 (step_Move lp a s s1 Hstep)).
      destruct (IH (schedule ++ [a]) s1 Hrun1) as (more & s' & Hrun' & Hret'); [lia|].
      exists (a :: more), s'. split; [|done].
      by rewrite <- Hrun', <- app_assoc.
Qed.

End NoFailure.

(** X18. [processS3Objects] never has more than ten calls of [ProcessLogs]
    under way: in every state of every run, at most [concurrency] goroutines
    are in [ProcessLogs], and the buffered channel holds one value for each
    goroutine launched or about to be launched that has not received from it. *)
Theorem processS3Objects_at_most_ten (lp : LogProcessor) (s3Objects : list S3ObjectInfo)
  (schedule : list Action) (s : Sched) :
  run lp schedule (initSched s3Objects) = Some s ->
  countTasks inProcessLogs (tasks s) <= concurrency
  /\ concurrent s = countTasks holdsPermit (tasks s) + mainHolds (mainPC s).
Proof.
  intros Hrun. destruct (run_invariants lp s3Objects schedule s Hrun) as ((Hc & _ & Hle) & _).
  split; [|done].
  pose proof (countTasks_le inProcessLogs holdsPermit (tasks s)) as Hcount.
  assert (0 <= mainHolds (mainPC s)) by (destruct (mainPC s); cbn; lia).
  etrans; [apply Hcount|lia]. by intros [].
Qed.

Lemma processS3Objects_at_most_ten_witness :
  exists s,
    run failingProcessor tenLaunched (initSched elevenObjects) = Some s
    /\ countTasks inProcessLogs (tasks s) = 10
    /\ countTasks inProcessLogs (tasks s) <= concurrency.
Proof.
  eexists. split; [vm_compute; reflexivity|]. split; [vm_compute; reflexivity|].
  apply (processS3Objects_at_most_ten failingProcessor elevenObjects tenLaunched).
  vm_compute; reflexivity.
Defined.

(** X19. When [processS3Objects] returns nil, a goroutine was launched for
    every object, in the order of the slice, [ProcessLogs] returned nil on
    every object, every goroutine has called [wg.Done], and [errs] is
    closed. *)
Theorem processS3Objects_nil_return (lp : LogProcessor) (s3Objects : list S3ObjectInfo)
  (schedule : list Action) (s : Sched) :
  run lp schedule (initSched s3Objects) = Some s ->
  returned s = Some None ->
  fst <$> tasks s = s3Objects
  /\ Forall (fun t => t.2 = TRelease \/ t.2 = TExited) (tasks s)
  /\ (forall o, o ∈ s3Objects -> lp o = None)
  /\ wg s = 0 /\ errsClosed s = true.
Proof.
  intros Hrun Hret.
  destruct (run_invariants lp s3Objects schedule s Hrun)
    as ((_ & Hw & _) & (_ & Hclosed & Hzero & Hnil) & (Hobjs & Hpast) & _).
  unfold returned in Hret. destruct (mainPC s) as [| | | | |r] eqn:Hm; try done.
  injection Hret as ->. cbn [mainRest mainAdded] in *. rewrite app_nil_r in Hobjs.
  pose proof (Hnil eq_refl) as Hcl. pose proof (proj1 Hclosed Hcl) as Hex.
  assert (Hwg : wg s = 0) by (apply Hzero; by right).
  assert (Hdone : Forall (fun t => owesDone t.2 = false) (tasks s)).
  { apply countTasks_zero. lia. }
  assert (Hends : Forall (fun t => t.2 = TRelease \/ t.2 = TExited) (tasks s)).
  { eapply List.Forall_impl; [|exact Hdone]. intros [o pc]. cbn [snd].
    destruct pc; try done; [by left|by right]. }
  split; [done|]. split; [done|]. split; [|done].
  intros o Hin. rewrite <- Hobjs in Hin.
  apply list_elem_of_fmap in Hin as ([o' pc] & -> & Hin). cbn [fst].
  apply list_elem_of_lookup in Hin as [i Hi].
  pose proof (Forall_lookup_1 _ _ _ _ Hpast Hi) as Hp.
  pose proof (Forall_lookup_1 _ _ _ _ Hends Hi) as He. cbn [fst snd] in *.
  destruct Hp as [?|[e [=]]]; [|done]. by destruct He as [-> | ->].
Qed.

Lemma processS3Objects_nil_return_witness :
  exists s,
    run servingProcessor oneObjectSchedule (initSched [object1]) = Some s
    /\ returned s = Some None
    /\ fst <$> tasks s = [object1]
    /\ wg s = 0.
Proof.
  eexists. split; [vm_compute; reflexivity|]. split; [vm_compute; reflexivity|].
  destruct (processS3Objects_nil_return servingProcessor [object1] oneObjectSchedule _
              ltac:(vm_compute; reflexivity) ltac:(vm_compute; reflexivity))
    as (Hobjs & _ & _ & Hwg & _).
  by split.
Defined.

(** X20. Where [ProcessLogs] fails on no object, [processS3Objects] cannot
    get stuck: in every state of a run in which it has not returned, some
    goroutine can move. *)
Theorem processS3Objects_no_failure_progress (lp : LogProcessor)
  (s3Objects : list S3ObjectInfo) (schedule : list Action) (s : Sched) :
  (forall o, o ∈ s3Objects -> lp o = None) ->
  run lp schedule (initSched s3Objects) = Some s ->
  returned s = None ->
  exists a s', step lp a s = Some s'.
Proof. apply no_failure_progress. Qed.

Lemma processS3Objects_no_failure_progress_witness :
  exists s,
    run servingProcessor tenLaunched (initSched elevenObjects) = Some s
    /\ returned s = None
    /\ exists a s', step servingProcessor a s = Some s'.
Proof.
  eexists. split; [vm_compute; reflexivity|]. split; [vm_compute; reflexivity|].
  apply (processS3Objects_no_failure_progress servingProcessor elevenObjects tenLaunched).
  - done.
  - vm_compute; reflexivity.
  - vm_compute; reflexivity.
Defined.

(** X21. Every run of [processS3Objects] is finite: no schedule of more than
    [7 * len(s3Objects) + 7] moves can be run, whatever [ProcessLogs]
    returns. *)
Theorem processS3Objects_moves_bounded (lp : LogProcessor) (s3Objects : list S3ObjectInfo)
  (schedule : list Action) (s : Sched) :
  run lp schedule (initSched s3Objects) = Some s ->
  llen schedule <= 7 * llen s3Objects + 7.
Proof.
  intros Hrun. pose proof (movesLeft_run lp schedule _ s Hrun) as Hle.
  pose proof (movesLeft_nonneg s).
  unfold movesLeft in Hle at 2. cbn in Hle. lia.
Qed.

Lemma processS3Objects_moves_bounded_witness :
  exists s,
    run servingProcessor oneObjectSchedule (initSched [object1]) = Some s
    /\ llen oneObjectSchedule <= 7 * llen [object1] + 7.
Proof.
  eexists. split; [vm_compute; reflexivity|].
  eapply (processS3Objects_moves_bounded servingProcessor [object1] oneObjectSchedule).
  vm_compute; reflexivity.
Defined.

(** X22. Where [ProcessLogs] fails on no object, every run of
    [processS3Objects] can be continued to one that returns nil, and no run
    returns an error. *)
Theorem processS3Objects_no_failure_returns_nil (lp : LogProcessor)
  (s3Objects : list S3ObjectInfo) (schedule : list Action) (s : Sched) :
  (forall o, o ∈ s3Objects -> lp o = None) ->
  run lp schedule (initSched s3Objects) = Some s ->
  (forall e, returned s <> Some (Some e))
  /\ exists more s',
       run lp (schedule ++ more) (initSched s3Objects) = Some s'
       /\ returned s' = Some None.
Proof.
  intros Hnone Hrun. split.
  - intros e Hret.
    destruct (run_invariants lp s3Objects schedule s Hrun) as (_ & _ & _ & Hsched).
    destruct (no_failure_no_sender lp s3Objects s Hnone Hsched) as [_ Hmain].
    unfold returned in Hret. destruct (mainPC s) as [| | | | |r] eqn:Hm; try done.
    injection Hret as ->. by destruct (Hmain e).
  - apply (no_failure_returns_nil lp s3Objects (Z.to_nat (movesLeft s + 1)) Hnone schedule s Hrun).
    pose proof (movesLeft_nonneg s). lia.
Qed.

Lemma processS3Objects_no_failure_returns_nil_witness :
  exists s,
    run servingProcessor tenLaunched (initSched elevenObjects) = Some s
    /\ exists more s',
         run servingProcessor (tenLaunched ++ more) (initSched elevenObjects) = Some s'
         /\ returned s' = Some None.
Proof.
  eexists. split; [vm_compute; reflexivity|].
  eapply (processS3Objects_no_failure_returns_nil servingProcessor elevenObjects tenLaunched).
  - done.
  - vm_compute; reflexivity.
Defined.
